(** * A shallow embedding of the mini React runtime

    The development follows the TypeScript sources: the equality utilities
    ([shallowEquals], [deepEquals]), the path assigner ([createChildPath]),
    the platform adapter ([setDomProps], [updateDomProps], [removeInstance]),
    the hook store ([useState], [useEffect], [cleanupUnusedHooks]), the
    reconciler ([reconcile], [mount], [update], [reconcileChildren]) and the
    render scheduler ([render] and the deferred effect flush). *)

From Stdlib Require Import ZArith List String Ascii Bool Lia.
From stdpp Require Import base option list gmap strings pretty.

Set Warnings "-register-all".
Local Open Scope string_scope.
Local Open Scope list_scope.

(** ** Results of fallible computations

    A JavaScript call either returns or throws.  Recursive procedures whose
    depth the data does not bound are run with fuel; [OutOfFuel] is kept
    apart from a thrown exception. *)

Inductive Res (A : Type) : Type :=
| Ok (a : A)
| Throw (e : string)
| OutOfFuel.

Arguments Ok {A} a.
Arguments Throw {A} e.
Arguments OutOfFuel {A}.

Definition bindR {A B : Type} (r : Res A) (k : A -> Res B) : Res B :=
  match r with
  | Ok a => k a
  | Throw e => Throw e
  | OutOfFuel => OutOfFuel
  end.

Declare Scope res_scope.
Delimit Scope res_scope with res.
Notation "x <~ c ;; k" := (bindR c (fun x => k))
  (at level 100, c at next level, right associativity) : res_scope.

(** The loop [for (x of l) { if (!test(x)) return false; } return true;]. *)
Fixpoint allR {A : Type} (test : A -> Res bool) (l : list A) : Res bool :=
  match l with
  | [] => Ok true
  | x :: rest =>
      bindR (test x) (fun t => if t then allR test rest else Ok false)
  end.

(** ** JavaScript values *)

Module JS.

(** Numbers: the integers, and the two values on which [Object.is] and
    [===] disagree (NaN and the negative zero). *)
Inductive JsNum : Type :=
| NaN
| NegZero
| Int (z : Z).

(** Arrays, plain objects and functions are references: they carry the
    identity of the object ([id]); an array or object also carries its
    own entries.  The keys of one object are pairwise distinct. *)
Inductive JsVal : Type :=
| VUndefined
| VNull
| VBool (b : bool)
| VNum (n : JsNum)
| VStr (s : string)
| VFun (f : nat)
| VArr (id : nat) (items : list JsVal)
| VObj (id : nat) (fields : list (string * JsVal)).

Inductive JsType : Type :=
| TyUndefined | TyObject | TyBoolean | TyNumber | TyString | TyFunction.

Definition typeof (v : JsVal) : JsType :=
  match v with
  | VUndefined => TyUndefined
  | VNull => TyObject
  | VBool _ => TyBoolean
  | VNum _ => TyNumber
  | VStr _ => TyString
  | VFun _ => TyFunction
  | VArr _ _ => TyObject
  | VObj _ _ => TyObject
  end.

Definition is_object_type (v : JsVal) : bool :=
  match typeof v with TyObject => true | _ => false end.

(** [v == null] *)
Definition loose_null (v : JsVal) : bool :=
  match v with VUndefined | VNull => true | _ => false end.

Definition Array_isArray (v : JsVal) : bool :=
  match v with VArr _ _ => true | _ => false end.

Definition num_same (m n : JsNum) : bool :=
  match m, n with
  | NaN, NaN => true
  | NegZero, NegZero => true
  | Int x, Int y => Z.eqb x y
  | _, _ => false
  end.

Definition num_strict_eq (m n : JsNum) : bool :=
  match m, n with
  | NaN, _ | _, NaN => false
  | NegZero, NegZero => true
  | NegZero, Int y => Z.eqb 0 y
  | Int x, NegZero => Z.eqb x 0
  | Int x, Int y => Z.eqb x y
  end.

(** The comparison shared by [Object.is] and [===] once numbers are set
    apart: primitives by value, references by identity. *)
Definition same_with (num_eq : JsNum -> JsNum -> bool) (a b : JsVal) : bool :=
  match a, b with
  | VUndefined, VUndefined => true
  | VNull, VNull => true
  | VBool x, VBool y => Bool.eqb x y
  | VNum x, VNum y => num_eq x y
  | VStr x, VStr y => String.eqb x y
  | VFun f, VFun g => Nat.eqb f g
  | VArr i _, VArr j _ => Nat.eqb i j
  | VObj i _, VObj j _ => Nat.eqb i j
  | _, _ => false
  end.

Definition Object_is : JsVal -> JsVal -> bool := same_with num_same.
Definition strict_eq : JsVal -> JsVal -> bool := same_with num_strict_eq.

Definition truthy (v : JsVal) : bool :=
  match v with
  | VUndefined | VNull => false
  | VBool b => b
  | VNum NaN | VNum NegZero => false
  | VNum (Int z) => negb (Z.eqb z 0)
  | VStr s => negb (String.eqb s "")
  | VFun _ | VArr _ _ | VObj _ _ => true
  end.

(** [a || b] *)
Definition or_else (a b : JsVal) : JsVal := if truthy a then a else b.

Fixpoint assoc_get {V : Type} (key : string) (l : list (string * V)) : option V :=
  match l with
  | [] => None
  | (k, v) :: rest => if String.eqb k key then Some v else assoc_get key rest
  end.

(** The element of an array stored under the decimal key [key]. *)
Fixpoint index_get (i : nat) (items : list JsVal) (key : string) : JsVal :=
  match items with
  | [] => VUndefined
  | x :: rest => if String.eqb (pretty i) key then x else index_get (S i) rest key
  end.

Definition num_of_nat (n : nat) : JsVal := VNum (Int (Z.of_nat n)).

(** *** Prototypes

    A property that an object does not have itself is read from its
    prototype: [Object.prototype] for a plain object, [Array.prototype] and
    then [Object.prototype] for an array.  The names are those of
    ECMAScript 2023 (with the legacy accessors of its Annex B).  The
    built-in functions are functions like any other: the function of rank
    [n] in the lists below has the identity [builtin_base + n]; the two
    prototype objects have the identities [Object_prototype_id] and
    [Array_prototype_id], and their own properties are not enumerable. *)
Definition Object_prototype_names : list string :=
  ["constructor"; "__defineGetter__"; "__defineSetter__"; "hasOwnProperty";
   "__lookupGetter__"; "__lookupSetter__"; "isPrototypeOf"; "propertyIsEnumerable";
   "toString"; "valueOf"; "toLocaleString"].

Definition Array_prototype_names : list string :=
  ["constructor"; "at"; "concat"; "copyWithin"; "fill"; "find"; "findIndex";
   "findLast"; "findLastIndex"; "lastIndexOf"; "pop"; "push"; "reverse"; "shift";
   "unshift"; "slice"; "sort"; "splice"; "includes"; "indexOf"; "join"; "keys";
   "entries"; "values"; "forEach"; "filter"; "flat"; "flatMap"; "map"; "every";
   "some"; "reduce"; "reduceRight"; "toLocaleString"; "toString"; "toReversed";
   "toSorted"; "toSpliced"; "with"].

Definition builtin_base : nat := 1000.
Definition Object_prototype_id : nat := 1000.
Definition Array_prototype_id : nat := 1001.

Definition Object_prototype : JsVal := VObj Object_prototype_id [].
Definition Array_prototype : JsVal := VArr Array_prototype_id [].

(** The rank of [key] in [names], counted from [n]. *)
Fixpoint rank_of (key : string) (names : list string) (n : nat) : option nat :=
  match names with
  | [] => None
  | name :: rest => if String.eqb name key then Some n else rank_of key rest (S n)
  end.

(** What the object of identity [id] inherits under [key] from
    [Object.prototype] ([__proto__] is the prototype itself, and null on
    [Object.prototype]). *)
Definition Object_inherited (id : nat) (key : string) : option JsVal :=
  if String.eqb key "__proto__" then
    Some (if Nat.eqb id Object_prototype_id then VNull else Object_prototype)
  else
    match rank_of key Object_prototype_names 0 with
    | Some n => Some (VFun (builtin_base + n))
    | None => None
    end.

(** What the array of identity [id] inherits under [key]: the properties
    of [Array.prototype] hide those of [Object.prototype]. *)
Definition Array_inherited (id : nat) (key : string) : option JsVal :=
  if String.eqb key "__proto__" then
    Some (if Nat.eqb id Array_prototype_id then Object_prototype else Array_prototype)
  else
    match rank_of key Array_prototype_names (length Object_prototype_names) with
    | Some n => Some (VFun (builtin_base + n))
    | None => Object_inherited id key
    end.

(** [v[key]]: reading a property of [undefined] or [null] throws; an array
    or a plain object gives its own property, else the inherited one, else
    [undefined].  (The comparators below read objects only.) *)
Definition get (v : JsVal) (key : string) : Res JsVal :=
  match v with
  | VUndefined | VNull => Throw "TypeError"
  | VArr id items =>
      if String.eqb key "length" then Ok (num_of_nat (length items))
      else match Array_inherited id key with
           | Some inherited => Ok inherited
           | None => Ok (index_get 0 items key)
           end
  | VObj id fields =>
      Ok (match assoc_get key fields with
          | Some own => own
          | None => default VUndefined (Object_inherited id key)
          end)
  | _ => Ok VUndefined
  end.

(** [Object.keys(v)] *)
Definition Object_keys (v : JsVal) : Res (list string) :=
  match v with
  | VUndefined | VNull => Throw "TypeError"
  | VArr _ items => Ok (map pretty (seq 0 (length items)))
  | VObj _ fields => Ok (map fst fields)
  | VStr s => Ok (map pretty (seq 0 (String.length s)))
  | _ => Ok []
  end.

(** The bound of [for (let i = 0; i < n; i++)] for a value [n]. *)
Definition loop_bound (n : JsVal) : nat :=
  match n with
  | VNum (Int z) => Z.to_nat z
  | _ => 0
  end.

End JS.
Import JS.

(** ** Equality utilities *)

Local Open Scope res_scope.

Definition shallowEquals (a b : JsVal) : Res bool :=
  (* 1. identity *)
  if Object_is a b then Ok true
  (* 2. null or not an object *)
  else if loose_null a || loose_null b
          || negb (is_object_type a) || negb (is_object_type b) then Ok false
  (* 3. two arrays *)
  else if Array_isArray a && Array_isArray b then
    la <~ get a "length" ;;
    lb <~ get b "length" ;;
    if negb (strict_eq la lb) then Ok false
    else allR (fun i => x <~ get a (pretty i) ;;
                        y <~ get b (pretty i) ;;
                        Ok (Object_is x y))
              (seq 0 (loop_bound la))
  (* 4. an array and a non-array *)
  else if negb (Bool.eqb (Array_isArray a) (Array_isArray b)) then Ok false
  (* 5. two objects *)
  else
    keysA <~ Object_keys a ;;
    keysB <~ Object_keys b ;;
    if negb (Nat.eqb (length keysA) (length keysB)) then Ok false
    else allR (fun key => x <~ get a key ;;
                          y <~ get b key ;;
                          Ok (Object_is x y))
              keysA.

(** The two loops of [deepEquals], over the items of an array [a] and over
    the entries of an object [a]; [deq] is the recursive call. *)
Fixpoint deepItems (deq : JsVal -> JsVal -> Res bool) (b : JsVal) (i : nat)
    (xs : list JsVal) {struct xs} : Res bool :=
  match xs with
  | [] => Ok true
  | x :: rest =>
      y <~ get b (pretty i) ;;
      t <~ deq x y ;;
      if t then deepItems deq b (S i) rest else Ok false
  end.

Fixpoint deepEntries (deq : JsVal -> JsVal -> Res bool) (b : JsVal)
    (fs : list (string * JsVal)) {struct fs} : Res bool :=
  match fs with
  | [] => Ok true
  | (key, x) :: rest =>
      y <~ get b key ;;
      t <~ deq x y ;;
      if t then deepEntries deq b rest else Ok false
  end.

(** [deepEquals] recurses into the entries of [a].  The loops of the source
    run over the indices, respectively the keys, of [a] and read [a] under
    each of them; here they run over the entries of [a] themselves. *)
Fixpoint deepEquals (a b : JsVal) {struct a} : Res bool :=
  (* 1. identity *)
  if Object_is a b then Ok true
  (* 2. null or not an object *)
  else if loose_null a || loose_null b
          || negb (is_object_type a) || negb (is_object_type b) then Ok false
  else
    match a with
    | VArr _ xs =>
        (* 3. two arrays *)
        if Array_isArray b then
          lb <~ get b "length" ;;
          if negb (strict_eq (num_of_nat (length xs)) lb) then Ok false
          else deepItems deepEquals b 0 xs
        (* 4. objects: the keys of an array are its indices *)
        else
          keysB <~ Object_keys b ;;
          if negb (Nat.eqb (length xs) (length keysB)) then Ok false
          else deepItems deepEquals b 0 xs
    | VObj _ fs =>
        (* 4. objects *)
        keysB <~ Object_keys b ;;
        if negb (Nat.eqb (length fs) (length keysB)) then Ok false
        else deepEntries deepEquals b fs
    | _ => Ok false
    end.

(** ** Virtual nodes and instances *)

(** Modelled from the spec: the constants [TEXT_ELEMENT] and [Fragment] are
    not among the sources; they are the two special markers of §3, distinct
    from every tag and every function.  The [type] of a virtual node is a
    host tag, one of the markers or a component function.  A component
    function is a reference (its identity is [f]); its name and its body are
    looked up in the environment. *)
Inductive VType : Type :=
| Host (tag : string)
| TEXT_ELEMENT
| Fragment
| Fn (f : nat).

Record PropsOf (V : Type) : Type := MkProps {
  p_children : option (list V);           (* [props.children], when present *)
  p_fields : list (string * JsVal)        (* the other entries, in order *)
}.
Arguments MkProps {V} _ _.
Arguments p_children {V} _.
Arguments p_fields {V} _.

Inductive VNode : Type :=
| MkVNode (type : VType) (key : option string) (props : PropsOf VNode).

Definition Props : Type := PropsOf VNode.

Definition v_type (n : VNode) : VType := let 'MkVNode t _ _ := n in t.
Definition v_key (n : VNode) : option string := let 'MkVNode _ k _ := n in k.
Definition v_props (n : VNode) : Props := let 'MkVNode _ _ p := n in p.

(** The values of [NodeTypes]. *)
Inductive NodeKind : Type := HOST | TEXT | FRAGMENT | COMPONENT.

Inductive Instance : Type :=
| MkInstance (kind : NodeKind) (dom : option nat) (node : VNode)
             (children : list (option Instance)) (key : option string)
             (path : string).

Definition i_kind (i : Instance) : NodeKind := let 'MkInstance k _ _ _ _ _ := i in k.
Definition i_dom (i : Instance) : option nat := let 'MkInstance _ d _ _ _ _ := i in d.
Definition i_node (i : Instance) : VNode := let 'MkInstance _ _ n _ _ _ := i in n.
Definition i_children (i : Instance) : list (option Instance) :=
  let 'MkInstance _ _ _ c _ _ := i in c.
Definition i_key (i : Instance) : option string := let 'MkInstance _ _ _ _ k _ := i in k.
Definition i_path (i : Instance) : string := let 'MkInstance _ _ _ _ _ p := i in p.

Definition set_children (i : Instance) (c : list (option Instance)) : Instance :=
  let 'MkInstance k d n _ key p := i in MkInstance k d n c key p.

(** [instance.node = node; instance.path = path] *)
Definition set_node_path (i : Instance) (n : VNode) (p : string) : Instance :=
  let 'MkInstance k d _ c key _ := i in MkInstance k d n c key p.

(** [t1 === t2] on node types: tags by value, markers and functions by
    identity. *)
Definition VType_eqb (t1 t2 : VType) : bool :=
  match t1, t2 with
  | Host a, Host b => String.eqb a b
  | TEXT_ELEMENT, TEXT_ELEMENT => true
  | Fragment, Fragment => true
  | Fn f, Fn g => Nat.eqb f g
  | _, _ => false
  end.

(** [k1 === k2] on keys ([string | null]). *)
Definition key_eqb (k1 k2 : option string) : bool :=
  match k1, k2 with
  | None, None => true
  | Some a, Some b => String.eqb a b
  | _, _ => false
  end.

(** [props[key]] for a key other than [children]. *)
Definition prop (p : Props) (key : string) : JsVal :=
  default VUndefined (assoc_get key (p_fields p)).

(** [key in props] *)
Definition has_prop (p : Props) (key : string) : bool :=
  if String.eqb key "children" then bool_decide (is_Some (p_children p))
  else bool_decide (is_Some (assoc_get key (p_fields p))).

(** [props.children || []] *)
Definition children_or_empty (p : Props) : list VNode :=
  default [] (p_children p).

(** [s || t] on strings: the empty string is falsy. *)
Definition str_or (s t : string) : string := if String.eqb s "" then t else s.

(** ** The platform: a document of widgets

    The document hands out fresh widgets, records which widget is the parent
    of which, and logs every operation performed on a widget. *)

Inductive DomOp : Type :=
| OpCreateElement (d : nat) (tag : string)
| OpCreateTextNode (d : nat) (data : JsVal)
| OpAppendChild (parent child : nat)
| OpRemoveChild (parent child : nat)
| OpSetNodeValue (d : nat) (v : JsVal)
| OpSetStyle (d : nat) (styleKey : string) (v : JsVal)
| OpSetClassName (d : nat) (v : JsVal)
| OpAddEventListener (d : nat) (eventType : string) (handler : JsVal)
| OpRemoveEventListener (d : nat) (eventType : string) (handler : JsVal)
| OpSetProperty (d : nat) (key : string) (v : JsVal)
| OpSetAttribute (d : nat) (key : string) (v : JsVal)
| OpRemoveAttribute (d : nat) (key : string).

Record Dom : Type := MkDom {
  next_id : nat;                       (* the next fresh widget *)
  parentNode : gmap nat nat;           (* [node.parentNode], when attached *)
  tagName : gmap nat string;           (* the tag of each element *)
  oplog : list DomOp                   (* operations, oldest first *)
}.

Definition log_op (op : DomOp) (d : Dom) : Dom :=
  MkDom (next_id d) (parentNode d) (tagName d) (oplog d ++ [op]).

Definition log_ops (ops : list DomOp) (d : Dom) : Dom :=
  MkDom (next_id d) (parentNode d) (tagName d) (oplog d ++ ops).

(** [document.createElement(tag)] *)
Definition createElement_dom (tag : string) (d : Dom) : nat * Dom :=
  let id := next_id d in
  (id, MkDom (S id) (parentNode d) (<[id := tag]> (tagName d))
             (oplog d ++ [OpCreateElement id tag])).

(** [document.createTextNode(data)] *)
Definition createTextNode (data : JsVal) (d : Dom) : nat * Dom :=
  let id := next_id d in
  (id, MkDom (S id) (parentNode d) (tagName d)
             (oplog d ++ [OpCreateTextNode id data])).

(** [parent.appendChild(child)] *)
Definition appendChild (parent child : nat) (d : Dom) : Dom :=
  MkDom (next_id d) (<[child := parent]> (parentNode d)) (tagName d)
        (oplog d ++ [OpAppendChild parent child]).

(** [parent.removeChild(child)], called on a child of [parent]. *)
Definition removeChild (parent child : nat) (d : Dom) : Dom :=
  MkDom (next_id d) (delete child (parentNode d)) (tagName d)
        (oplog d ++ [OpRemoveChild parent child]).

(** ASCII lower-casing, as [toLowerCase] does on the names of props. *)
Definition lower_ascii (c : ascii) : ascii :=
  let n := nat_of_ascii c in
  if Nat.leb 65 n && Nat.leb n 90 then ascii_of_nat (n + 32) else c.

Fixpoint toLowerCase (s : string) : string :=
  match s with
  | EmptyString => EmptyString
  | String c rest => String (lower_ascii c) (toLowerCase rest)
  end.

(** [key.toLowerCase().substring(2)] *)
Definition eventTypeOf (key : string) : string :=
  let l := toLowerCase key in String.substring 2 (String.length l - 2) l.

Definition startsWith (s pre : string) : bool := String.prefix pre s.

(** [Object.entries(v)] *)
Definition Object_entries (v : JsVal) : Res (list (string * JsVal)) :=
  match v with
  | VUndefined | VNull => Throw "TypeError"
  | VArr _ items => Ok (imap (fun i x => (pretty i, x)) items)
  | VObj _ fields => Ok fields
  | _ => Ok []
  end.

(** ** The render context, the document and the event loop *)

(** An effect slot.  The tag of [Slot] stands for the [kind] field by which
    the source tells an effect hook from a plain stored value. *)
Record EffectHook : Type := MkEffectHook {
  deps : JsVal;               (* an array of values, or [null] *)
  cleanup : option nat;       (* a cleanup procedure, or [null] *)
  effect : nat                (* the effect procedure *)
}.

Inductive Slot : Type :=
| HValue (v : JsVal)
| HEffect (e : EffectHook).

(** [context.hooks.state] is a [Map]: it is iterated in insertion order, so
    it is kept as an association list with at most one entry per key. *)
Definition SlotTable : Type := list (string * list Slot).

Definition smap_get (k : string) (m : SlotTable) : option (list Slot) := assoc_get k m.

Fixpoint smap_set (k : string) (v : list Slot) (m : SlotTable) : SlotTable :=
  match m with
  | [] => [(k, v)]
  | (k', v') :: rest =>
      if String.eqb k' k then (k, v) :: rest else (k', v') :: smap_set k v rest
  end.

Definition smap_delete (k : string) (m : SlotTable) : SlotTable :=
  List.filter (fun kv => negb (String.eqb (fst kv) k)) m.

(** [arr[i]]: a missing element reads as [undefined]. *)
Definition slot_at (arr : list Slot) (i : nat) : Slot :=
  default (HValue VUndefined) (arr !! i).

(** [arr[i] = x]: writing past the end extends the array. *)
Definition write_at (arr : list Slot) (i : nat) (x : Slot) : list Slot :=
  if Nat.ltb i (length arr) then <[i := x]> arr
  else arr ++ replicate (i - length arr) (HValue VUndefined) ++ [x].

Record Hooks : Type := MkHooks {
  state : SlotTable;                 (* persisted slots of every path *)
  cursor : gmap string nat;          (* next slot of every path *)
  visited : gset string;             (* paths reached in this pass *)
  componentStack : list string       (* executing components, top last *)
}.

Inductive Task : Type :=
| TaskRender
| TaskEffects (effectsToRun : list (string * nat)).

Record World : Type := MkWorld {
  root_container : nat;
  root_node : option VNode;
  root_instance : option Instance;
  hooks : Hooks;
  effects_queue : list (string * nat);
  document : Dom;
  renderScheduled : bool;            (* a render task is pending *)
  microtasks : list Task;            (* deferred tasks, oldest first *)
  invoked : list nat                 (* user procedures called, oldest first *)
}.

Definition with_hooks (h : Hooks) (w : World) : World :=
  MkWorld (root_container w) (root_node w) (root_instance w) h (effects_queue w)
          (document w) (renderScheduled w) (microtasks w) (invoked w).

Definition with_root_instance (i : option Instance) (w : World) : World :=
  MkWorld (root_container w) (root_node w) i (hooks w) (effects_queue w)
          (document w) (renderScheduled w) (microtasks w) (invoked w).

Definition with_queue (q : list (string * nat)) (w : World) : World :=
  MkWorld (root_container w) (root_node w) (root_instance w) (hooks w) q
          (document w) (renderScheduled w) (microtasks w) (invoked w).

Definition with_document (d : Dom) (w : World) : World :=
  MkWorld (root_container w) (root_node w) (root_instance w) (hooks w)
          (effects_queue w) d (renderScheduled w) (microtasks w) (invoked w).

Definition with_state (s : SlotTable) (w : World) : World :=
  let h := hooks w in
  with_hooks (MkHooks s (cursor h) (visited h) (componentStack h)) w.

Definition with_cursor (c : gmap string nat) (w : World) : World :=
  let h := hooks w in
  with_hooks (MkHooks (state h) c (visited h) (componentStack h)) w.

(** Calling the user procedure [f]: the call is recorded.  User procedures
    are taken not to re-enter the runtime while they run. *)
Definition invoke (f : nat) (w : World) : World :=
  MkWorld (root_container w) (root_node w) (root_instance w) (hooks w)
          (effects_queue w) (document w) (renderScheduled w) (microtasks w)
          (invoked w ++ [f]).

(** [queueMicrotask(task)] *)
Definition queueMicrotask (t : Task) (w : World) : World :=
  MkWorld (root_container w) (root_node w) (root_instance w) (hooks w)
          (effects_queue w) (document w) (renderScheduled w) (microtasks w ++ [t])
          (invoked w).

(** The functions of the application and of the platform that the runtime
    calls or inspects. *)
Record Fns : Type := MkFns {
  fn_displayName : nat -> option string;   (* [f.displayName] *)
  fn_name : nat -> string;                 (* [f.name] *)
  fn_apply : nat -> JsVal -> JsVal;         (* initialisers and updaters *)
  effect_returns : nat -> option nat;      (* the cleanup an effect returns *)
  has_dom_prop : string -> string -> bool  (* [key in dom] for a tag *)
}.

(** The environment adds the bodies of the component functions; a body
    reads and writes the world through the hooks. *)
Record Env : Type := MkEnv {
  fns :> Fns;
  fn_component : nat -> Props -> World -> Res (option VNode * World)
}.

(** Procedures of the runtime read and write the world and may throw. *)
Definition M (A : Type) : Type := World -> Res (A * World).

Definition ret {A : Type} (a : A) : M A := fun w => Ok (a, w).

Definition bindM {A B : Type} (m : M A) (k : A -> M B) : M B :=
  fun w =>
    match m w with
    | Ok (a, w') => k a w'
    | Throw e => Throw e
    | OutOfFuel => OutOfFuel
    end.

Definition modify (f : World -> World) : M unit := fun w => Ok (tt, f w).

Definition gets {A : Type} (f : World -> A) : M A := fun w => Ok (f w, w).

Definition liftR {A : Type} (r : Res A) : M A :=
  fun w => match r with Ok a => Ok (a, w) | Throw e => Throw e | OutOfFuel => OutOfFuel end.

Declare Scope m_scope.
Delimit Scope m_scope with M.
Notation "x <- c ;; k" := (bindM c (fun x => k))
  (at level 100, c at next level, right associativity) : m_scope.
Notation "c ;; k" := (bindM c (fun _ => k))
  (at level 100, right associativity) : m_scope.

(** Folding a fallible step over a list, as [forEach] with a body that may
    throw. *)
Fixpoint foldR {A S : Type} (step : S -> A -> Res S) (l : list A) (s : S) : Res S :=
  match l with
  | [] => Ok s
  | x :: rest => s' <~ step s x ;; foldR step rest s'
  end.

(** ** Path identity assigner *)

Definition createChildPath (E : Fns) (parentPath : string) (key : option string)
    (index : nat) (nodeType : option VType) (siblings : option (list VNode)) : string :=
  match key with
  | Some k => parentPath +:+ ".k" +:+ k
  | None =>
      match nodeType with
      | Some (Fn f) =>
          let componentName :=
            str_or (default "" (fn_displayName E f)) (str_or (fn_name E f) "Component") in
          let sameTypeCount :=
            match siblings with
            | Some s =>
                length (List.filter
                          (fun sibling => VType_eqb (v_type sibling) (Fn f)
                                          && bool_decide (v_key sibling = None))
                          (take index s))
            | None => 0
            end in
          parentPath +:+ ".c" +:+ componentName +:+ "_" +:+ pretty sameTypeCount
      | _ => parentPath +:+ ".i" +:+ pretty index
      end
  end.

(** ** Platform adapter *)

(** [key in dom], for the element [d]. *)
Definition key_in_dom (E : Fns) (d : nat) (key : string) (dom : Dom) : bool :=
  has_dom_prop E (default "" (tagName dom !! d)) key.

Definition setDomProps (E : Fns) (d : nat) (props : Props) (dom : Dom) : Res Dom :=
  foldR (fun dom '(key, value) =>
           if String.eqb key "children" then Ok dom
           else if String.eqb key "style" && is_object_type value then
             entries <~ Object_entries value ;;
             Ok (log_ops (map (fun '(styleKey, styleValue) =>
                                 OpSetStyle d styleKey styleValue) entries) dom)
           else if String.eqb key "className" then
             Ok (log_op (OpSetClassName d value) dom)
           else if startsWith key "on" then
             Ok (log_op (OpAddEventListener d (eventTypeOf key) value) dom)
           else if key_in_dom E d key dom then
             Ok (log_op (OpSetProperty d key value) dom)
           else
             Ok (log_op (OpSetAttribute d key value) dom))
        (p_fields props) dom.

(** The first loop of [updateDomProps]: props that are gone. *)
Definition removePrevProp (E : Fns) (d : nat) (prevProps nextProps : Props)
    (dom : Dom) (key : string) : Dom :=
  if String.eqb key "children" then dom
  else if negb (has_prop nextProps key) then
    if startsWith key "on" then
      log_op (OpRemoveEventListener d (eventTypeOf key) (prop prevProps key)) dom
    else if String.eqb key "className" then log_op (OpSetClassName d (VStr "")) dom
    else if String.eqb key "style" then log_op (OpRemoveAttribute d "style") dom
    else if key_in_dom E d key dom then log_op (OpSetProperty d key (VStr "")) dom
    else log_op (OpRemoveAttribute d key) dom
  else dom.

(** The second loop of [updateDomProps]: props that are new or changed. *)
Definition applyNextProp (E : Fns) (d : nat) (prevProps : Props)
    (dom : Dom) (entry : string * JsVal) : Res Dom :=
  let '(key, value) := entry in
  if String.eqb key "children" then Ok dom
  else
    let prevValue := prop prevProps key in
    if strict_eq prevValue value then Ok dom
    else if String.eqb key "style" && is_object_type value then
      entries <~ Object_entries value ;;
      Ok (log_ops (map (fun '(styleKey, styleValue) =>
                          OpSetStyle d styleKey styleValue) entries) dom)
    else if String.eqb key "className" then
      Ok (log_op (OpSetClassName d value) dom)
    else if startsWith key "on" then
      let eventType := eventTypeOf key in
      let dom := if truthy prevValue
                 then log_op (OpRemoveEventListener d eventType prevValue) dom
                 else dom in
      Ok (log_op (OpAddEventListener d eventType value) dom)
    else if key_in_dom E d key dom then
      Ok (log_op (OpSetProperty d key value) dom)
    else
      Ok (log_op (OpSetAttribute d key value) dom).

Definition updateDomProps (E : Fns) (d : nat) (prevProps nextProps : Props)
    (dom : Dom) : Res Dom :=
  let dom := fold_left (removePrevProp E d prevProps nextProps)
                       (map fst (p_fields prevProps)) dom in
  foldR (applyNextProp E d prevProps) (p_fields nextProps) dom.

Fixpoint getDomNodes (instance : Instance) : list nat :=
  match instance with
  | MkInstance _ dom _ children _ _ =>
      match dom with
      | Some d => [d]
      | None =>
          flat_map (fun child => match child with
                                 | Some c => getDomNodes c
                                 | None => []
                                 end) children
      end
  end.

Definition removeInstance_dom (parentDom : nat) (instance : option Instance)
    (dom : Dom) : Dom :=
  match instance with
  | None => dom
  | Some i =>
      fold_left (fun dom node =>
                   if bool_decide (parentNode dom !! node = Some parentDom)
                   then removeChild parentDom node dom
                   else dom)
                (getDomNodes i) dom
  end.

Definition removeInstance (parentDom : nat) (instance : option Instance) : M unit :=
  modify (fun w => with_document (removeInstance_dom parentDom instance (document w)) w).

(** ** Hook store *)

(** Modelled from the spec: the context object (its getters [currentPath],
    [currentCursor] and [currentHooks]) is not among the sources.  The
    currently executing component is the top of the call stack; its cursor
    is the entry of the cursor map (0 when absent); its slot sequence is the
    entry of the persisted table, created empty on first access. *)
Definition currentPath : M string :=
  fun w => match last (componentStack (hooks w)) with
           | Some p => Ok (p, w)
           | None => Throw "hook called outside of a component"
           end.

(** Modelled from the spec: the cursor of [path], 0 when it has none. *)
Definition currentCursor (path : string) : M nat :=
  gets (fun w => default 0 (cursor (hooks w) !! path)).

(** Modelled from the spec: the slot sequence of [path] in the persisted
    table, entered there as an empty sequence on first access. *)
Definition currentHooks (path : string) : M (list Slot) :=
  fun w => match smap_get path (state (hooks w)) with
           | Some slots => Ok (slots, w)
           | None => Ok ([], with_state (smap_set path [] (state (hooks w))) w)
           end.

(** [currentHooks[cursor] = slot], on the sequence stored under [path]. *)
Definition write_slot (path : string) (i : nat) (slot : Slot) (w : World) : World :=
  match smap_get path (state (hooks w)) with
  | Some slots => with_state (smap_set path (write_at slots i slot) (state (hooks w))) w
  | None => w
  end.

(** Modelled from the spec: the batching primitive [withEnqueue] is not
    among the sources.  Any number of requests within one tick result in
    one deferred render pass. *)
Definition enqueueRender (w : World) : World :=
  if renderScheduled w then w
  else MkWorld (root_container w) (root_node w) (root_instance w) (hooks w)
               (effects_queue w) (document w) true (microtasks w ++ [TaskRender])
               (invoked w).

(** The cleanups of the effect slots of one path, run in slot order. *)
Definition runCleanups (hookState : list Slot) (w : World) : World :=
  fold_left (fun w hook =>
               match hook with
               | HEffect effectHook =>
                   match cleanup effectHook with
                   | Some c => invoke c w
                   | None => w
                   end
               | HValue _ => w
               end) hookState w.

(** The body of the second loop of [cleanupUnusedHooks]. *)
Definition dropPath (w : World) (path : string) : World :=
  let w :=
    match smap_get path (state (hooks w)) with
    | Some hookState => runCleanups hookState w
    | None => w
    end in
  let w := with_state (smap_delete path (state (hooks w))) w in
  with_cursor (delete path (cursor (hooks w))) w.

Definition cleanupUnusedHooks (w : World) : World :=
  let pathsToDelete :=
    List.filter (fun path => negb (bool_decide (path ∈ visited (hooks w))))
                (map fst (state (hooks w))) in
  fold_left dropPath pathsToDelete w.

(** [useState] returns the stored slot and its setter; the setter is the
    closure over [path] and [cursor] that [setState] below runs. *)
Definition is_undefined (s : Slot) : bool :=
  match s with HValue VUndefined => true | _ => false end.

Local Open Scope m_scope.

Definition useState (E : Fns) (initialValue : JsVal) : M (Slot * (string * nat)) :=
  path <- currentPath ;;
  cur <- currentCursor path ;;
  slots <- currentHooks path ;;
  (if is_undefined (slot_at slots cur) then
     let initialState :=
       match initialValue with
       | VFun f => fn_apply E f VUndefined
       | _ => initialValue
       end in
     modify (write_slot path cur (HValue initialState))
   else ret tt) ;;
  st <- gets (fun w => slot_at (default [] (smap_get path (state (hooks w)))) cur) ;;
  modify (fun w => with_cursor (<[path := cur + 1]> (cursor (hooks w))) w) ;;
  ret (st, (path, cur)).

(** The setter returned by [useState] at [(path, cur)].  A slot that holds
    an effect hook is outside the type of the stored state: it is never
    identical to a new value. *)
Definition setState (E : Fns) (path : string) (cur : nat) (nextValue : JsVal)
    (w : World) : World :=
  let stored := smap_get path (state (hooks w)) ≫= (fun slots => slots !! cur) in
  let currentState :=
    match stored with
    | Some (HValue v) => v
    | _ => VUndefined
    end in
  let newValue :=
    match nextValue with
    | VFun f => fn_apply E f currentState
    | _ => nextValue
    end in
  let same :=
    match stored with
    | Some (HEffect _) => false
    | _ => Object_is currentState newValue
    end in
  if same then w
  else enqueueRender (write_slot path cur (HValue newValue) w).

(** [currentHooks[cursor] as EffectHook | undefined]: an effect slot is read
    as itself, an empty slot as absent.  A plain value left at this cursor
    by another hook has neither [deps] nor [cleanup] (a stored object with
    such properties is outside the declared types); the branch taken and
    the slot written for it are those of an absent slot. *)
Definition as_EffectHook (s : Slot) : option EffectHook :=
  match s with
  | HEffect e => Some e
  | HValue _ => None
  end.

Definition useEffect (eff : nat) (depList : JsVal) : M unit :=
  path <- currentPath ;;
  cur <- currentCursor path ;;
  slots <- currentHooks path ;;
  let prevHook := as_EffectHook (slot_at slots cur) in
  depsChanged <-
    match prevHook with
    | None => ret true
    | Some prev =>
        if strict_eq depList VUndefined then ret true
        else (same <- liftR (shallowEquals (deps prev) depList) ;; ret (negb same))
    end ;;
  let depsArray := if Array_isArray depList then depList else VNull in
  (if depsChanged : bool then
     let newHook :=
       MkEffectHook depsArray (prevHook ≫= cleanup) eff in
     modify (write_slot path cur (HEffect newHook)) ;;
     modify (fun w => with_queue (effects_queue w ++ [(path, cur)]) w)
   else
     match prevHook with
     | Some prev => modify (write_slot path cur (HEffect prev))
     | None => ret tt
     end) ;;
  modify (fun w => with_cursor (<[path := cur + 1]> (cursor (hooks w))) w).

(** ** Reconciler *)

(** The hook-store protocol around the call of a component function. *)
Definition enterComponent (path : string) (w : World) : World :=
  let h := hooks w in
  with_hooks (MkHooks (state h) (<[path := 0]> (cursor h)) ({[path]} ∪ visited h)
                      (componentStack h ++ [path])) w.

Definition leaveComponent (w : World) : World :=
  let h := hooks w in
  with_hooks (MkHooks (state h) (cursor h) (visited h) (removelast (componentStack h))) w.

(** [[childNode!].filter(Boolean)] *)
Definition option_list {A : Type} (o : option A) : list A :=
  match o with Some a => [a] | None => [] end.

(** [childInstance ? [childInstance] : []] *)
Definition child_list (o : option Instance) : list (option Instance) :=
  match o with Some c => [Some c] | None => [] end.

Section Reconciler.

Variable E : Env.

(** The recursive call to [reconcile]. *)
Variable rec : nat -> option Instance -> option VNode -> string -> M (option Instance).

(** The path of the child at index [i]. *)
Definition childPathAt (parentPath : string) (oldChildren : list (option Instance))
    (newChildren : list VNode) (i : nat) : string :=
  match newChildren !! i with
  | Some newChild =>
      createChildPath E parentPath (v_key newChild) i (Some (v_type newChild))
                      (Some newChildren)
  | None =>
      let fallback := parentPath +:+ ".i" +:+ pretty i in
      match mjoin (oldChildren !! i) with
      | Some oldChild => str_or (i_path oldChild) fallback
      | None => fallback
      end
  end.

(** The body of the loop of [reconcileChildren], for the indices [indices]. *)
Fixpoint reconcileChildren_loop (parentDom : nat) (parentPath : string)
    (oldChildren : list (option Instance)) (newChildren : list VNode)
    (indices : list nat) (newInstances : list (option Instance))
    : M (list (option Instance)) :=
  match indices with
  | [] => ret newInstances
  | i :: rest =>
      let oldChild := mjoin (oldChildren !! i) in
      let newChild := newChildren !! i in
      let childPath := childPathAt parentPath oldChildren newChildren i in
      instance <- rec parentDom oldChild newChild childPath ;;
      reconcileChildren_loop parentDom parentPath oldChildren newChildren rest
                             (newInstances ++ [instance])
  end.

Definition reconcileChildren (parentDom : nat) (parentInstance : Instance)
    (newChildren : list VNode) : M (list (option Instance)) :=
  let oldChildren := i_children parentInstance in
  let maxLength := Nat.max (length oldChildren) (length newChildren) in
  reconcileChildren_loop parentDom (i_path parentInstance) oldChildren newChildren
                         (seq 0 maxLength) [].

(** The component branch shared by [mount] and [update]: run the function
    under the hook-store protocol, then reconcile its single child. *)
Definition runComponent (parentDom : nat) (instance : Instance) (f : nat)
    (props : Props) (path : string) (oldChild : option Instance) : M Instance :=
  modify (enterComponent path) ;;
  childNode <- fn_component E f props ;;
  modify leaveComponent ;;
  let childPath :=
    createChildPath E path None 0 (v_type <$> childNode) (Some (option_list childNode)) in
  childInstance <- rec parentDom oldChild childNode childPath ;;
  ret (set_children instance (child_list childInstance)).

Definition mount (parentDom : nat) (node : VNode) (path : string) : M Instance :=
  let type := v_type node in
  let key := v_key node in
  let props := v_props node in
  match type with
  | Fragment =>
      let instance := MkInstance FRAGMENT None node [] key path in
      children <- reconcileChildren parentDom instance (children_or_empty props) ;;
      ret (set_children instance children)
  | Fn f =>
      let instance := MkInstance COMPONENT None node [] key path in
      runComponent parentDom instance f props path None
  | TEXT_ELEMENT =>
      textNode <- (fun w =>
        let '(t, dom) := createTextNode (or_else (prop props "nodeValue") (VStr ""))
                                        (document w) in
        Ok (t, with_document dom w)) ;;
      let instance := MkInstance TEXT (Some textNode) node [] key path in
      modify (fun w => with_document (appendChild parentDom textNode (document w)) w) ;;
      ret instance
  | Host tag =>
      dom <- (fun w =>
        let '(d, dom) := createElement_dom tag (document w) in
        Ok (d, with_document dom w)) ;;
      let instance := MkInstance HOST (Some dom) node [] key path in
      (fun w => bindR (setDomProps E dom props (document w))
                      (fun dom' => Ok (tt, with_document dom' w))) ;;
      children <- reconcileChildren dom instance (children_or_empty props) ;;
      modify (fun w => with_document (appendChild parentDom dom (document w)) w) ;;
      ret (set_children instance children)
  end.

Definition update (parentDom : nat) (instance : Instance) (node : VNode)
    (path : string) : M Instance :=
  let type := v_type node in
  let props := v_props node in
  let prevProps := v_props (i_node instance) in
  let instance := set_node_path instance node path in
  match type with
  | Fragment =>
      children <- reconcileChildren parentDom instance (children_or_empty props) ;;
      ret (set_children instance children)
  | Fn f =>
      let oldChild := mjoin (i_children instance !! 0) in
      runComponent parentDom instance f props path oldChild
  | _ =>
      match VType_eqb type TEXT_ELEMENT, i_dom instance, i_kind instance with
      | true, Some dom, _ =>
          modify (fun w => with_document
                   (log_op (OpSetNodeValue dom (or_else (prop props "nodeValue") (VStr "")))
                           (document w)) w) ;;
          ret instance
      | _, Some dom, HOST =>
          (fun w => bindR (updateDomProps E dom prevProps props (document w))
                          (fun dom' => Ok (tt, with_document dom' w))) ;;
          children <- reconcileChildren dom instance (children_or_empty props) ;;
          ret (set_children instance children)
      | _, _, _ => ret instance
      end
  end.

Definition reconcile_body (parentDom : nat) (instance : option Instance)
    (node : option VNode) (path : string) : M (option Instance) :=
  match node with
  | None =>
      (* 1. unmount *)
      removeInstance parentDom instance ;;
      ret None
  | Some node =>
      match instance with
      | None =>
          (* 2. mount *)
          i <- mount parentDom node path ;; ret (Some i)
      | Some instance =>
          if negb (VType_eqb (v_type (i_node instance)) (v_type node))
             || negb (key_eqb (v_key (i_node instance)) (v_key node))
          then
            (* 3. replace *)
            removeInstance parentDom (Some instance) ;;
            i <- mount parentDom node path ;; ret (Some i)
          else
            (* 4. update *)
            i <- update parentDom instance node path ;; ret (Some i)
      end
  end.

End Reconciler.

(** [reconcile], with the depth of nested calls bounded by [fuel]. *)
Fixpoint reconcile (E : Env) (fuel : nat) (parentDom : nat) (instance : option Instance)
    (node : option VNode) (path : string) : M (option Instance) :=
  match fuel with
  | 0 => fun _ => OutOfFuel
  | S fuel' => reconcile_body E (reconcile E fuel') parentDom instance node path
  end.

(** ** Render scheduler *)

(** 1. the per-pass reset of the hook context. *)
Definition resetHooks (w : World) : World :=
  with_hooks (MkHooks (state (hooks w)) ∅ ∅ []) w.

(** The effect of one queued entry, run in the deferred task. *)
Definition runEffect (E : Fns) (w : World) (entry : string * nat) : World :=
  let '(path, cur) := entry in
  match smap_get path (state (hooks w)) with
  | Some hookState =>
      match hookState !! cur with
      | Some (HEffect hook) =>
          let w := match cleanup hook with
                   | Some c => invoke c w
                   | None => w
                   end in
          let w := invoke (effect hook) w in
          let newCleanup := effect_returns E (effect hook) in
          write_slot path cur (HEffect (MkEffectHook (deps hook) newCleanup (effect hook))) w
      | _ => w
      end
  | None => w
  end.

Definition flushEffects (E : Fns) (effectsToRun : list (string * nat)) (w : World) : World :=
  fold_left (runEffect E) effectsToRun w.

(** 4. the queue is copied and emptied; a deferred task gets the copy. *)
Definition scheduleEffects (w : World) : World :=
  let effectsToRun := effects_queue w in
  let w := with_queue [] w in
  if Nat.ltb 0 (length effectsToRun)
  then queueMicrotask (TaskEffects effectsToRun) w
  else w.

Definition render (E : Env) (fuel : nat) : M unit :=
  modify resetHooks ;;
  instance <- (fun w => reconcile E fuel (root_container w) (root_instance w)
                                  (root_node w) "" w) ;;
  modify (with_root_instance instance) ;;
  modify cleanupUnusedHooks ;;
  modify scheduleEffects.

(** Modelled from the spec: one deferred task of the event loop.  The
    render task is the one that [enqueueRender] has scheduled; when it has
    run, a render can be requested again.  The effect task works on the
    copy of the queue that it was created with. *)
Definition runTask (E : Env) (fuel : nat) (t : Task) : M unit :=
  match t with
  | TaskRender =>
      render E fuel ;;
      modify (fun w => MkWorld (root_container w) (root_node w) (root_instance w)
                               (hooks w) (effects_queue w) (document w) false
                               (microtasks w) (invoked w))
  | TaskEffects effectsToRun => modify (flushEffects E effectsToRun)
  end.

(** ** Node constructor *)

(** What an author passes as a child: a leaf (nothing, a boolean, a string,
    a number or a node) or an array of children, nested to any depth. *)
Inductive Leaf : Type :=
| LNull
| LUndefined
| LBool (b : bool)
| LStr (s : string)
| LNum (n : JsNum)
| LNode (n : VNode).

Inductive RawChild : Type :=
| RLeaf (l : Leaf)
| RArr (items : list RawChild).

(** Modelled from the spec: [isEmptyValue] is not among the sources; null,
    undefined and the booleans are the values that render nothing (§6). *)
Definition isEmptyValue (l : Leaf) : bool :=
  match l with
  | LNull | LUndefined | LBool _ => true
  | _ => false
  end.

(** [String(n)], for the integers that a number holds exactly and that
    [String] prints digit by digit: those below 10^21 in absolute value
    (from 10^21 on, [String] switches to the exponent notation, which is
    not modelled). *)
Definition String_of_num (n : JsNum) : string :=
  match n with
  | NaN => "NaN"
  | NegZero => "0"
  | Int z => pretty z
  end.

Definition createTextElement (text : string) : VNode :=
  MkVNode TEXT_ELEMENT None (MkProps (Some []) [("nodeValue", VStr text)]).

Definition normalizeNode (node : Leaf) : option VNode :=
  if isEmptyValue node then None
  else match node with
       | LStr s => Some (createTextElement s)
       | LNum n => Some (createTextElement (String_of_num n))
       | LNode n => Some n
       | _ => None
       end.

(** [(child) => Array.isArray(child) ? flattenChildren(child) : child], with
    the call of [flattenChildren] on a nested array unfolded. *)
Fixpoint flattenChild (child : RawChild) : list Leaf :=
  match child with
  | RLeaf l => [l]
  | RArr items => flat_map flattenChild items
  end.

(** [children.flatMap(...)] *)
Definition flattenChildren (children : list RawChild) : list Leaf :=
  flat_map flattenChild children.

(** The [key] entry of the props an author passes. *)
Inductive KeyProp : Type :=
| KeyMissing
| KeyNull
| KeyString (s : string).

(** The props an author passes: the [key] entry, the [children] entry
    (an array of nodes, the type of [props.children]) and the other
    entries. *)
Record OriginProps : Type := MkOriginProps {
  o_key : KeyProp;
  o_children : option (list VNode);
  o_rest : list (string * JsVal)
}.

(** [finalProps = { ...props }] keeps the [children] entry of the props;
    the children arguments replace it when one of them renders. *)
Definition createElement (type : VType) (originProps : option OriginProps)
    (rawChildren : list RawChild) : VNode :=
  let given := default (MkOriginProps KeyMissing None []) originProps in
  let key := match o_key given with
             | KeyString s => Some s
             | KeyNull | KeyMissing => None
             end in
  let flatChildren := flattenChildren rawChildren in
  let normalizedChildren := omap normalizeNode flatChildren in
  let children := if Nat.ltb 0 (length normalizedChildren)
                  then Some normalizedChildren else o_children given in
  MkVNode type key (MkProps children (o_rest given)).

(** ** Platform adapter: the first widget of an instance *)

Fixpoint getFirstDom_instance (instance : Instance) : option nat :=
  match instance with
  | MkInstance _ dom _ children _ _ =>
      match dom with
      | Some d => Some d
      | None =>
          (fix first (children : list (option Instance)) : option nat :=
             match children with
             | [] => None
             | child :: rest =>
                 match match child with
                       | Some c => getFirstDom_instance c
                       | None => None
                       end with
                 | Some d => Some d
                 | None => first rest
                 end
             end) children
      end
  end.

Definition getFirstDom (instance : option Instance) : option nat :=
  match instance with
  | None => None
  | Some i => getFirstDom_instance i
  end.

Fixpoint getFirstDomFromChildren (children : list (option Instance)) : option nat :=
  match children with
  | [] => None
  | child :: rest =>
      match getFirstDom child with
      | Some d => Some d
      | None => getFirstDomFromChildren rest
      end
  end.

(** ** A small application, used to run the definitions *)

Module Ex.

Definition fns : Fns :=
  MkFns (fun f => if Nat.eqb f 1 then Some "Fancy" else None)
        (fun f => match f with 0 => "Greeting" | 1 => "Panel" | _ => "" end)
        (fun f v => match f, v with
                    | 20, VNum (Int z) => VNum (Int (z + 1))
                    | _, _ => v
                    end)
        (fun f => if Nat.eqb f 10 then Some 11 else None)
        (fun _ key => String.eqb key "value" || String.eqb key "checked").

Definition text (s : string) : VNode :=
  MkVNode TEXT_ELEMENT None (MkProps (Some []) [("nodeValue", VStr s)]).

Definition div (fields : list (string * JsVal)) (children : list VNode) : VNode :=
  MkVNode (Host "div") None (MkProps (Some children) fields).

Definition component (f : nat) : VNode := MkVNode (Fn f) None (MkProps None []).

(** [function Greeting() { useState(0); useEffect(fn10, []); return <div className="greet">hi</div>; }] *)
Definition Greeting (_ : Props) : M (option VNode) :=
  (_ <- useState fns (VNum (Int 0)) ;;
   useEffect 10 (VArr 100 []) ;;
   ret (Some (div [("className", VStr "greet")] [text "hi"])))%M.

(** [function Panel() { return <><Greeting />a</>; }], displayed as Fancy. *)
Definition Panel (_ : Props) : M (option VNode) :=
  ret (Some (MkVNode Fragment None (MkProps (Some [component 0; text "a"]) []))).

Definition env : Env :=
  MkEnv fns (fun f props => match f with
                            | 0 => Greeting props
                            | 1 => Panel props
                            | _ => ret None
                            end).

Definition emptyHooks : Hooks := MkHooks [] ∅ ∅ [].

(** A fresh world: the container is widget 0. *)
Definition world (node : option VNode) : World :=
  MkWorld 0 node None emptyHooks [] (MkDom 1 ∅ ∅ []) false [] [].

(** Reconciling [first] into an empty container and then [second]
    against the instance that came out. *)
Definition twoPasses (first second : VNode) : Res (option Instance * World) :=
  bindM (reconcile env 8 0 None (Some first) "")
        (fun instance => reconcile env 8 0 instance (Some second) "")
        (world None).

(** The children of the root instance after the two passes. *)
Definition childrenAfter (first second : VNode) : list (option Instance) :=
  match twoPasses first second with
  | Ok (Some instance, _) => i_children instance
  | _ => []
  end.

(** A hook store with the slots of two paths, of which the pass has
    visited the second only. *)
Definition gcWorld : World :=
  MkWorld 0 None None
          (MkHooks [("a", [HEffect (MkEffectHook VNull (Some 5) 4); HValue (VNum (Int 1))]);
                    ("b", [HEffect (MkEffectHook VNull (Some 7) 6)])]
                   (<["a" := 2]> {["b" := 1]}) {["b"]} [])
          [] (MkDom 1 ∅ ∅ []) false [] [].

(** The component at path [c] is running with its cursor on slot 0. *)
Definition hookWorld (slots : list Slot) : World :=
  MkWorld 0 None None (MkHooks [("c", slots)] {["c" := 0]} {["c"]} ["c"])
          [] (MkDom 1 ∅ ∅ []) false [] [].

End Ex.

(** ** A component that shows its state *)

Module Counter.

(** [{count}], as a child of an element: the number that the slot holds. *)
Definition shown (slot : Slot) : Leaf :=
  match slot with
  | HValue (VNum n) => LNum n
  | HValue (VStr s) => LStr s
  | _ => LNull
  end.

(** [function Counter() { const [count] = useState(0); return <p>{count}</p>; }] *)
Definition Counter (_ : Props) : M (option VNode) :=
  (r <- useState Ex.fns (VNum (Int 0)) ;;
   ret (Some (createElement (Host "p") None [RLeaf (shown (fst r))])))%M.

Definition env : Env :=
  MkEnv Ex.fns (fun f props => match f with
                               | 0 => Counter props
                               | _ => ret None
                               end).

(** The hook store holds the count [count path] for the counter at every
    path: in its first slot, or not yet, when the count is the initial 0. *)
Definition Inv (count : string -> Z) (w : World) : Prop :=
  forall path,
    match smap_get path (state (hooks w)) with
    | Some slots => slots !! 0 = Some (HValue (VNum (Int (count path))))
    | None => count path = 0%Z
    end.

(** What the components return under that invariant. *)
Definition out (count : string -> Z) (path : string) (f : nat) (_ : Props)
    : option VNode :=
  match f with
  | 0 => Some (createElement (Host "p") None [RLeaf (LNum (Int (count path)))])
  | _ => None
  end.

(** The counter at the root has been set to 5. *)
Definition count (path : string) : Z := if String.eqb path "" then 5%Z else 0%Z.

Definition world : World :=
  MkWorld 0 None None (MkHooks [("", [HValue (VNum (Int 5))])] ∅ ∅ [])
          [] (MkDom 1 ∅ ∅ []) false [] [].

(** The same, with the counter as the root node. *)
Definition app : World :=
  MkWorld 0 (Some (Ex.component 0)) None
          (MkHooks [("", [HValue (VNum (Int 5))])] ∅ ∅ [])
          [] (MkDom 1 ∅ ∅ []) false [] [].

End Counter.

(** ** Definitions that follow the words of the specification *)

(** §4.1: the name of a component is its declared display name, with a
    fixed placeholder when it has none. *)
Definition declaredName (E : Fns) (f : nat) : string :=
  match fn_displayName E f with
  | Some n => if String.eqb n "" then str_or (fn_name E f) "Component" else n
  | None => str_or (fn_name E f) "Component"
  end.

(** §4.1: how many siblings strictly before [index] have the type [t] and
    no explicit key. *)
Definition earlierSameType (t : VType) (siblings : list VNode) (index : nat) : nat :=
  length (List.filter
            (fun j => match siblings !! j with
                      | Some sibling => VType_eqb (v_type sibling) t
                                        && bool_decide (v_key sibling = None)
                      | None => false
                      end)
            (seq 0 index)).

(** §4.1: the three rules of the path assigner. *)
Definition pathRule (E : Fns) (parentPath : string) (key : option string) (index : nat)
    (t : VType) (siblings : list VNode) : string :=
  match key, t with
  | Some k, _ => parentPath +:+ ".k" +:+ k
  | None, Fn f =>
      parentPath +:+ ".c" +:+ declaredName E f +:+ "_"
                 +:+ pretty (earlierSameType t siblings index)
  | None, _ => parentPath +:+ ".i" +:+ pretty index
  end.

(** §4.2: the cleanup procedures of the effect slots of a slot sequence. *)
Definition cleanupsOf (slots : list Slot) : list nat :=
  flat_map (fun hook => match hook with
                        | HEffect e => option_list (cleanup e)
                        | HValue _ => []
                        end) slots.

(** §4.2: the paths of the persisted table that the pass did not visit. *)
Definition unvisitedPaths (w : World) : list string :=
  List.filter (fun path => negb (bool_decide (path ∈ visited (hooks w))))
              (map fst (state (hooks w))).

(** §4.3, as the claim words it: the path of the child at index [i] comes
    from the new child when there is one, and is the path of the old child
    otherwise. *)
Definition pathFromNewElseOld (E : Env) (parentPath : string)
    (oldChildren : list (option Instance)) (newChildren : list VNode) (i : nat) : Prop :=
  match newChildren !! i with
  | Some newChild =>
      childPathAt E parentPath oldChildren newChildren i
      = createChildPath E parentPath (v_key newChild) i (Some (v_type newChild))
                        (Some newChildren)
  | None =>
      exists oldChild,
        mjoin (oldChildren !! i) = Some oldChild
        /\ childPathAt E parentPath oldChildren newChildren i = i_path oldChild
  end.

(** §8, idempotence.  The writes of text that an update pass performs over
    an instance tree: one per text widget, of the text of its node. *)
Fixpoint textWrites (instance : Instance) : list DomOp :=
  match instance with
  | MkInstance _ dom node children _ _ =>
      match v_type node, dom with
      | TEXT_ELEMENT, Some d =>
          [OpSetNodeValue d (or_else (prop (v_props node) "nodeValue") (VStr ""))]
      | TEXT_ELEMENT, None => []
      | _, _ =>
          flat_map (fun child => match child with
                                 | Some c => textWrites c
                                 | None => []
                                 end) children
      end
  end.

(** The props of a node have distinct names, and each value is strictly
    equal to itself (every value but NaN is). *)
Definition selfEqualProps (p : Props) : bool :=
  bool_decide (NoDup (map fst (p_fields p)))
  && forallb (fun kv => strict_eq (snd kv) (snd kv)) (p_fields p).

(** The same, for the node of every host widget of an instance tree. *)
Fixpoint hostPropsSelfEqual (instance : Instance) : bool :=
  match instance with
  | MkInstance _ _ node children _ _ =>
      match v_type node with
      | Host _ => selfEqualProps (v_props node)
      | _ => true
      end
      && forallb (fun child => match child with
                               | Some c => hostPropsSelfEqual c
                               | None => true
                               end) children
  end.

(** §8, idempotence, as the claim words it: the second of two passes over
    the same node performs no operation on any widget. *)
Definition secondPassSilent (E : Env) (node : VNode) : Prop :=
  forall fuel parentDom path w0 instance w1 r w2,
    reconcile E fuel parentDom None (Some node) path w0 = Ok (Some instance, w1) ->
    reconcile E fuel parentDom (Some instance) (Some node) path w1 = Ok (r, w2) ->
    oplog (document w2) = oplog (document w1).

(** What a second pass with fuel [fuel] does on an instance, in any world
    in which the invariant holds: it returns the instance as it is, and
    what it does to the document is to log the text writes of the
    instance. *)
Definition replays (E : Env) (Inv : World -> Prop) (fuel : nat) (instance : Instance)
    (node : VNode) (path : string) : Prop :=
  forall pd w,
    Inv w ->
    exists w2,
      reconcile E fuel pd (Some instance) (Some node) path w = Ok (Some instance, w2)
      /\ document w2 = log_ops (textWrites instance) (document w)
      /\ Inv w2.

(** A procedure that leaves the document alone. *)
Definition keepsDocument {A : Type} (m : M A) : Prop :=
  forall w a w', m w = Ok (a, w') -> document w' = document w.

(** Decimal digits, for the keys under which arrays store their items. *)
Definition is_digit (c : ascii) : bool :=
  let n := nat_of_ascii c in Nat.leb 48 n && Nat.leb n 57.

Definition starts_with_digit (s : string) : bool :=
  match s with
  | String c _ => is_digit c
  | EmptyString => false
  end.

(** Two values have the same shape: the same primitives and functions at
    the leaves, arrays of the same length, objects with the same keys (in
    any order); the identities of the arrays and objects are free. *)
Inductive sameShape : JsVal -> JsVal -> Prop :=
| sameShape_leaf a b :
    Object_is a b = true -> sameShape a b
| sameShape_array i j xs ys :
    Forall2 sameShape xs ys -> sameShape (VArr i xs) (VArr j ys)
| sameShape_object i j fs gs :
    NoDup (map fst fs) ->
    NoDup (map fst gs) ->
    length fs = length gs ->
    (forall key x, (key, x) ∈ fs -> exists y, (key, y) ∈ gs /\ sameShape x y) ->
    sameShape (VObj i fs) (VObj j gs).

(** An operation that writes a property, an attribute, a class, a style or
    a listener of the widget [d]. *)
Definition isWriteOn (d : nat) (op : DomOp) : bool :=
  match op with
  | OpSetStyle d' _ _ | OpSetClassName d' _
  | OpAddEventListener d' _ _ | OpRemoveEventListener d' _ _
  | OpSetProperty d' _ _ | OpSetAttribute d' _ _ | OpRemoveAttribute d' _ =>
      Nat.eqb d' d
  | _ => false
  end.

(** [dom'] is [dom] after some writes on the widget [d]. *)
Definition writtenOn (d : nat) (dom dom' : Dom) : Prop :=
  next_id dom' = next_id dom
  /\ parentNode dom' = parentNode dom
  /\ tagName dom' = tagName dom
  /\ exists ops, oplog dom' = oplog dom ++ ops /\ forallb (isWriteOn d) ops = true.

(** §4.3, Unmount: the platform widgets under an instance, as the parent
    widget sees them.  An instance with a widget of its own (a host or a
    text instance) stands in the parent by that widget; an instance without
    one (a fragment or a component) by the widgets of its children. *)
Inductive topWidget : Instance -> nat -> Prop :=
| topWidget_own instance d :
    i_dom instance = Some d -> topWidget instance d
| topWidget_child instance child d :
    i_dom instance = None ->
    Some child ∈ i_children instance ->
    topWidget child d ->
    topWidget instance d.

(** §8, idempotence: the text widgets of an instance tree, each with the
    text of its node. *)
Inductive textUnder : Instance -> nat -> JsVal -> Prop :=
| textUnder_here instance d :
    v_type (i_node instance) = TEXT_ELEMENT ->
    i_dom instance = Some d ->
    textUnder instance d (or_else (prop (v_props (i_node instance)) "nodeValue") (VStr ""))
| textUnder_child instance child d text :
    v_type (i_node instance) <> TEXT_ELEMENT ->
    Some child ∈ i_children instance ->
    textUnder child d text ->
    textUnder instance d text.

(** Props without a null [style]: the props that [setDomProps] and
    [updateDomProps] apply without failing. *)
Definition noNullStyle (p : Props) : bool :=
  forallb (fun kv => negb (String.eqb (fst kv) "style"
                           && match snd kv with VNull => true | _ => false end))
          (p_fields p).

(** Components whose calls are determined.  [Inv] is an invariant of the
    world (of the hook store: it does not depend on the document); under
    it, the component [f] called at [path] with [props] returns the node
    [out path f props], and the invariant holds again when the call is
    over.  A component that shows a stored state is of this kind for the
    invariant that fixes the state. *)
Definition determinedComponents (E : Env) (Inv : World -> Prop)
    (out : string -> nat -> Props -> option VNode) : Prop :=
  (forall dom w, Inv w -> Inv (with_document dom w))
  /\ (forall f props path w,
        Inv w ->
        exists w',
          fn_component E f props (enterComponent path w) = Ok (out path f props, w')
          /\ Inv (leaveComponent w')).

(** The tree that [node] unfolds into at [path], when every component
    returns what [out] says, is reconciled within the depth [fuel] and
    without a null [style]. *)
Fixpoint expands (E : Fns) (out : string -> nat -> Props -> option VNode)
    (fuel : nat) (node : VNode) (path : string) : bool :=
  match fuel with
  | 0 => false
  | S fuel' =>
      let children := children_or_empty (v_props node) in
      let childrenExpand :=
        forallb (fun i => match children !! i with
                          | Some child =>
                              expands E out fuel' child
                                      (createChildPath E path (v_key child) i
                                                       (Some (v_type child))
                                                       (Some children))
                          | None => true
                          end)
                (seq 0 (length children)) in
      match v_type node with
      | TEXT_ELEMENT => true
      | Host _ => Nat.ltb 0 fuel' && noNullStyle (v_props node) && childrenExpand
      | Fragment => Nat.ltb 0 fuel' && childrenExpand
      | Fn f =>
          match out path f (v_props node) with
          | None => Nat.ltb 0 fuel'
          | Some child =>
              expands E out fuel' child
                      (createChildPath E path None 0 (Some (v_type child))
                                       (Some [child]))
          end
      end
  end.

(** The kind of the instance that [mount] creates for a node of type [t]. *)
Definition kindOf (t : VType) : NodeKind :=
  match t with
  | Host _ => HOST
  | TEXT_ELEMENT => TEXT
  | Fragment => FRAGMENT
  | Fn _ => COMPONENT
  end.

(** A procedure that takes no path out of the set of visited paths. *)
Definition growsVisited {A : Type} (m : M A) : Prop :=
  forall w a w', m w = Ok (a, w') -> visited (hooks w) ⊆ visited (hooks w').

(** * Theorems *)

(** ** Equality utilities *)

Section JsVal_induction.

Variable P : JsVal -> Prop.
Hypothesis Hundef : P VUndefined.
Hypothesis Hnull : P VNull.
Hypothesis Hbool : forall b, P (VBool b).
Hypothesis Hnum : forall n, P (VNum n).
Hypothesis Hstr : forall s, P (VStr s).
Hypothesis Hfun : forall f, P (VFun f).
Hypothesis Harr : forall id items, Forall P items -> P (VArr id items).
Hypothesis Hobj : forall id fields,
    Forall (fun kv => P (snd kv)) fields -> P (VObj id fields).

Fixpoint JsVal_nested_ind (v : JsVal) : P v :=
  match v with
  | VUndefined => Hundef
  | VNull => Hnull
  | VBool b => Hbool b
  | VNum n => Hnum n
  | VStr s => Hstr s
  | VFun f => Hfun f
  | VArr id items =>
      Harr id items
           ((fix all (l : list JsVal) : Forall P l :=
               match l with
               | [] => List.Forall_nil P
               | x :: rest => @List.Forall_cons _ P x rest (JsVal_nested_ind x) (all rest)
               end) items)
  | VObj id fields =>
      Hobj id fields
           ((fix all (l : list (string * JsVal)) : Forall (fun kv => P (snd kv)) l :=
               match l with
               | [] => List.Forall_nil _
               | kv :: rest =>
                   @List.Forall_cons _ (fun kv => P (snd kv)) kv rest
                                     (JsVal_nested_ind (snd kv)) (all rest)
               end) fields)
  end.

End JsVal_induction.

Lemma allR_total {A : Type} (test : A -> Res bool) (l : list A) :
  (forall x, exists t, test x = Ok t) -> exists r, allR test l = Ok r.
Proof.
  intros Htest. induction l as [|x rest IH]; simpl; [eauto|].
  destruct (Htest x) as [t ->]. simpl. destruct t; eauto.
Qed.

(** Reading a property of an object (a non-null value of type object)
    never throws. *)
Lemma get_object_total (v : JsVal) (key : string) :
  is_object_type v = true -> loose_null v = false -> exists x, get v key = Ok x.
Proof.
  destruct v; simpl; try discriminate; intros _ _; eauto.
  destruct (String.eqb key "length"); [eauto|].
  destruct (Array_inherited id key); eauto.
Qed.

Lemma Object_keys_object_total (v : JsVal) :
  is_object_type v = true -> loose_null v = false -> exists ks, Object_keys v = Ok ks.
Proof. destruct v; simpl; try discriminate; eauto. Qed.

(** The guard of step 2, read backwards: past it both values are objects. *)
Lemma past_guard (a b : JsVal) :
  loose_null a || loose_null b || negb (is_object_type a) || negb (is_object_type b) = false ->
  (is_object_type a = true /\ loose_null a = false)
  /\ (is_object_type b = true /\ loose_null b = false).
Proof.
  destruct (loose_null a), (loose_null b), (is_object_type a), (is_object_type b);
    simpl; intros H; try discriminate H; auto.
Qed.

Lemma shallowEquals_never_throws (a b : JsVal) : exists r, shallowEquals a b = Ok r.
Proof.
  unfold shallowEquals.
  destruct (Object_is a b); [eauto|].
  destruct (loose_null a || loose_null b || negb (is_object_type a)
            || negb (is_object_type b)) eqn:Hguard; [eauto|].
  apply past_guard in Hguard as [[Ha Hna] [Hb Hnb]].
  destruct (Array_isArray a && Array_isArray b).
  - destruct (get_object_total a "length" Ha Hna) as [la ->].
    destruct (get_object_total b "length" Hb Hnb) as [lb ->]. simpl.
    destruct (negb (strict_eq la lb)); [eauto|].
    apply allR_total. intros i.
    destruct (get_object_total a (pretty i) Ha Hna) as [x ->].
    destruct (get_object_total b (pretty i) Hb Hnb) as [y ->]. simpl. eauto.
  - destruct (negb (Bool.eqb (Array_isArray a) (Array_isArray b))); [eauto|].
    destruct (Object_keys_object_total a Ha Hna) as [ka ->].
    destruct (Object_keys_object_total b Hb Hnb) as [kb ->]. simpl.
    destruct (negb (Nat.eqb (length ka) (length kb))); [eauto|].
    apply allR_total. intros key.
    destruct (get_object_total a key Ha Hna) as [x ->].
    destruct (get_object_total b key Hb Hnb) as [y ->]. simpl. eauto.
Qed.

Lemma deepItems_total (b : JsVal) (xs : list JsVal) :
  is_object_type b = true -> loose_null b = false ->
  Forall (fun x => forall y, exists r, deepEquals x y = Ok r) xs ->
  forall i, exists r, deepItems deepEquals b i xs = Ok r.
Proof.
  intros Hb Hnb Hxs. induction Hxs as [|x rest Hx _ IH]; intros i; simpl; [eauto|].
  destruct (get_object_total b (pretty i) Hb Hnb) as [y ->]. simpl.
  destruct (Hx y) as [t ->]. simpl. destruct t; eauto.
Qed.

Lemma deepEntries_total (b : JsVal) (fs : list (string * JsVal)) :
  is_object_type b = true -> loose_null b = false ->
  Forall (fun kv => forall y, exists r, deepEquals (snd kv) y = Ok r) fs ->
  exists r, deepEntries deepEquals b fs = Ok r.
Proof.
  intros Hb Hnb Hfs. induction Hfs as [|[key x] rest Hx _ IH]; simpl; [eauto|].
  destruct (get_object_total b key Hb Hnb) as [y ->]. simpl in *.
  destruct (Hx y) as [t ->]. simpl. destruct t; eauto.
Qed.

Lemma deepEquals_never_throws (a b : JsVal) : exists r, deepEquals a b = Ok r.
Proof.
  revert b.
  induction a as [| |x|n|s|f|id items IH|id fields IH] using JsVal_nested_ind;
    intros b;
    try solve [simpl; repeat case_match; eauto].
  - cbn [deepEquals]. destruct (Object_is _ b); [eauto|].
    destruct (loose_null (VArr id items) || loose_null b
              || negb (is_object_type (VArr id items))
              || negb (is_object_type b)) eqn:Hguard; [eauto|].
    apply past_guard in Hguard as [_ [Hb Hnb]].
    destruct (Array_isArray b).
    + destruct (get_object_total b "length" Hb Hnb) as [lb ->]. simpl.
      case_match; [eauto|]. by apply deepItems_total.
    + destruct (Object_keys_object_total b Hb Hnb) as [kb ->]. simpl.
      case_match; [eauto|]. by apply deepItems_total.
  - cbn [deepEquals]. destruct (Object_is _ b); [eauto|].
    destruct (loose_null (VObj id fields) || loose_null b
              || negb (is_object_type (VObj id fields))
              || negb (is_object_type b)) eqn:Hguard; [eauto|].
    apply past_guard in Hguard as [_ [Hb Hnb]].
    destruct (Object_keys_object_total b Hb Hnb) as [kb ->]. simpl.
    case_match; [eauto|]. by apply deepEntries_total.
Qed.

(** Non-identical inputs one of which is null, undefined or not an object
    are not equal, for both comparators. *)
Lemma equals_non_object (a b : JsVal) :
  Object_is a b = false ->
  loose_null a || loose_null b || negb (is_object_type a) || negb (is_object_type b) = true ->
  shallowEquals a b = Ok false /\ deepEquals a b = Ok false.
Proof.
  intros Hne Hguard. split.
  - unfold shallowEquals. by rewrite Hne, Hguard.
  - destruct a; cbn [deepEquals]; by rewrite ?Hne, ?Hguard.
Qed.

(** [shallowEquals] tells an array from a plain object. *)
Lemma shallowEquals_array_object (i j : nat) (items : list JsVal)
    (fields : list (string * JsVal)) :
  shallowEquals (VArr i items) (VObj j fields) = Ok false
  /\ shallowEquals (VObj j fields) (VArr i items) = Ok false.
Proof. split; reflexivity. Qed.

(** C9 (defect of the code).  The claim asks that a type mismatch, also
    between an array and a plain object, makes both comparators answer "not
    equal".  [shallowEquals] does so (step 4); [deepEquals] has no such
    step: it compares the empty array and the empty object by their keys and
    answers "equal". *)
Theorem deepEquals_array_object_equal :
  deepEquals (VArr 1 []) (VObj 2 []) = Ok true
  /\ deepEquals (VArr 1 [VNum (Int 7)]) (VObj 2 [("0", VNum (Int 7))]) = Ok true
  /\ shallowEquals (VArr 1 []) (VObj 2 []) = Ok false.
Proof. repeat split; reflexivity. Qed.

(** ** Path identity assigner *)

Lemma count_before_take {A : Type} (g : A -> bool) (s : list A) (i : nat) :
  length (List.filter g (take i s))
  = length (List.filter (fun j => match s !! j with Some x => g x | None => false end)
                        (seq 0 i)).
Proof.
  induction i as [|i IH]; [by rewrite take_0|].
  rewrite seq_S, List.filter_app, length_app, <- IH. simpl.
  destruct (s !! i) as [x|] eqn:Hi.
  - rewrite (take_S_r _ _ _ Hi), List.filter_app, length_app. simpl.
    by destruct (g x).
  - apply lookup_ge_None in Hi.
    rewrite !take_ge by lia. simpl. lia.
Qed.

Lemma componentName_declared (E : Fns) (f : nat) :
  str_or (default "" (fn_displayName E f)) (str_or (fn_name E f) "Component")
  = declaredName E f.
Proof.
  unfold declaredName, str_or. destruct (fn_displayName E f) as [n|]; simpl; [|done].
  by destruct (String.eqb n "").
Qed.

(** C3.  The path assigner follows the three rules of §4.1: the explicit
    key when there is one; else, for a component function, its declared
    name and the count of earlier siblings of the same type without a key;
    else the sibling index. *)
Theorem createChildPath_follows_rules (E : Fns) (p : string) (k : option string)
    (i : nat) (t : VType) (s : list VNode) :
  createChildPath E p k i (Some t) (Some s) = pathRule E p k i t s.
Proof.
  unfold createChildPath, pathRule.
  destruct k as [key|]; [done|].
  destruct t as [tag| | |f]; try done.
  rewrite componentName_declared. unfold earlierSameType.
  by rewrite count_before_take.
Qed.

(** ** Hook store *)

(** C8.  The reset at the start of a render pass empties the cursors, the
    visited set and the component call stack, and leaves the persisted slot
    table, as everything else, as it was. *)
Theorem resetHooks_keeps_state (E : Env) (fuel : nat) (w : World) :
  cursor (hooks (resetHooks w)) = ∅
  /\ visited (hooks (resetHooks w)) = ∅
  /\ componentStack (hooks (resetHooks w)) = []
  /\ state (hooks (resetHooks w)) = state (hooks w)
  /\ (forall path, smap_get path (state (hooks (resetHooks w)))
                   = smap_get path (state (hooks w)))
  /\ render E fuel w
     = bindM (fun w' => reconcile E fuel (root_container w') (root_instance w')
                                  (root_node w') "" w')
             (fun instance =>
                bindM (modify (with_root_instance instance))
                      (fun _ => bindM (modify cleanupUnusedHooks)
                                      (fun _ => modify scheduleEffects)))
             (resetHooks w).
Proof. repeat split. Qed.

Lemma smap_get_delete (p q : string) (m : SlotTable) :
  smap_get q (smap_delete p m) = if decide (p = q) then None else smap_get q m.
Proof.
  unfold smap_get, smap_delete.
  induction m as [|[k v] rest IH]; simpl; [by case_decide|].
  destruct (String.eqb k p) eqn:Hkp; simpl.
  - apply String.eqb_eq in Hkp as ->. rewrite IH.
    case_decide as Hpq; [done|].
    by apply String.eqb_neq in Hpq as ->.
  - rewrite IH. destruct (String.eqb k q) eqn:Hkq; [|done].
    apply String.eqb_eq in Hkq as ->. apply String.eqb_neq in Hkp.
    by rewrite decide_False by congruence.
Qed.

Lemma smap_get_keys (q : string) (m : SlotTable) :
  is_Some (smap_get q m) <-> q ∈ map fst m.
Proof.
  unfold smap_get. induction m as [|[k v] rest IH]; simpl.
  - split; [by intros [? ?]|by intros ?%elem_of_nil].
  - destruct (String.eqb k q) eqn:Hkq.
    + apply String.eqb_eq in Hkq as ->. split; [intros _; left|eauto].
    + apply String.eqb_neq in Hkq. rewrite IH, elem_of_cons. simpl. intuition congruence.
Qed.

Lemma runCleanups_invoked (slots : list Slot) (w : World) :
  invoked (runCleanups slots w) = invoked w ++ cleanupsOf slots.
Proof.
  unfold runCleanups, cleanupsOf. revert w.
  induction slots as [|hook rest IH]; intros w; simpl; [by rewrite app_nil_r|].
  rewrite IH. destruct hook as [v|e]; [done|].
  destruct (cleanup e); simpl; [|done]. by rewrite <- app_assoc.
Qed.

(** Running cleanups touches nothing but the record of calls. *)
Lemma runCleanups_frame (slots : list Slot) (w : World) :
  hooks (runCleanups slots w) = hooks w
  /\ effects_queue (runCleanups slots w) = effects_queue w
  /\ document (runCleanups slots w) = document w
  /\ microtasks (runCleanups slots w) = microtasks w
  /\ renderScheduled (runCleanups slots w) = renderScheduled w.
Proof.
  unfold runCleanups. revert w.
  induction slots as [|hook rest IH]; intros w; simpl; [done|].
  destruct (IH (match hook with
                | HValue _ => w
                | HEffect e => match cleanup e with Some c => invoke c w | None => w end
                end)) as (-> & -> & -> & -> & ->).
  destruct hook as [v|e]; [done|]. by destruct (cleanup e).
Qed.

Lemma dropPath_state (w : World) (path : string) :
  state (hooks (dropPath w path)) = smap_delete path (state (hooks w))
  /\ cursor (hooks (dropPath w path)) = delete path (cursor (hooks w))
  /\ visited (hooks (dropPath w path)) = visited (hooks w)
  /\ invoked (dropPath w path)
     = invoked w ++ cleanupsOf (default [] (smap_get path (state (hooks w)))).
Proof.
  unfold dropPath. destruct (smap_get path (state (hooks w))) as [slots|]; simpl.
  - destruct (runCleanups_frame slots w) as (-> & _).
    by rewrite runCleanups_invoked.
  - by rewrite app_nil_r.
Qed.

Lemma flat_map_ext_elem {A B : Type} (f g : A -> list B) (l : list A) :
  (forall x, x ∈ l -> f x = g x) -> flat_map f l = flat_map g l.
Proof.
  induction l as [|x rest IH]; intros Hfg; simpl; [done|].
  rewrite Hfg by left. f_equal. apply IH. intros y Hy. apply Hfg. by right.
Qed.

Lemma dropPaths_spec (ps : list string) (w : World) :
  NoDup ps ->
  let w' := fold_left dropPath ps w in
  invoked w'
  = invoked w ++ flat_map (fun p => cleanupsOf (default [] (smap_get p (state (hooks w))))) ps
  /\ visited (hooks w') = visited (hooks w)
  /\ (forall q, q ∈ ps ->
        smap_get q (state (hooks w')) = None /\ cursor (hooks w') !! q = None)
  /\ (forall q, q ∉ ps ->
        smap_get q (state (hooks w')) = smap_get q (state (hooks w))
        /\ cursor (hooks w') !! q = cursor (hooks w) !! q).
Proof.
  intros Hnd. revert w. induction Hnd as [|p ps Hp Hnd IH]; intros w; simpl.
  - rewrite app_nil_r. split; [done|]. split; [done|].
    split; [by intros q ?%elem_of_nil|done].
  - destruct (dropPath_state w p) as (Hst & Hcur & Hvis & Hinv).
    destruct (IH (dropPath w p)) as (IHinv & IHvis & IHin & IHout).
    assert (Hother : forall q, q ≠ p ->
               smap_get q (state (hooks (dropPath w p))) = smap_get q (state (hooks w))
               /\ cursor (hooks (dropPath w p)) !! q = cursor (hooks w) !! q).
    { intros q Hq. rewrite Hst, Hcur, smap_get_delete, lookup_delete_ne by done.
      by rewrite decide_False by done. }
    split; [|split; [|split]].
    + rewrite IHinv, Hinv, <- app_assoc. f_equal. f_equal.
      apply flat_map_ext_elem. intros q Hq.
      destruct (Hother q) as [-> _]; [|done]. by intros ->.
    + by rewrite IHvis.
    + intros q Hq.
      destruct (decide (q ∈ ps)) as [Hin|Hout]; [by apply IHin|].
      assert (q = p) as -> by (by apply elem_of_cons in Hq as [|]).
      destruct (IHout p Hout) as [-> ->].
      rewrite Hst, Hcur, smap_get_delete, decide_True by done.
      split; [done|apply lookup_delete_eq].
    + intros q [Hqp Hq]%not_elem_of_cons.
      destruct (IHout q Hq) as [-> ->]. by apply Hother.
Qed.

Lemma unvisitedPaths_elem (w : World) (path : string) :
  path ∈ unvisitedPaths w
  <-> is_Some (smap_get path (state (hooks w))) /\ path ∉ visited (hooks w).
Proof.
  unfold unvisitedPaths.
  rewrite list_elem_of_In, List.filter_In, <- list_elem_of_In, smap_get_keys.
  rewrite negb_true_iff, bool_decide_eq_false. done.
Qed.

(** C4.  After a pass, for every path of the persisted table that was not
    visited, the cleanups of its effect slots are called, in table order,
    and its slot sequence and cursor are deleted; visited paths keep their
    slots and cursors. *)
Theorem cleanupUnusedHooks_collects (w : World) :
  NoDup (map fst (state (hooks w))) ->
  let w' := cleanupUnusedHooks w in
  invoked w'
  = invoked w
    ++ flat_map (fun path => cleanupsOf (default [] (smap_get path (state (hooks w)))))
                (unvisitedPaths w)
  /\ (forall path slots,
        smap_get path (state (hooks w)) = Some slots ->
        path ∉ visited (hooks w) ->
        smap_get path (state (hooks w')) = None /\ cursor (hooks w') !! path = None)
  /\ (forall path,
        path ∈ visited (hooks w) ->
        smap_get path (state (hooks w')) = smap_get path (state (hooks w))
        /\ cursor (hooks w') !! path = cursor (hooks w) !! path)
  /\ visited (hooks w') = visited (hooks w).
Proof.
  intros Hnd w'.
  assert (Hnd' : NoDup (unvisitedPaths w)).
  { unfold unvisitedPaths. apply NoDup_ListNoDup, List.NoDup_filter.
    by apply NoDup_ListNoDup. }
  destruct (dropPaths_spec (unvisitedPaths w) w Hnd') as (Hinv & Hvis & Hin & Hout).
  split; [done|]. split; [|split; [|done]].
  - intros path slots Hslots Hpath. apply Hin, unvisitedPaths_elem. eauto.
  - intros path Hpath. apply Hout. rewrite unvisitedPaths_elem. tauto.
Qed.

Lemma smap_get_set (k q : string) (v : list Slot) (m : SlotTable) :
  smap_get q (smap_set k v m) = if decide (k = q) then Some v else smap_get q m.
Proof.
  unfold smap_get. induction m as [|[k' v'] rest IH]; simpl.
  - case_decide as Hkq.
    + subst. by rewrite String.eqb_refl.
    + by apply String.eqb_neq in Hkq as ->.
  - destruct (String.eqb k' k) eqn:Hk; simpl.
    + apply String.eqb_eq in Hk as ->. case_decide as Hkq.
      * subst. by rewrite String.eqb_refl.
      * by apply String.eqb_neq in Hkq as ->.
    + rewrite IH. destruct (String.eqb k' q) eqn:Hq; [|done].
      apply String.eqb_eq in Hq as ->. apply String.eqb_neq in Hk.
      by rewrite decide_False by congruence.
Qed.

Lemma smap_set_id (k : string) (v : list Slot) (m : SlotTable) :
  smap_get k m = Some v -> smap_set k v m = m.
Proof.
  unfold smap_get. induction m as [|[k' v'] rest IH]; simpl; [done|].
  destruct (String.eqb k' k) eqn:Hk.
  - apply String.eqb_eq in Hk as ->. by intros [= ->].
  - intros H. by rewrite IH.
Qed.

Lemma write_at_lookup (arr : list Slot) (i : nat) (x : Slot) :
  write_at arr i x !! i = Some x.
Proof.
  unfold write_at. destruct (Nat.ltb i (length arr)) eqn:Hi.
  - apply Nat.ltb_lt in Hi. by apply list_lookup_insert_eq.
  - apply Nat.ltb_ge in Hi.
    rewrite lookup_app_r by done.
    rewrite lookup_app_r by (rewrite length_replicate; lia).
    rewrite length_replicate. by replace (i - length arr - (i - length arr)) with 0 by lia.
Qed.

Lemma write_at_present (arr : list Slot) (i : nat) (x y : Slot) :
  arr !! i = Some y -> write_at arr i x = <[i := x]> arr.
Proof.
  intros H%lookup_lt_Some. unfold write_at.
  by apply Nat.ltb_lt in H as ->.
Qed.

Lemma write_slot_state (path : string) (i : nat) (x : Slot) (w : World)
    (slots : list Slot) :
  smap_get path (state (hooks w)) = Some slots ->
  state (hooks (write_slot path i x w)) = smap_set path (write_at slots i x) (state (hooks w))
  /\ cursor (hooks (write_slot path i x w)) = cursor (hooks w)
  /\ effects_queue (write_slot path i x w) = effects_queue w
  /\ invoked (write_slot path i x w) = invoked w
  /\ renderScheduled (write_slot path i x w) = renderScheduled w
  /\ microtasks (write_slot path i x w) = microtasks w.
Proof. intros H. unfold write_slot. by rewrite H. Qed.

(** C10.  The setter of a state slot: a next value (or the result of an
    updater) that is [Object.is]-equal to the stored value changes nothing
    and requests no render; any other value is written into the slot and a
    render is requested. *)
Theorem setState_bails_out_or_schedules (E : Fns) (path : string) (cur : nat)
    (nextValue : JsVal) (w : World) (slots : list Slot) (v : JsVal) :
  smap_get path (state (hooks w)) = Some slots ->
  slots !! cur = Some (HValue v) ->
  let newValue := match nextValue with
                  | VFun f => fn_apply E f v
                  | _ => nextValue
                  end in
  (Object_is v newValue = true -> setState E path cur nextValue w = w)
  /\ (Object_is v newValue = false ->
        let w' := setState E path cur nextValue w in
        w' = enqueueRender (write_slot path cur (HValue newValue) w)
        /\ smap_get path (state (hooks w')) = Some (<[cur := HValue newValue]> slots)
        /\ (forall q, q ≠ path ->
              smap_get q (state (hooks w')) = smap_get q (state (hooks w)))
        /\ renderScheduled w' = true
        /\ (renderScheduled w = false -> microtasks w' = microtasks w ++ [TaskRender])).
Proof.
  intros Hslots Hcur newValue. unfold setState. rewrite Hslots. simpl. rewrite Hcur.
  fold newValue. split; intros Hsame; rewrite Hsame; [done|]. simpl.
  destruct (write_slot_state path cur (HValue newValue) w slots Hslots)
    as (Hst & _ & _ & _ & Hsched & Htasks).
  assert (Hstate : state (hooks (enqueueRender (write_slot path cur (HValue newValue) w)))
                   = smap_set path (<[cur := HValue newValue]> slots) (state (hooks w))).
  { rewrite <- (write_at_present slots cur _ _ Hcur), <- Hst.
    unfold enqueueRender. by destruct (renderScheduled _). }
  split; [done|]. split; [|split; [|split]].
  - rewrite Hstate, smap_get_set. by rewrite decide_True.
  - intros q Hq. rewrite Hstate, smap_get_set. by rewrite decide_False.
  - unfold enqueueRender. by destruct (renderScheduled _) eqn:Hs.
  - intros Hns. unfold enqueueRender. rewrite Hsched, Hns. simpl. by rewrite Htasks.
Qed.

Lemma strict_eq_undefined (v : JsVal) :
  strict_eq v VUndefined = true <-> v = VUndefined.
Proof. destruct v; simpl; split; (done || discriminate). Qed.

(** The world in which the body of a hook runs, once [currentHooks] has
    made sure that the path has a slot sequence. *)
Lemma currentHooks_spec (path : string) (w : World) :
  exists w1,
    currentHooks path w = Ok (default [] (smap_get path (state (hooks w))), w1)
    /\ smap_get path (state (hooks w1)) = Some (default [] (smap_get path (state (hooks w))))
    /\ (is_Some (smap_get path (state (hooks w))) -> w1 = w)
    /\ cursor (hooks w1) = cursor (hooks w)
    /\ effects_queue w1 = effects_queue w.
Proof.
  unfold currentHooks. destruct (smap_get path (state (hooks w))) as [slots|] eqn:Hget.
  - exists w. by rewrite Hget.
  - eexists. split; [done|]. simpl. rewrite smap_get_set, decide_True by done.
    repeat split; try done.
Qed.

(** C5.  [useEffect] at the slot under the cursor.  On the first render of
    the slot, when [deps] is undefined, or when [deps] is not shallow-equal
    to the stored deps, the slot becomes a new effect slot that carries the
    previous cleanup, and [(path, cursor)] is put on the effect queue.  When
    [deps] is shallow-equal to the stored deps the slot table and the queue
    stay as they are.  The cursor moves on by one in both cases. *)
Theorem useEffect_gates_on_deps (eff : nat) (depList : JsVal) (w : World)
    (path : string) :
  last (componentStack (hooks w)) = Some path ->
  let cur := default 0 (cursor (hooks w) !! path) in
  let slots := default [] (smap_get path (state (hooks w))) in
  let prev := as_EffectHook (slot_at slots cur) in
  (prev = None \/ depList = VUndefined
   \/ (exists old, prev = Some old /\ shallowEquals (deps old) depList = Ok false) ->
   exists w',
     useEffect eff depList w = Ok (tt, w')
     /\ smap_get path (state (hooks w')) ≫= (fun s => s !! cur)
        = Some (HEffect (MkEffectHook (if Array_isArray depList then depList else VNull)
                                      (prev ≫= cleanup) eff))
     /\ effects_queue w' = effects_queue w ++ [(path, cur)]
     /\ cursor (hooks w') !! path = Some (cur + 1))
  /\ (forall old,
        prev = Some old -> depList ≠ VUndefined ->
        shallowEquals (deps old) depList = Ok true ->
        exists w',
          useEffect eff depList w = Ok (tt, w')
          /\ state (hooks w') = state (hooks w)
          /\ effects_queue w' = effects_queue w
          /\ cursor (hooks w') !! path = Some (cur + 1)).
Proof.
  intros Hlast cur slots prev.
  destruct (currentHooks_spec path w) as (w1 & Hcall & Hget1 & Hsame & Hcur1 & Hq1).
  fold slots in Hcall, Hget1.
  set (newSlot := HEffect (MkEffectHook (if Array_isArray depList then depList else VNull)
                                       (prev ≫= cleanup) eff)).
  set (after := fun changed : bool =>
         if changed
         then with_queue (effects_queue (write_slot path cur newSlot w1) ++ [(path, cur)])
                         (write_slot path cur newSlot w1)
         else match prev with
              | Some old => write_slot path cur (HEffect old) w1
              | None => w1
              end).
  assert (Hrun : forall changed : bool,
             match prev with
             | None => ret true
             | Some old =>
                 if strict_eq depList VUndefined then ret true
                 else bindM (liftR (shallowEquals (deps old) depList))
                            (fun same => ret (negb same))
             end w1 = Ok (changed, w1) ->
             exists w',
               useEffect eff depList w = Ok (tt, w')
               /\ w' = with_cursor (<[path := cur + 1]> (cursor (hooks (after changed))))
                                   (after changed)).
  { intros changed Hchanged. eexists. split; [|reflexivity].
    unfold useEffect, bindM at 1, currentPath. rewrite Hlast.
    unfold bindM at 1, currentCursor, gets. fold cur.
    unfold bindM at 1. rewrite Hcall. fold prev.
    unfold bindM at 1. rewrite Hchanged.
    clear Hchanged. subst after newSlot. destruct changed; [reflexivity|].
    subst prev. by destruct (as_EffectHook _). }
  split.
  - intros Hchanged.
    destruct (Hrun true) as (w' & Huse & ->).
    { destruct prev as [old|]; [|done].
      destruct (strict_eq depList VUndefined) eqn:Hundef; [done|].
      destruct Hchanged as [?|[->|(old' & [= <-] & Hne)]]; [done|done|].
      unfold bindM, liftR. by rewrite Hne. }
    eexists; split; [exact Huse|].
    destruct (write_slot_state path cur newSlot w1 slots Hget1) as (Hst & Hc & Hq & _).
    simpl. rewrite Hst, smap_get_set, decide_True by done. simpl.
    rewrite write_at_lookup, Hq, Hq1, lookup_insert_eq. done.
  - intros old Hprev Hdef Heq.
    destruct (Hrun false) as (w' & Huse & ->).
    { rewrite Hprev. destruct (strict_eq depList VUndefined) eqn:Hundef.
      - by apply strict_eq_undefined in Hundef.
      - unfold bindM, liftR. by rewrite Heq. }
    eexists; split; [exact Huse|]. subst after. cbv beta iota. rewrite Hprev.
    assert (Hslot : slots !! cur = Some (HEffect old)).
    { unfold prev, slot_at in Hprev. destruct (slots !! cur) as [[v|e]|]; try done.
      simpl in Hprev. congruence. }
    assert (Hsome : is_Some (smap_get path (state (hooks w)))).
    { unfold slots in Hslot. destruct (smap_get path (state (hooks w))); [eauto|].
      by destruct cur. }
    rewrite (Hsame Hsome) in *.
    destruct (write_slot_state path cur (HEffect old) w slots Hget1)
      as (Hst & Hc & Hq & _).
    simpl. rewrite Hst, Hq, lookup_insert_eq.
    rewrite (write_at_present slots cur _ _ Hslot), list_insert_id by done.
    by rewrite smap_set_id.
Qed.

(** ** Render scheduler *)

Lemma scheduleEffects_snapshot (w : World) :
  effects_queue (scheduleEffects w) = []
  /\ microtasks (scheduleEffects w)
     = microtasks w ++ match effects_queue w with
                       | [] => []
                       | _ :: _ => [TaskEffects (effects_queue w)]
                       end
  /\ hooks (scheduleEffects w) = hooks w
  /\ scheduleEffects (scheduleEffects w) = scheduleEffects w.
Proof.
  unfold scheduleEffects. destruct (effects_queue w) as [|entry rest] eqn:Hq; simpl.
  - rewrite app_nil_r. repeat split.
  - done.
Qed.

Lemma render_ends_with_schedule (E : Env) (fuel : nat) (w w' : World) :
  render E fuel w = Ok (tt, w') -> exists w2, w' = scheduleEffects w2.
Proof.
  unfold render, bindM, modify.
  destruct (reconcile E fuel _ _ _ _ _) as [[instance w2]| |]; [|done|done].
  intros [= <-]. eauto.
Qed.

Lemma runEffect_live (E : Fns) (w : World) (path : string) (cur : nat)
    (slots : list Slot) (hook : EffectHook) :
  smap_get path (state (hooks w)) = Some slots ->
  slots !! cur = Some (HEffect hook) ->
  let w' := runEffect E w (path, cur) in
  invoked w' = invoked w ++ option_list (cleanup hook) ++ [effect hook]
  /\ smap_get path (state (hooks w'))
     = Some (<[cur := HEffect (MkEffectHook (deps hook)
                                            (effect_returns E (effect hook))
                                            (effect hook))]> slots)
  /\ (forall q, q ≠ path -> smap_get q (state (hooks w')) = smap_get q (state (hooks w))).
Proof.
  intros Hslots Hcur. unfold runEffect. rewrite Hslots, Hcur.
  set (w2 := invoke (effect hook) match cleanup hook with
                                  | Some c => invoke c w
                                  | None => w
                                  end).
  assert (Hh : hooks w2 = hooks w) by (subst w2; by destruct (cleanup hook)).
  assert (Hi : invoked w2 = invoked w ++ option_list (cleanup hook) ++ [effect hook]).
  { subst w2. destruct (cleanup hook); simpl; [|done]. by rewrite <- app_assoc. }
  assert (Hslots2 : smap_get path (state (hooks w2)) = Some slots) by by rewrite Hh.
  destruct (write_slot_state path cur
              (HEffect (MkEffectHook (deps hook) (effect_returns E (effect hook))
                                     (effect hook))) w2 slots Hslots2)
    as (Hst & _ & _ & Hinv & _).
  simpl. rewrite Hst, Hinv, Hi, Hh, (write_at_present slots cur _ _ Hcur).
  split; [done|]. split.
  - rewrite smap_get_set. by rewrite decide_True.
  - intros q Hq. rewrite smap_get_set. by rewrite decide_False.
Qed.

Lemma runEffect_stale (E : Fns) (w : World) (path : string) (cur : nat) :
  smap_get path (state (hooks w)) ≫= (fun slots => slots !! cur) = None ->
  runEffect E w (path, cur) = w.
Proof.
  unfold runEffect. destruct (smap_get path (state (hooks w))) as [slots|]; simpl; [|done].
  by intros ->.
Qed.

(** The collection calls cleanups and edits the hook store; it touches
    neither the effect queue nor the deferred tasks nor the document. *)
Lemma dropPaths_frame (ps : list string) (w : World) :
  effects_queue (fold_left dropPath ps w) = effects_queue w
  /\ microtasks (fold_left dropPath ps w) = microtasks w
  /\ document (fold_left dropPath ps w) = document w
  /\ root_instance (fold_left dropPath ps w) = root_instance w.
Proof.
  revert w. induction ps as [|p ps IH]; intros w; simpl; [done|].
  destruct (IH (dropPath w p)) as (-> & -> & -> & ->).
  unfold dropPath. destruct (smap_get p (state (hooks w))) as [slots|]; simpl; [|done].
  destruct (runCleanups_frame slots w) as (_ & -> & -> & -> & _).
  repeat split. unfold runCleanups. clear. revert w.
  induction slots as [|hook rest IH]; intros w; simpl; [done|].
  rewrite IH. destruct hook as [v|e]; [done|]. by destruct (cleanup e).
Qed.

Lemma flushEffects_queue (E : Fns) (entries : list (string * nat)) (w : World) :
  effects_queue (flushEffects E entries w) = effects_queue w
  /\ microtasks (flushEffects E entries w) = microtasks w.
Proof.
  unfold flushEffects. revert w. induction entries as [|[path cur] rest IH]; intros w;
    cbn [fold_left]; [done|].
  destruct (IH (runEffect E w (path, cur))) as [-> ->].
  unfold runEffect. destruct (smap_get path (state (hooks w))) as [slots|] eqn:Hslots;
    [|done].
  destruct (slots !! cur) as [[v|hook]|]; [done| |done].
  set (w2 := invoke (effect hook) match cleanup hook with
                                  | Some c => invoke c w
                                  | None => w
                                  end).
  assert (Hh : hooks w2 = hooks w /\ effects_queue w2 = effects_queue w
               /\ microtasks w2 = microtasks w)
    by (subst w2; by destruct (cleanup hook)).
  destruct Hh as (Hh & <- & <-).
  assert (Hslots2 : smap_get path (state (hooks w2)) = Some slots) by by rewrite Hh.
  destruct (write_slot_state path cur
              (HEffect (MkEffectHook (deps hook) (effect_returns E (effect hook))
                                     (effect hook))) w2 slots Hslots2)
    as (_ & _ & Hq & _ & _ & Ht).
  by split.
Qed.

(** ** Reconciler *)

Lemma VType_eqb_eq (t1 t2 : VType) : VType_eqb t1 t2 = true <-> t1 = t2.
Proof.
  destruct t1, t2; simpl; split; try done; try discriminate.
  - by intros ->%String.eqb_eq.
  - intros [= ->]. apply String.eqb_refl.
  - by intros ->%Nat.eqb_eq.
  - intros [= ->]. apply Nat.eqb_refl.
Qed.

Lemma key_eqb_eq (k1 k2 : option string) : key_eqb k1 k2 = true <-> k1 = k2.
Proof.
  destruct k1, k2; simpl; split; try done; try discriminate.
  - by intros ->%String.eqb_eq.
  - intros [= ->]. apply String.eqb_refl.
Qed.

(** Removing widgets only ever erases parent links. *)
Lemma remove_nodes_parent (pd : nat) (nodes : list nat) (dom : Dom) :
  let dom' := fold_left (fun dom node =>
                           if bool_decide (parentNode dom !! node = Some pd)
                           then removeChild pd node dom else dom) nodes dom in
  (forall d, parentNode dom' !! d = Some pd -> parentNode dom !! d = Some pd)
  /\ (forall d, d ∈ nodes -> parentNode dom' !! d ≠ Some pd)
  /\ (forall d, d ∉ nodes -> parentNode dom' !! d = parentNode dom !! d)
  /\ next_id dom' = next_id dom.
Proof.
  revert dom. induction nodes as [|node rest IH]; intros dom; simpl.
  - split; [done|]. split; [by intros d ?%elem_of_nil|done].
  - set (dom1 := if bool_decide (parentNode dom !! node = Some pd)
                 then removeChild pd node dom else dom).
    destruct (IH dom1) as (Hmono & Hin & Hout & Hnext).
    assert (Hstep : forall d, parentNode dom1 !! d = Some pd ->
                              parentNode dom !! d = Some pd /\ d ≠ node).
    { intros d. subst dom1. case_bool_decide as Hp; simpl.
      - rewrite lookup_delete. case_decide; [done|]. by intros ->.
      - intros Hd. split; [done|]. by intros ->. }
    split; [|split; [|split]].
    + intros d Hd. by apply Hstep, Hmono.
    + intros d [->|Hd]%elem_of_cons; [|by apply Hin].
      intros Hd%Hmono%Hstep. by destruct Hd.
    + intros d [Hne Hd]%not_elem_of_cons. rewrite (Hout d Hd).
      subst dom1. case_bool_decide; simpl; [|done]. by rewrite lookup_delete_ne.
    + rewrite Hnext. subst dom1. by case_bool_decide.
Qed.

(** The loop of [reconcileChildren] makes one call of [reconcile] per
    index, in order, each on the world the previous one left. *)
Lemma reconcileChildren_loop_steps (E : Env)
    (rec : nat -> option Instance -> option VNode -> string -> M (option Instance))
    (pd : nat) (pp : string) (olds : list (option Instance)) (news : list VNode)
    (indices : list nat) :
  forall acc w insts w',
    reconcileChildren_loop E rec pd pp olds news indices acc w = Ok (insts, w') ->
    exists tail ws,
      insts = acc ++ tail
      /\ length tail = length indices
      /\ length ws = S (length indices)
      /\ ws !! 0 = Some w
      /\ ws !! length indices = Some w'
      /\ forall k i, indices !! k = Some i ->
           exists wk wk' inst,
             ws !! k = Some wk /\ ws !! S k = Some wk' /\ tail !! k = Some inst
             /\ rec pd (mjoin (olds !! i)) (news !! i) (childPathAt E pp olds news i) wk
                = Ok (inst, wk').
Proof.
  induction indices as [|i rest IH]; intros acc w insts w'; simpl.
  - intros [= <- <-]. exists [], [w]. rewrite app_nil_r. repeat split; try done.
  - unfold bindM at 1.
    destruct (rec pd _ _ _ w) as [[inst w1]| |] eqn:Hcall; [|done|done].
    intros (tail & ws & -> & Hlen & Hws & Hfirst & Hlast & Hsteps)%IH.
    exists (inst :: tail), (w :: ws). rewrite <- app_assoc. simpl.
    repeat split; try done; try congruence.
    intros [|k] j Hk; simpl in *.
    + injection Hk as <-. exists w, w1, inst. by rewrite Hfirst.
    + destruct (Hsteps k j Hk) as (wk & wk' & instk & ? & ? & ? & ?). eauto 10.
Qed.

Lemma childPathAt_rules (E : Env) (pp : string) (olds : list (option Instance))
    (news : list VNode) (i : nat) :
  (forall newChild,
      news !! i = Some newChild ->
      childPathAt E pp olds news i
      = createChildPath E pp (v_key newChild) i (Some (v_type newChild)) (Some news))
  /\ (forall oldChild,
        news !! i = None -> olds !! i = Some (Some oldChild) -> i_path oldChild ≠ "" ->
        childPathAt E pp olds news i = i_path oldChild)
  /\ (news !! i = None ->
      mjoin (olds !! i) = None
      \/ (exists oldChild, olds !! i = Some (Some oldChild) /\ i_path oldChild = "") ->
      childPathAt E pp olds news i = pp +:+ ".i" +:+ pretty i).
Proof.
  unfold childPathAt. split; [|split].
  - by intros newChild ->.
  - intros oldChild -> -> Hne. simpl. unfold str_or.
    by apply String.eqb_neq in Hne as ->.
  - intros -> [->|(oldChild & -> & Hp)]; [done|]. simpl. by rewrite Hp.
Qed.

(** C2, amended.  Children are reconciled pairwise by index, for every
    index below the larger of the two lengths, in order.  The path of the
    child at an index comes from the new child when there is one; otherwise
    it is the path of the old child when an old child with a non-empty path
    is present at the index, and the parent path followed by [.i] and the
    index when there is none. *)
Theorem reconcileChildren_pairs_by_index (E : Env)
    (rec : nat -> option Instance -> option VNode -> string -> M (option Instance))
    (parentDom : nat) (parentInstance : Instance) (newChildren : list VNode)
    (w w' : World) (newInstances : list (option Instance)) :
  reconcileChildren E rec parentDom parentInstance newChildren w = Ok (newInstances, w') ->
  let oldChildren := i_children parentInstance in
  let maxLength := Nat.max (length oldChildren) (length newChildren) in
  let childPath := childPathAt E (i_path parentInstance) oldChildren newChildren in
  length newInstances = maxLength
  /\ (exists ws,
        length ws = S maxLength /\ ws !! 0 = Some w /\ ws !! maxLength = Some w'
        /\ forall i, i < maxLength ->
             exists wi wi' instance,
               ws !! i = Some wi /\ ws !! S i = Some wi'
               /\ newInstances !! i = Some instance
               /\ rec parentDom (mjoin (oldChildren !! i)) (newChildren !! i)
                      (childPath i) wi
                  = Ok (instance, wi'))
  /\ (forall i,
        (forall newChild,
            newChildren !! i = Some newChild ->
            childPath i
            = createChildPath E (i_path parentInstance) (v_key newChild) i
                              (Some (v_type newChild)) (Some newChildren))
        /\ (forall oldChild,
              newChildren !! i = None -> oldChildren !! i = Some (Some oldChild) ->
              i_path oldChild ≠ "" ->
              childPath i = i_path oldChild)
        /\ (newChildren !! i = None ->
            mjoin (oldChildren !! i) = None
            \/ (exists oldChild, oldChildren !! i = Some (Some oldChild)
                                 /\ i_path oldChild = "") ->
            childPath i = i_path parentInstance +:+ ".i" +:+ pretty i)).
Proof.
  intros Hrun oldChildren maxLength childPath. unfold reconcileChildren in Hrun.
  apply reconcileChildren_loop_steps in Hrun
    as (tail & ws & -> & Hlen & Hws & Hfirst & Hlast & Hsteps).
  rewrite length_seq in Hlen, Hws, Hlast. fold oldChildren maxLength in Hlen, Hws, Hlast.
  split; [done|]. split.
  - exists ws. repeat split; try done.
    intros i Hi. apply (Hsteps i i). by apply lookup_seq.
  - intros i. apply childPathAt_rules.
Qed.

(** C2, counterexample.  After a list of two children has shrunk to one,
    the children of the instance are an instance and a hole.  On the next
    pass with one new child, index 1 lies below the larger length but there
    is neither a new child nor an old child there: the path is the
    positional fall-back, not the path of an old child. *)
Lemma reconcileChildren_path_without_old_child :
  let oldChildren :=
    Ex.childrenAfter (Ex.div [] [Ex.text "a"; Ex.text "b"]) (Ex.div [] [Ex.text "a"]) in
  let newChildren := [Ex.text "a"] in
  oldChildren !! 1 = Some None
  /\ childPathAt Ex.env "" oldChildren newChildren 1 = ".i1"
  /\ ~ (forall i, i < Nat.max (length oldChildren) (length newChildren) ->
                  pathFromNewElseOld Ex.env "" oldChildren newChildren i).
Proof.
  split; [by vm_compute|]. split; [by vm_compute|].
  intros Hclaim. specialize (Hclaim 1).
  unfold pathFromNewElseOld in Hclaim.
  destruct Hclaim as (oldChild & Hold & _); [vm_compute; lia|].
  vm_compute in Hold. discriminate Hold.
Qed.

(** ** Running the state monad *)

Lemma bindM_Ok {A B : Type} (m : M A) (k : A -> M B) (w w' : World) (b : B) :
  bindM m k w = Ok (b, w') ->
  exists a w1, m w = Ok (a, w1) /\ k a w1 = Ok (b, w').
Proof.
  unfold bindM. destruct (m w) as [[a w1]| |]; [|done|done]. eauto.
Qed.

Lemma modify_Ok (f : World -> World) (w w' : World) (u : unit) :
  modify f w = Ok (u, w') -> w' = f w.
Proof. by intros [= _ <-]. Qed.

Lemma ret_Ok {A : Type} (a b : A) (w w' : World) :
  ret a w = Ok (b, w') -> b = a /\ w' = w.
Proof. by intros [= <- <-]. Qed.

Lemma log_ops_nil (d : Dom) : log_ops [] d = d.
Proof. destruct d. unfold log_ops. simpl. by rewrite app_nil_r. Qed.

Lemma log_ops_app (a b : list DomOp) (d : Dom) :
  log_ops b (log_ops a d) = log_ops (a ++ b) d.
Proof. unfold log_ops. simpl. by rewrite app_assoc. Qed.

Ltac run_bind H :=
  let a := fresh "a" in
  let w := fresh "w" in
  let Hstep := fresh "Hstep" in
  apply bindM_Ok in H as (a & w & Hstep & H).

(** Mounting always yields an instance. *)
Lemma reconcile_mount_inv (E : Env) (fuel : nat) (pd : nat) (node : VNode)
    (path : string) (w w' : World) (r : option Instance) :
  reconcile E fuel pd None (Some node) path w = Ok (r, w') ->
  exists fuel' i,
    fuel = S fuel' /\ r = Some i
    /\ mount E (reconcile E fuel') pd node path w = Ok (i, w').
Proof.
  destruct fuel as [|fuel']; [done|]. simpl. unfold reconcile_body. intros H.
  run_bind H. apply ret_Ok in H as [-> ->]. eauto.
Qed.

Lemma assoc_get_NoDup (l : list (string * JsVal)) (k : string) (v : JsVal) :
  NoDup (map fst l) -> (k, v) ∈ l -> assoc_get k l = Some v.
Proof.
  induction l as [|[k' v'] rest IH]; simpl; [by intros _ ?%elem_of_nil|].
  intros [Hk' Hnd]%NoDup_cons [[= -> ->]|Hin]%elem_of_cons.
  - by rewrite String.eqb_refl.
  - destruct (String.eqb k' k) eqn:Hk; [|by apply IH].
    apply String.eqb_eq in Hk as ->. destruct Hk'.
    apply list_elem_of_fmap. by exists (k, v).
Qed.

Lemma fold_left_fixed {A S : Type} (f : S -> A -> S) (l : list A) (s : S) :
  (forall x, x ∈ l -> f s x = s) -> fold_left f l s = s.
Proof.
  induction l as [|x rest IH]; intros Hf; simpl; [done|].
  rewrite Hf by left. apply IH. intros y Hy. apply Hf. by right.
Qed.

Lemma foldR_fixed {A S : Type} (f : S -> A -> Res S) (l : list A) (s : S) :
  (forall x, x ∈ l -> f s x = Ok s) -> foldR f l s = Ok s.
Proof.
  induction l as [|x rest IH]; intros Hf; simpl; [done|].
  rewrite Hf by left. simpl. apply IH. intros y Hy. apply Hf. by right.
Qed.

(** Patching a widget with the props it already has does nothing. *)
Lemma updateDomProps_same (E : Env) (d : nat) (p : Props) (dom : Dom) :
  selfEqualProps p = true -> updateDomProps E d p p dom = Ok dom.
Proof.
  unfold selfEqualProps. intros [Hnd%bool_decide_eq_true Hself]%andb_true_iff.
  rewrite forallb_forall in Hself. unfold updateDomProps.
  rewrite fold_left_fixed.
  - apply foldR_fixed. intros [k v] Hkv. unfold applyNextProp.
    destruct (String.eqb k "children"); [done|].
    unfold prop. rewrite (assoc_get_NoDup _ _ _ Hnd Hkv). simpl.
    assert (Hv : strict_eq v v = true) by (apply (Hself (k, v)); by apply list_elem_of_In).
    by rewrite Hv.
  - intros k Hk. unfold removePrevProp.
    destruct (String.eqb k "children") eqn:Hc; [done|].
    unfold has_prop. rewrite Hc.
    apply list_elem_of_fmap in Hk as ([k' v] & -> & Hkv). simpl.
    rewrite (assoc_get_NoDup _ _ _ Hnd Hkv). by rewrite bool_decide_true by eauto.
Qed.

Lemma VType_eqb_refl (t : VType) : VType_eqb t t = true.
Proof. by apply VType_eqb_eq. Qed.

Lemma key_eqb_refl (k : option string) : key_eqb k k = true.
Proof. by apply key_eqb_eq. Qed.

Section Instance_induction.

Variable P : Instance -> Prop.
Hypothesis Hmk : forall kind dom node children key path,
    Forall (fun child => match child with Some c => P c | None => True end) children ->
    P (MkInstance kind dom node children key path).

Fixpoint Instance_nested_ind (i : Instance) : P i :=
  match i with
  | MkInstance kind dom node children key path =>
      Hmk kind dom node children key path
          ((fix all (l : list (option Instance))
              : Forall (fun child => match child with Some c => P c | None => True end) l :=
              match l with
              | [] => List.Forall_nil _
              | child :: rest =>
                  @List.Forall_cons _
                    (fun child => match child with Some c => P c | None => True end)
                    child rest
                    (match child return match child with Some c => P c | None => True end with
                     | Some c => Instance_nested_ind c
                     | None => I
                     end)
                    (all rest)
              end) children)
  end.

End Instance_induction.

Lemma textWrites_only_text (instance : Instance) :
  Forall (fun op => exists d v, op = OpSetNodeValue d v) (textWrites instance).
Proof.
  induction instance as [kind dom node children key path IH] using Instance_nested_ind.
  assert (Hchildren :
            Forall (fun op => exists d v, op = OpSetNodeValue d v)
                   (flat_map (fun child => match child with
                                           | Some c => textWrites c
                                           | None => []
                                           end) children)).
  { induction IH as [|child rest Hchild _ IHrest]; simpl; [constructor|].
    apply Forall_app. split; [|done]. destruct child; [done|constructor]. }
  simpl. destruct (v_type node); try done.
  destruct dom as [d|]; [|constructor].
  repeat constructor. eauto.
Qed.


(** ** The theorems at work on the example application *)

(** Hooks never touch the document. *)
Lemma keepsDocument_bind {A B : Type} (m : M A) (k : A -> M B) :
  keepsDocument m -> (forall a, keepsDocument (k a)) -> keepsDocument (bindM m k).
Proof.
  intros Hm Hk w b w' H. run_bind H.
  apply Hk in H. apply Hm in Hstep. congruence.
Qed.

Lemma keepsDocument_ret {A : Type} (a : A) : keepsDocument (ret a).
Proof. by intros w b w' [_ ->]%ret_Ok. Qed.

Lemma keepsDocument_modify (f : World -> World) :
  (forall w, document (f w) = document w) -> keepsDocument (modify f).
Proof. intros Hf w u w' ->%modify_Ok. apply Hf. Qed.

Lemma keepsDocument_gets {A : Type} (f : World -> A) : keepsDocument (gets f).
Proof. by intros w a w' [= _ <-]. Qed.

Lemma keepsDocument_liftR {A : Type} (r : Res A) : keepsDocument (liftR r).
Proof. intros w a w'. unfold liftR. destruct r; [|done|done]. by intros [= _ <-]. Qed.

Lemma keepsDocument_currentPath : keepsDocument currentPath.
Proof.
  intros w a w'. unfold currentPath.
  destruct (last _); [|done]. by intros [= _ <-].
Qed.

Lemma keepsDocument_currentHooks (path : string) : keepsDocument (currentHooks path).
Proof.
  intros w a w'. unfold currentHooks.
  destruct (smap_get _ _); by intros [= _ <-].
Qed.

Lemma write_slot_document (path : string) (i : nat) (x : Slot) (w : World) :
  document (write_slot path i x w) = document w.
Proof. unfold write_slot. by destruct (smap_get _ _). Qed.

Lemma useState_keepsDocument (E : Fns) (initialValue : JsVal) :
  keepsDocument (useState E initialValue).
Proof.
  unfold useState.
  repeat (first [ apply keepsDocument_bind; [|intros ?]
                | apply keepsDocument_currentPath
                | apply keepsDocument_currentHooks
                | apply keepsDocument_gets
                | apply keepsDocument_ret
                | apply keepsDocument_modify; intros ?;
                  first [apply write_slot_document | reflexivity]
                | case_match ]).
Qed.

Lemma useEffect_keepsDocument (eff : nat) (depList : JsVal) :
  keepsDocument (useEffect eff depList).
Proof.
  unfold useEffect.
  repeat (first [ apply keepsDocument_bind; [|intros ?]
                | apply keepsDocument_currentPath
                | apply keepsDocument_currentHooks
                | apply keepsDocument_gets
                | apply keepsDocument_ret
                | apply keepsDocument_liftR
                | apply keepsDocument_modify; intros ?;
                  first [apply write_slot_document | reflexivity]
                | case_match ]).
Qed.

Lemma reconcileChildren_pairs_by_index_witness :
  let parentInstance := MkInstance FRAGMENT None (Ex.div [] []) [] None "" in
  exists newInstances w',
    reconcileChildren Ex.env (reconcile Ex.env 2) 0 parentInstance
                      [Ex.text "a"; Ex.text "b"] (Ex.world None)
    = Ok (newInstances, w')
    /\ length newInstances = 2.
Proof.
  intros parentInstance.
  destruct (reconcileChildren Ex.env (reconcile Ex.env 2) 0 parentInstance
                              [Ex.text "a"; Ex.text "b"] (Ex.world None))
    as [[newInstances w']| |] eqn:Hrun; [|vm_compute in Hrun; discriminate Hrun..].
  exists newInstances, w'. split; [reflexivity|].
  apply (reconcileChildren_pairs_by_index _ _ _ _ _ _ _ _ Hrun).
Defined.

Lemma cleanupUnusedHooks_collects_witness :
  NoDup (map fst (state (hooks Ex.gcWorld)))
  /\ invoked (cleanupUnusedHooks Ex.gcWorld) = [5]
  /\ smap_get "a" (state (hooks (cleanupUnusedHooks Ex.gcWorld))) = None
  /\ smap_get "b" (state (hooks (cleanupUnusedHooks Ex.gcWorld)))
     = Some [HEffect (MkEffectHook VNull (Some 7) 6)].
Proof.
  assert (Hnd : NoDup (map fst (state (hooks Ex.gcWorld)))).
  { refine (bool_decide_unpack _ _); vm_compute; exact I. }
  split; [exact Hnd|].
  destruct (cleanupUnusedHooks_collects Ex.gcWorld Hnd) as (Hinv & Hgone & Hkept & _).
  split; [rewrite Hinv; vm_compute; reflexivity|]. split.
  - apply (Hgone "a" [HEffect (MkEffectHook VNull (Some 5) 4); HValue (VNum (Int 1))]);
      [reflexivity|]. refine (bool_decide_unpack _ _); vm_compute; exact I.
  - destruct (Hkept "b") as [-> _]; [|reflexivity].
    refine (bool_decide_unpack _ _); vm_compute; exact I.
Defined.

Lemma setState_bails_out_or_schedules_witness :
  let w := Ex.hookWorld [HValue (VNum (Int 1))] in
  smap_get "c" (state (hooks w)) = Some [HValue (VNum (Int 1))]
  /\ setState Ex.fns "c" 0 (VNum (Int 1)) w = w
  /\ smap_get "c" (state (hooks (setState Ex.fns "c" 0 (VFun 20) w)))
     = Some [HValue (VNum (Int 2))]
  /\ renderScheduled (setState Ex.fns "c" 0 (VFun 20) w) = true.
Proof.
  intros w. split; [reflexivity|].
  destruct (setState_bails_out_or_schedules Ex.fns "c" 0 (VNum (Int 1)) w
              [HValue (VNum (Int 1))] (VNum (Int 1)) eq_refl eq_refl) as [Hsame _].
  destruct (setState_bails_out_or_schedules Ex.fns "c" 0 (VFun 20) w
              [HValue (VNum (Int 1))] (VNum (Int 1)) eq_refl eq_refl) as [_ Hnew].
  split; [apply Hsame; reflexivity|].
  destruct (Hnew eq_refl) as (_ & Hslot & _ & Hsched & _).
  split; [exact Hslot|exact Hsched].
Defined.

Lemma useEffect_gates_on_deps_witness :
  let w := Ex.hookWorld [HEffect (MkEffectHook (VArr 1 [VNum (Int 1)]) (Some 9) 8)] in
  last (componentStack (hooks w)) = Some "c"
  /\ (exists w', useEffect 8 (VArr 2 [VNum (Int 1)]) w = Ok (tt, w')
                 /\ state (hooks w') = state (hooks w)
                 /\ effects_queue w' = effects_queue w)
  /\ (exists w', useEffect 8 (VArr 2 [VNum (Int 2)]) w = Ok (tt, w')
                 /\ effects_queue w' = effects_queue w ++ [("c", 0)]).
Proof.
  intros w. split; [reflexivity|]. split.
  - destruct (useEffect_gates_on_deps 8 (VArr 2 [VNum (Int 1)]) w "c" eq_refl)
      as [_ Hsame].
    destruct (Hsame (MkEffectHook (VArr 1 [VNum (Int 1)]) (Some 9) 8) eq_refl)
      as (w' & Hrun & Hstate & Hqueue & _); [discriminate|reflexivity|].
    exists w'. split; [exact Hrun|]. split; [exact Hstate|exact Hqueue].
  - destruct (useEffect_gates_on_deps 8 (VArr 2 [VNum (Int 2)]) w "c" eq_refl)
      as [Hchanged _].
    destruct Hchanged as (w' & Hrun & _ & Hqueue & _).
    { right. right. exists (MkEffectHook (VArr 1 [VNum (Int 1)]) (Some 9) 8).
      split; reflexivity. }
    exists w'. split; [exact Hrun|exact Hqueue].
Defined.

(** * Further properties of the code *)

(** ** Equality utilities *)

Lemma pretty_N_go_digit (x : N) (s : string) :
  (0 < x)%N \/ starts_with_digit s = true ->
  starts_with_digit (pretty_N_go x s) = true.
Proof.
  revert s. induction (N.lt_wf_0 x) as [x _ IH]; intros s Hs.
  destruct (decide (x = 0)%N) as [->|Hx].
  - rewrite pretty_N_go_0. destruct Hs as [Hs|Hs]; [lia|done].
  - rewrite pretty_N_go_step by lia. apply IH.
    + apply N.div_lt; lia.
    + right. simpl. unfold pretty_N_char. by repeat case_match.
Qed.

Lemma pretty_nat_digit (n : nat) : starts_with_digit (pretty n) = true.
Proof.
  unfold pretty, pretty_nat, pretty, pretty_N.
  case_decide; [done|]. apply pretty_N_go_digit. lia.
Qed.

Lemma pretty_nat_not_length (n : nat) : String.eqb (pretty n) "length" = false.
Proof.
  apply String.eqb_neq. intros H.
  pose proof (pretty_nat_digit n) as Hd. by rewrite H in Hd.
Qed.

(** Reading an array under the decimal key of an index reads the item. *)
Lemma index_get_pretty (items : list JsVal) (k i : nat) :
  index_get k items (pretty (k + i)) = default VUndefined (items !! i).
Proof.
  revert k i. induction items as [|x rest IH]; intros k i; simpl; [done|].
  destruct i as [|i]; simpl.
  - by rewrite Nat.add_0_r, String.eqb_refl.
  - assert (String.eqb (pretty k) (pretty (k + S i)) = false) as ->.
    { apply String.eqb_neq. intros H%(inj pretty). lia. }
    replace (k + S i) with (S k + i) by lia. apply IH.
Qed.

Lemma rank_of_Some (key : string) (names : list string) (n r : nat) :
  rank_of key names n = Some r -> key ∈ names.
Proof.
  revert n. induction names as [|name rest IH]; intros n; simpl; [done|].
  destruct (String.eqb name key) eqn:Hname.
  - apply String.eqb_eq in Hname as ->. intros _. left.
  - intros H%IH. by right.
Qed.

(** No inherited property has a name that starts with a digit. *)
Lemma inherited_not_digit (id : nat) (key : string) :
  starts_with_digit key = true ->
  Object_inherited id key = None /\ Array_inherited id key = None.
Proof.
  intros Hdigit.
  assert (Hnames : forall names n,
             forallb (fun name => negb (starts_with_digit name)) names = true ->
             rank_of key names n = None).
  { intros names n Hall. destruct (rank_of key names n) as [r|] eqn:Hrank; [|done].
    apply rank_of_Some, list_elem_of_In in Hrank.
    rewrite forallb_forall in Hall. apply Hall in Hrank.
    by rewrite Hdigit in Hrank. }
  assert (Hproto : String.eqb key "__proto__" = false).
  { apply String.eqb_neq. intros ->. discriminate Hdigit. }
  assert (Hobject : Object_inherited id key = None).
  { unfold Object_inherited. rewrite Hproto. by rewrite Hnames. }
  split; [done|].
  unfold Array_inherited. rewrite Hproto. by rewrite Hnames.
Qed.

Lemma get_array_index (id : nat) (items : list JsVal) (i : nat) :
  get (VArr id items) (pretty i) = Ok (default VUndefined (items !! i)).
Proof.
  unfold get. rewrite pretty_nat_not_length.
  destruct (inherited_not_digit id (pretty i) (pretty_nat_digit i)) as [_ ->].
  by rewrite <- (index_get_pretty items 0 i).
Qed.

Lemma Object_is_refl (v : JsVal) : Object_is v v = true.
Proof.
  destruct v as [| |b|[| |z]|s|f|i xs|i fs]; simpl; try done.
  - by destruct b.
  - apply Z.eqb_refl.
  - apply String.eqb_refl.
  - apply Nat.eqb_refl.
  - apply Nat.eqb_refl.
  - apply Nat.eqb_refl.
Qed.

Lemma deepEquals_of_Object_is (a b : JsVal) :
  Object_is a b = true -> deepEquals a b = Ok true.
Proof. intros H. destruct a; cbn [deepEquals]; by rewrite H. Qed.

Lemma allR_true {A : Type} (test : A -> Res bool) (l : list A) :
  allR test l = Ok true <-> forall x, x ∈ l -> test x = Ok true.
Proof.
  induction l as [|x rest IH]; simpl.
  - split; [by intros _ y ?%elem_of_nil|done].
  - split.
    + intros H y [Heq|Hy]%elem_of_cons.
      * subst y. destruct (test x) as [[|]| |]; simpl in H; done.
      * apply IH; [|done]. destruct (test x) as [[|]| |]; simpl in H; done.
    + intros H. rewrite (H x) by left. simpl. apply IH.
      intros y Hy. apply H. by right.
Qed.

(** The test of one index in the array loop of [shallowEquals]. *)
Lemma shallow_item_test (i j : nat) (xs ys : list JsVal) (k : nat) :
  bindR (get (VArr i xs) (pretty k))
        (fun x => bindR (get (VArr j ys) (pretty k)) (fun y => Ok (Object_is x y)))
  = Ok (Object_is (default VUndefined (xs !! k)) (default VUndefined (ys !! k))).
Proof. by rewrite !get_array_index. Qed.

(** X1.  On two arrays [shallowEquals] never throws, and it answers "equal"
    exactly when the arrays are one and the same object or have the same
    length and, index by index, items that are the same value for
    [Object.is]. *)
Theorem shallowEquals_arrays (i j : nat) (xs ys : list JsVal) :
  exists r,
    shallowEquals (VArr i xs) (VArr j ys) = Ok r
    /\ (r = true <->
        i = j
        \/ (length xs = length ys
            /\ forall k x y, xs !! k = Some x -> ys !! k = Some y -> Object_is x y = true)).
Proof.
  unfold shallowEquals. simpl.
  destruct (Nat.eqb i j) eqn:Hij.
  { apply Nat.eqb_eq in Hij. exists true. split; [done|]. split; auto. }
  apply Nat.eqb_neq in Hij.
  destruct (Z.eqb (Z.of_nat (length xs)) (Z.of_nat (length ys))) eqn:Hlen; simpl.
  - apply Z.eqb_eq, Nat2Z.inj in Hlen. rewrite Nat2Z.id.
    destruct (allR_total
                (fun k => bindR (get (VArr i xs) (pretty k))
                                (fun x => bindR (get (VArr j ys) (pretty k))
                                                (fun y => Ok (Object_is x y))))
                (seq 0 (length xs))) as [r Hr].
    { intros k. rewrite shallow_item_test. eauto. }
    exists r. split; [exact Hr|]. split.
    + intros ->. right. split; [done|]. intros k x y Hx Hy.
      apply allR_true with (x := k) in Hr.
      * rewrite shallow_item_test, Hx, Hy in Hr. simpl in Hr. congruence.
      * apply elem_of_seq. apply lookup_lt_Some in Hx. lia.
    + intros [?|[_ Hitems]]; [done|].
      destruct r; [done|]. exfalso.
      assert (Hall : allR (fun k => bindR (get (VArr i xs) (pretty k))
                                          (fun x => bindR (get (VArr j ys) (pretty k))
                                                          (fun y => Ok (Object_is x y))))
                          (seq 0 (length xs)) = Ok true); [|congruence].
      apply allR_true. intros k [_ Hk]%elem_of_seq. rewrite shallow_item_test.
      destruct (lookup_lt_is_Some_2 xs k) as [x Hx]; [lia|].
      destruct (lookup_lt_is_Some_2 ys k) as [y Hy]; [lia|].
      rewrite Hx, Hy. simpl. f_equal. eauto.
  - exists false. split; [done|]. split; [done|].
    intros [?|[Hl _]]; [done|]. apply Z.eqb_neq in Hlen. lia.
Qed.

Lemma deepItems_of_same (b : JsVal) (xs : list JsVal) :
  forall k,
    (forall n x, xs !! n = Some x ->
                 exists y, get b (pretty (k + n)) = Ok y /\ deepEquals x y = Ok true) ->
    deepItems deepEquals b k xs = Ok true.
Proof.
  induction xs as [|x rest IH]; intros k Hitems; simpl; [done|].
  destruct (Hitems 0 x eq_refl) as (y & Hy & Hxy).
  rewrite Nat.add_0_r in Hy. rewrite Hy. simpl. rewrite Hxy. simpl.
  apply IH. intros n x' Hn. replace (S k + n) with (k + S n) by lia.
  by apply Hitems.
Qed.

Lemma deepEntries_of_same (b : JsVal) (fs : list (string * JsVal)) :
  (forall key x, (key, x) ∈ fs ->
                 exists y, get b key = Ok y /\ deepEquals x y = Ok true) ->
  deepEntries deepEquals b fs = Ok true.
Proof.
  induction fs as [|[key x] rest IH]; intros Hentries; simpl; [done|].
  destruct (Hentries key x) as (y & Hy & Hxy); [left|].
  rewrite Hy. simpl. rewrite Hxy. simpl.
  apply IH. intros key' x' Hin. apply Hentries. by right.
Qed.

Lemma allR_ext {A : Type} (f g : A -> Res bool) (l : list A) :
  (forall x, f x = g x) -> allR f l = allR g l.
Proof. intros Hfg. induction l as [|x rest IH]; simpl; [done|]. by rewrite Hfg, IH. Qed.

Lemma shallowEquals_arrays_eq (i j : nat) (xs ys : list JsVal) :
  shallowEquals (VArr i xs) (VArr j ys)
  = if Nat.eqb i j then Ok true
    else if negb (Z.eqb (Z.of_nat (length xs)) (Z.of_nat (length ys))) then Ok false
    else allR (fun k => Ok (Object_is (default VUndefined (xs !! k))
                                      (default VUndefined (ys !! k))))
              (seq 0 (length xs)).
Proof.
  unfold shallowEquals. simpl. destruct (Nat.eqb i j); [done|].
  destruct (negb _); [done|]. rewrite Nat2Z.id.
  apply allR_ext. intros k. exact (shallow_item_test i j xs ys k).
Qed.

Lemma shallowEquals_objects_eq (i j : nat) (fs gs : list (string * JsVal)) :
  shallowEquals (VObj i fs) (VObj j gs)
  = if Nat.eqb i j then Ok true
    else if negb (Nat.eqb (length fs) (length gs)) then Ok false
    else allR (fun key => bindR (get (VObj i fs) key)
                                (fun x => bindR (get (VObj j gs) key)
                                                (fun y => Ok (Object_is x y))))
              (map fst fs).
Proof.
  unfold shallowEquals. cbn -[get]. destruct (Nat.eqb i j); [done|].
  by rewrite !length_map.
Qed.

(** Reading an object under one of its own keys, and under a key that it
    neither has nor inherits. *)
Lemma get_object_own (i : nat) (fs : list (string * JsVal)) (key : string) (x : JsVal) :
  assoc_get key fs = Some x -> get (VObj i fs) key = Ok x.
Proof. intros H. simpl. by rewrite H. Qed.

Lemma get_object_missing (i : nat) (fs : list (string * JsVal)) (key : string) :
  assoc_get key fs = None -> Object_inherited i key = None ->
  get (VObj i fs) key = Ok VUndefined.
Proof. intros Hown Hinherited. simpl. by rewrite Hown, Hinherited. Qed.

Lemma deepEquals_arrays_eq (i j : nat) (xs ys : list JsVal) :
  deepEquals (VArr i xs) (VArr j ys)
  = if Nat.eqb i j then Ok true
    else if negb (Z.eqb (Z.of_nat (length xs)) (Z.of_nat (length ys))) then Ok false
    else deepItems deepEquals (VArr j ys) 0 xs.
Proof. cbn [deepEquals]. simpl. by destruct (Nat.eqb i j). Qed.

Lemma deepEquals_objects_eq (i j : nat) (fs gs : list (string * JsVal)) :
  deepEquals (VObj i fs) (VObj j gs)
  = if Nat.eqb i j then Ok true
    else if negb (Nat.eqb (length fs) (length gs)) then Ok false
    else deepEntries deepEquals (VObj j gs) fs.
Proof. cbn [deepEquals]. simpl. rewrite length_map. by destruct (Nat.eqb i j). Qed.

(** X2.  Whatever [shallowEquals] accepts, [deepEquals] accepts too (for an
    object whose keys are distinct, as the keys of an object are). *)
Theorem shallow_equal_is_deep_equal (a b : JsVal) :
  (forall i fs, a = VObj i fs -> NoDup (map fst fs)) ->
  shallowEquals a b = Ok true ->
  deepEquals a b = Ok true.
Proof.
  intros Hkeys Hshallow.
  destruct (Object_is a b) eqn:His; [by apply deepEquals_of_Object_is|].
  destruct (loose_null a || loose_null b || negb (is_object_type a)
            || negb (is_object_type b)) eqn:Hguard.
  { unfold shallowEquals in Hshallow. by rewrite His, Hguard in Hshallow. }
  apply past_guard in Hguard as [[Ha Hna] [Hb Hnb]].
  destruct a as [| | | | | |i xs|i fs]; try discriminate;
    destruct b as [| | | | | |j ys|j gs]; try discriminate.
  - (* two arrays *)
    rewrite shallowEquals_arrays_eq in Hshallow. rewrite deepEquals_arrays_eq.
    destruct (Nat.eqb i j); [done|]. destruct (negb _); [done|].
    apply deepItems_of_same. intros n x Hx.
    rewrite Nat.add_0_l, get_array_index.
    eexists. split; [reflexivity|]. apply deepEquals_of_Object_is.
    apply allR_true with (x := n) in Hshallow.
    + rewrite Hx in Hshallow. simpl in Hshallow. congruence.
    + apply elem_of_seq. apply lookup_lt_Some in Hx. lia.
  - (* two objects *)
    rewrite shallowEquals_objects_eq in Hshallow. rewrite deepEquals_objects_eq.
    destruct (Nat.eqb i j); [done|]. destruct (negb _); [done|].
    apply deepEntries_of_same. intros key x Hin.
    destruct (get_object_total (VObj j gs) key eq_refl eq_refl) as [y Hy].
    exists y. split; [exact Hy|]. apply deepEquals_of_Object_is.
    apply allR_true with (x := key) in Hshallow.
    + rewrite (get_object_own i fs key x), Hy in Hshallow by eauto using assoc_get_NoDup.
      simpl in Hshallow. congruence.
    + apply list_elem_of_fmap. by exists (key, x).
Qed.

(** X3.  [deepEquals] accepts copies: two values of the same shape (the
    same leaves, arrays of the same length, objects with the same keys in
    any order) are deep-equal whatever the identities of their arrays and
    objects. *)
Theorem deepEquals_same_shape (a b : JsVal) :
  sameShape a b -> deepEquals a b = Ok true.
Proof.
  revert b.
  induction a as [| |x|n|s|f|i xs IH|i fs IH] using JsVal_nested_ind;
    intros b Hshape;
    inversion Hshape as [a' b' His|i' j xs' ys Hitems
                         |i' j fs' gs Hndf Hndg Hlen Hentries];
    subst; try (by apply deepEquals_of_Object_is).
  - rewrite deepEquals_arrays_eq. destruct (Nat.eqb i j); [done|].
    rewrite (Forall2_length _ _ _ Hitems), Z.eqb_refl. simpl.
    apply deepItems_of_same. intros n x Hx. rewrite Nat.add_0_l, get_array_index.
    destruct (Forall2_lookup_l _ _ _ _ _ Hitems Hx) as (y & Hy & Hxy).
    rewrite Hy. exists y. split; [done|].
    rewrite Forall_lookup in IH. by apply (IH n x Hx).
  - rewrite deepEquals_objects_eq. destruct (Nat.eqb i j); [done|].
    rewrite Hlen, Nat.eqb_refl. simpl.
    apply deepEntries_of_same. intros key x Hin.
    destruct (Hentries key x Hin) as (y & Hy & Hxy).
    exists y. split.
    + apply get_object_own. by apply assoc_get_NoDup.
    + apply list_elem_of_lookup in Hin as [n Hn].
      rewrite Forall_lookup in IH. by apply (IH n (key, x) Hn).
Qed.

(** X4.  Neither comparator is symmetric on objects: a key of the first
    object that the second neither has nor inherits passes the test when
    its value is undefined, while the second object's own key fails it in
    the other direction. *)
Theorem equals_not_symmetric (i j : nat) (k k' : string) (v : JsVal) :
  i ≠ j -> k ≠ k' -> v ≠ VUndefined ->
  Object_inherited j k = None -> Object_inherited i k' = None ->
  shallowEquals (VObj i [(k, VUndefined)]) (VObj j [(k', v)]) = Ok true
  /\ shallowEquals (VObj j [(k', v)]) (VObj i [(k, VUndefined)]) = Ok false
  /\ deepEquals (VObj i [(k, VUndefined)]) (VObj j [(k', v)]) = Ok true
  /\ deepEquals (VObj j [(k', v)]) (VObj i [(k, VUndefined)]) = Ok false.
Proof.
  intros Hij Hk Hv Hinherited Hinherited'.
  assert (Hji : Nat.eqb j i = false) by (apply Nat.eqb_neq; congruence).
  apply Nat.eqb_neq in Hij.
  assert (Hkk : String.eqb k' k = false) by (apply String.eqb_neq; congruence).
  apply String.eqb_neq in Hk.
  assert (Hvu : Object_is v VUndefined = false) by (by destruct v).
  assert (Hown : forall id key x, get (VObj id [(key, x)]) key = Ok x).
  { intros id key x. apply get_object_own. simpl. by rewrite String.eqb_refl. }
  assert (Hmiss : get (VObj j [(k', v)]) k = Ok VUndefined).
  { apply get_object_missing; [|done]. simpl. by rewrite Hkk. }
  assert (Hmiss' : get (VObj i [(k, VUndefined)]) k' = Ok VUndefined).
  { apply get_object_missing; [|done]. simpl. by rewrite Hk. }
  rewrite !shallowEquals_objects_eq, !deepEquals_objects_eq, Hij, Hji.
  cbn -[get deepEquals]. rewrite !Hown, Hmiss, Hmiss'. cbn -[deepEquals]. rewrite Hvu.
  repeat split; try done.
  assert (deepEquals v VUndefined = Ok false) as ->; [|done].
  apply equals_non_object; [done|]. by rewrite orb_true_r.
Qed.

(** A key that the second object inherits is read there as the inherited
    value: [{constructor: undefined}] and [{b: 1}] differ in both
    directions. *)
Lemma equals_read_inherited_keys :
  let a := VObj 1 [("constructor", VUndefined)] in
  let b := VObj 2 [("b", VNum (Int 1))] in
  shallowEquals a b = Ok false /\ shallowEquals b a = Ok false
  /\ deepEquals a b = Ok false /\ deepEquals b a = Ok false.
Proof. repeat split; by vm_compute. Qed.

(** ** Path identity assigner *)

Lemma append_cancel_l (p a b : string) : p +:+ a = p +:+ b -> a = b.
Proof. induction p as [|c p IH]; simpl; [done|]. intros [= H]. by apply IH. Qed.

(** Among the siblings before [j] there is one more of the kind that [g]
    accepts than before [i], when [i < j] and the sibling at [i] is one. *)
Lemma count_before_grows {A : Type} (g : A -> bool) (s : list A) (i j : nat) (a : A) :
  i < j -> s !! i = Some a -> g a = true ->
  length (List.filter g (take i s)) < length (List.filter g (take j s)).
Proof.
  intros Hij Ha Hg.
  replace j with (S i + (j - S i)) by lia.
  rewrite <- take_take_drop, (take_S_r _ _ _ Ha), !List.filter_app, !length_app.
  simpl. rewrite Hg. simpl. lia.
Qed.

(** X5.  Two unkeyed siblings of the same type never get the same path:
    components of one function are told apart by their rank among the
    siblings of that function, other nodes by their index. *)
Theorem unkeyed_siblings_get_distinct_paths (E : Fns) (p : string) (s : list VNode)
    (i j : nat) (a b : VNode) :
  i < j -> s !! i = Some a -> s !! j = Some b ->
  v_key a = None -> v_key b = None -> v_type a = v_type b ->
  createChildPath E p (v_key a) i (Some (v_type a)) (Some s)
  ≠ createChildPath E p (v_key b) j (Some (v_type b)) (Some s).
Proof.
  intros Hij Ha Hb Hka Hkb Ht. rewrite Hka, Hkb, <- Ht. unfold createChildPath.
  destruct (v_type a) as [tag| | |f] eqn:Hta;
    try (intros H; do 2 apply append_cancel_l in H; apply (inj pretty) in H; lia).
  intros H. do 4 apply append_cancel_l in H. apply (inj pretty) in H.
  assert (Hg : VType_eqb (v_type a) (Fn f) && bool_decide (v_key a = None) = true).
  { rewrite Hta, Hka. simpl. by rewrite Nat.eqb_refl. }
  pose proof (count_before_grows
                (fun sibling => VType_eqb (v_type sibling) (Fn f)
                                && bool_decide (v_key sibling = None)) s i j a Hij Ha Hg).
  lia.
Qed.

(** X6.  Two different component functions with the same declared name get
    the same path when they are unkeyed siblings and each is the first of
    its function: the path tells components apart by name, not by
    function. *)
Theorem same_name_components_share_path (E : Fns) (p : string) (f g : nat)
    (a b : VNode) :
  f ≠ g ->
  str_or (default "" (fn_displayName E f)) (str_or (fn_name E f) "Component")
  = str_or (default "" (fn_displayName E g)) (str_or (fn_name E g) "Component") ->
  v_type a = Fn f -> v_type b = Fn g -> v_key a = None -> v_key b = None ->
  createChildPath E p (v_key a) 0 (Some (v_type a)) (Some [a; b])
  = createChildPath E p (v_key b) 1 (Some (v_type b)) (Some [a; b]).
Proof.
  intros Hfg Hname Hta Htb Hka Hkb. rewrite Hka, Hkb, Hta, Htb.
  unfold createChildPath. rewrite Hname. simpl. rewrite Hta. simpl.
  by apply Nat.eqb_neq in Hfg as ->.
Qed.

(** X7.  A sibling put in front of an unkeyed component leaves the path of
    the component as it was, unless it is an unkeyed component of the same
    function; it does change the path of an unkeyed node that is not a
    component. *)
Theorem inserted_sibling_and_paths (E : Fns) (p : string) (s1 s2 : list VNode)
    (x : VNode) (i : nat) :
  length s1 <= i ->
  (forall f,
      VType_eqb (v_type x) (Fn f) && bool_decide (v_key x = None) = false ->
      createChildPath E p None (S i) (Some (Fn f)) (Some (s1 ++ x :: s2))
      = createChildPath E p None i (Some (Fn f)) (Some (s1 ++ s2)))
  /\ (forall t,
        (forall f, t ≠ Fn f) ->
        createChildPath E p None (S i) (Some t) (Some (s1 ++ x :: s2))
        ≠ createChildPath E p None i (Some t) (Some (s1 ++ s2))).
Proof.
  intros Hi. split.
  - intros f Hx. unfold createChildPath. do 4 f_equal.
    rewrite !take_app_ge by lia.
    replace (S i - length s1) with (S (i - length s1)) by lia. simpl.
    rewrite !List.filter_app. simpl. by rewrite Hx.
  - intros t Ht. unfold createChildPath.
    destruct t as [tag| | |f]; [| | |by destruct (Ht f)];
      intros H; do 2 apply append_cancel_l in H; apply (inj pretty) in H; lia.
Qed.

(** ** Node constructor *)

Lemma flattenChildren_app (l1 l2 : list RawChild) :
  flattenChildren (l1 ++ l2) = flattenChildren l1 ++ flattenChildren l2.
Proof. unfold flattenChildren. apply flat_map_app. Qed.

(** X8.  [createElement] sees through arrays of children: an array among
    the children arguments, however deeply nested, counts for its items. *)
Theorem createElement_flattens (type : VType) (originProps : option OriginProps)
    (before items after : list RawChild) :
  createElement type originProps (before ++ RArr items :: after)
  = createElement type originProps (before ++ items ++ after).
Proof.
  unfold createElement.
  replace (flattenChildren (before ++ RArr items :: after))
    with (flattenChildren (before ++ items ++ after)); [done|].
  by rewrite !flattenChildren_app.
Qed.

Lemma normalizeNode_None (l : Leaf) : normalizeNode l = None <-> isEmptyValue l = true.
Proof. by destruct l. Qed.

Lemma omap_normalize_nil (ls : list Leaf) :
  omap normalizeNode ls = [] <-> Forall (fun l => isEmptyValue l = true) ls.
Proof.
  induction ls as [|l rest IH]; simpl; [done|].
  rewrite Forall_cons, <- IH, <- normalizeNode_None.
  destruct (normalizeNode l); simpl; intuition congruence.
Qed.

(** X9.  Children that render nothing (null, undefined, booleans) leave no
    trace: dropping one from the arguments gives the same node.  When no
    child argument renders anything, the [children] entry of the props
    passed is kept as it is (absent when there was none, an empty array
    when it was one); when one does, the children are the normalized
    arguments, a non-empty array that replaces the entry of the props. *)
Theorem createElement_drops_empty_values (type : VType)
    (originProps : option OriginProps) (before after : list RawChild) (l : Leaf) :
  (isEmptyValue l = true ->
   createElement type originProps (before ++ RLeaf l :: after)
   = createElement type originProps (before ++ after))
  /\ (Forall (fun l => isEmptyValue l = true) (flattenChildren (before ++ after)) ->
      p_children (v_props (createElement type originProps (before ++ after)))
      = originProps ≫= o_children)
  /\ (~ Forall (fun l => isEmptyValue l = true) (flattenChildren (before ++ after)) ->
      exists child rest,
        omap normalizeNode (flattenChildren (before ++ after)) = child :: rest
        /\ p_children (v_props (createElement type originProps (before ++ after)))
           = Some (child :: rest)).
Proof.
  split; [|split].
  - intros Hl. unfold createElement.
    replace (omap normalizeNode (flattenChildren (before ++ RLeaf l :: after)))
      with (omap normalizeNode (flattenChildren (before ++ after))); [done|].
    rewrite !flattenChildren_app, !omap_app. f_equal.
    unfold flattenChildren at 2. simpl.
    by apply normalizeNode_None in Hl as ->.
  - intros Hempty%omap_normalize_nil. unfold createElement. simpl. rewrite Hempty.
    simpl. by destruct originProps.
  - intros Hsome. rewrite <- omap_normalize_nil in Hsome.
    unfold createElement. simpl.
    destruct (omap normalizeNode _) as [|child rest]; [done|]. simpl. eauto.
Qed.

(** ** Platform adapter *)

Lemma foldR_ext_elem {A S : Type} (f g : S -> A -> Res S) (l : list A) (s : S) :
  (forall s x, x ∈ l -> f s x = g s x) -> foldR f l s = foldR g l s.
Proof.
  revert s. induction l as [|x rest IH]; intros s Hfg; simpl; [done|].
  rewrite Hfg by left. destruct (g s x) as [s'| |]; simpl; [|done|done].
  apply IH. intros s'' y Hy. apply Hfg. by right.
Qed.

(** One step of [setDomProps] throws on a null style and on nothing else. *)
Lemma setDomProps_step (E : Fns) (d : nat) (dom : Dom) (key : string) (value : JsVal) :
  let step :=
    if String.eqb key "children" then Ok dom
    else if String.eqb key "style" && is_object_type value then
      bindR (Object_entries value)
            (fun entries => Ok (log_ops (map (fun '(styleKey, styleValue) =>
                                                OpSetStyle d styleKey styleValue) entries) dom))
    else if String.eqb key "className" then Ok (log_op (OpSetClassName d value) dom)
    else if startsWith key "on" then
      Ok (log_op (OpAddEventListener d (eventTypeOf key) value) dom)
    else if key_in_dom E d key dom then Ok (log_op (OpSetProperty d key value) dom)
    else Ok (log_op (OpSetAttribute d key value) dom) in
  ((key, value) = ("style", VNull) -> step = Throw "TypeError")
  /\ ((key, value) ≠ ("style", VNull) -> exists dom', step = Ok dom' /\ writtenOn d dom dom').
Proof.
  assert (Hrefl : writtenOn d dom dom).
  { repeat split. exists []. by rewrite app_nil_r. }
  assert (Hone : forall op, isWriteOn d op = true -> writtenOn d dom (log_op op dom)).
  { intros op Hop. repeat split. exists [op]. split; [done|]. simpl. by rewrite Hop. }
  assert (Hstyle : forall entries : list (string * JsVal),
             writtenOn d dom (log_ops (map (fun '(styleKey, styleValue) =>
                                              OpSetStyle d styleKey styleValue) entries) dom)).
  { intros entries. repeat split. eexists. split; [done|].
    induction entries as [|[sk sv] rest IH]; simpl; [done|]. by rewrite Nat.eqb_refl. }
  simpl. split.
  - by intros [= -> ->].
  - intros Hne. destruct (String.eqb key "children"); [eauto|].
    destruct (String.eqb key "style") eqn:Hk; simpl.
    + apply String.eqb_eq in Hk as ->.
      destruct value; simpl; try (by destruct Hne); try (eexists; split; [done|]; apply Hstyle);
        repeat case_match; eexists; (split; [done|]); apply Hone; simpl;
        apply Nat.eqb_refl.
    + repeat case_match; eexists; (split; [done|]); apply Hone; simpl;
        apply Nat.eqb_refl.
Qed.

Lemma null_style_dec (key : string) (value : JsVal) :
  (key, value) = ("style", VNull) \/ (key, value) ≠ ("style", VNull).
Proof.
  destruct (decide (key = "style")) as [->|Hk]; [|right; congruence].
  destruct value; (by left) || (right; congruence).
Qed.

(** X10.  Applying props fails on a null [style]: the entries of null
    cannot be listed, so [setDomProps] throws a TypeError.  It is the only
    prop that the function itself fails on: without it every prop is handed
    to the widget (the operations of the widget are recorded, and taken not
    to fail). *)
Theorem setDomProps_throws_on_null_style (E : Fns) (d : nat) (props : Props) (dom : Dom) :
  (("style", VNull) ∈ p_fields props -> setDomProps E d props dom = Throw "TypeError")
  /\ (("style", VNull) ∉ p_fields props -> exists dom', setDomProps E d props dom = Ok dom').
Proof.
  unfold setDomProps. revert dom.
  induction (p_fields props) as [|[key value] rest IH]; intros dom; simpl.
  - split; [by intros ?%elem_of_nil|eauto].
  - destruct (setDomProps_step E d dom key value) as [Hthrow Hok]. simpl in *.
    destruct (null_style_dec key value) as [Heq|Hne].
    + split; [|intros []; rewrite Heq; left].
      intros _. by rewrite (Hthrow Heq).
    + destruct (Hok Hne) as (dom' & -> & _). simpl.
      destruct (IH dom') as [IHthrow IHok]. split.
      * intros [?|Hin]%elem_of_cons; [done|]. by apply IHthrow.
      * intros [_ Hnotin]%not_elem_of_cons. by apply IHok.
Qed.

Lemma writtenOn_refl (d : nat) (dom : Dom) : writtenOn d dom dom.
Proof. repeat split. exists []. by rewrite app_nil_r. Qed.

Lemma writtenOn_trans (d : nat) (dom1 dom2 dom3 : Dom) :
  writtenOn d dom1 dom2 -> writtenOn d dom2 dom3 -> writtenOn d dom1 dom3.
Proof.
  intros (Hn1 & Hp1 & Ht1 & ops1 & Hl1 & Hw1) (Hn2 & Hp2 & Ht2 & ops2 & Hl2 & Hw2).
  repeat split; try congruence.
  exists (ops1 ++ ops2). rewrite Hl2, Hl1, <- app_assoc. split; [done|].
  rewrite forallb_app. by rewrite Hw1, Hw2.
Qed.

Lemma writtenOn_log_op (d : nat) (op : DomOp) (dom : Dom) :
  isWriteOn d op = true -> writtenOn d dom (log_op op dom).
Proof. intros Hop. repeat split. exists [op]. split; [done|]. simpl. by rewrite Hop. Qed.

Lemma writtenOn_styles (d : nat) (entries : list (string * JsVal)) (dom : Dom) :
  writtenOn d dom (log_ops (map (fun '(styleKey, styleValue) =>
                                   OpSetStyle d styleKey styleValue) entries) dom).
Proof.
  repeat split. eexists. split; [done|].
  induction entries as [|[sk sv] rest IH]; simpl; [done|]. by rewrite Nat.eqb_refl.
Qed.

Lemma setDomProps_writtenOn (E : Fns) (d : nat) (props : Props) (dom dom' : Dom) :
  setDomProps E d props dom = Ok dom' -> writtenOn d dom dom'.
Proof.
  unfold setDomProps. revert dom.
  induction (p_fields props) as [|[key value] rest IH]; intros dom; simpl.
  - intros [= <-]. apply writtenOn_refl.
  - destruct (setDomProps_step E d dom key value) as [Hthrow Hok]. simpl in *.
    destruct (null_style_dec key value) as [Heq|Hne].
    + by rewrite (Hthrow Heq).
    + destruct (Hok Hne) as (dom1 & -> & Hw). simpl.
      intros H%IH. by eapply writtenOn_trans.
Qed.

Lemma removePrevProp_writtenOn (E : Fns) (d : nat) (prevProps nextProps : Props)
    (dom : Dom) (key : string) :
  writtenOn d dom (removePrevProp E d prevProps nextProps dom key).
Proof.
  unfold removePrevProp.
  repeat case_match; try apply writtenOn_refl; apply writtenOn_log_op; simpl;
    apply Nat.eqb_refl.
Qed.

Lemma applyNextProp_writtenOn (E : Fns) (d : nat) (prevProps : Props) (dom dom' : Dom)
    (entry : string * JsVal) :
  applyNextProp E d prevProps dom entry = Ok dom' -> writtenOn d dom dom'.
Proof.
  destruct entry as [key value]. unfold applyNextProp.
  destruct (String.eqb key "children"); [intros [= <-]; apply writtenOn_refl|].
  destruct (strict_eq _ value); [intros [= <-]; apply writtenOn_refl|].
  destruct (String.eqb key "style" && is_object_type value).
  { destruct (Object_entries value) as [entries| |]; simpl; [|done|done].
    intros [= <-]. apply writtenOn_styles. }
  destruct (String.eqb key "className").
  { intros [= <-]. apply writtenOn_log_op. simpl. apply Nat.eqb_refl. }
  destruct (startsWith key "on").
  { intros [= <-]. destruct (truthy _).
    - eapply writtenOn_trans; apply writtenOn_log_op; simpl; apply Nat.eqb_refl.
    - apply writtenOn_log_op. simpl. apply Nat.eqb_refl. }
  destruct (key_in_dom E d key dom); intros [= <-];
    apply writtenOn_log_op; simpl; apply Nat.eqb_refl.
Qed.

(** X11.  Applying or patching props touches one widget only: whenever
    [setDomProps] or [updateDomProps] returns, no widget has been created,
    attached or detached, and every operation it performed is a write on
    the widget it was given. *)
Theorem props_touch_one_widget (E : Fns) (d : nat) (prevProps nextProps : Props)
    (dom dom' : Dom) :
  (setDomProps E d nextProps dom = Ok dom' -> writtenOn d dom dom')
  /\ (updateDomProps E d prevProps nextProps dom = Ok dom' -> writtenOn d dom dom').
Proof.
  split; [apply setDomProps_writtenOn|].
  unfold updateDomProps.
  assert (Hfirst : forall keys dom0,
             writtenOn d dom0 (fold_left (removePrevProp E d prevProps nextProps) keys dom0)).
  { induction keys as [|key keys IH]; intros dom0; simpl; [apply writtenOn_refl|].
    eapply writtenOn_trans; [apply removePrevProp_writtenOn|apply IH]. }
  assert (Hsecond : forall entries dom0,
             foldR (applyNextProp E d prevProps) entries dom0 = Ok dom' ->
             writtenOn d dom0 dom').
  { induction entries as [|entry entries IH]; intros dom0; simpl.
    - intros [= <-]. apply writtenOn_refl.
    - destruct (applyNextProp E d prevProps dom0 entry) as [dom1| |] eqn:Hstep;
        simpl; [|done|done].
      intros H%IH. eapply writtenOn_trans; [|exact H].
      by eapply applyNextProp_writtenOn. }
  intros H%Hsecond. eapply writtenOn_trans; [apply Hfirst|exact H].
Qed.


(** X13.  Unmounting is idempotent: removing an instance a second time
    from the same parent performs no operation, since a widget is removed
    only while it is a child of that parent. *)
Theorem removeInstance_twice (parentDom : nat) (instance : option Instance) (w : World) :
  bindM (removeInstance parentDom instance) (fun _ => removeInstance parentDom instance) w
  = removeInstance parentDom instance w.
Proof.
  unfold bindM, removeInstance, modify. simpl. do 2 f_equal.
  destruct w as [c n ri h q dom sch mt inv]. unfold with_document. simpl. f_equal.
  destruct instance as [i|]; simpl; [|done].
  apply fold_left_fixed. intros node Hnode.
  rewrite bool_decide_false; [done|].
  by apply (remove_nodes_parent parentDom (getDomNodes i) dom).
Qed.

Lemma head_None_nil {A : Type} (l : list A) : head l = None -> l = [].
Proof. by destruct l. Qed.

Lemma getFirstDom_instance_head (instance : Instance) :
  getFirstDom_instance instance = head (getDomNodes instance).
Proof.
  induction instance as [kind dom node children key path IH] using Instance_nested_ind.
  simpl. destruct dom as [d|]; [done|].
  induction IH as [|child rest Hchild _ IHrest]; simpl; [done|].
  destruct child as [c|]; simpl.
  - rewrite Hchild. destruct (getDomNodes c) as [|d nodes] eqn:Hnodes; simpl; [|done].
    apply IHrest.
  - apply IHrest.
Qed.

(** X14.  The first widget of an instance is the first of its widgets:
    [getFirstDom] and [getFirstDomFromChildren] return the head of what
    [getDomNodes] lists, and null when it lists nothing. *)
Theorem getFirstDom_is_first_of_getDomNodes (instance : option Instance)
    (children : list (option Instance)) :
  getFirstDom instance
  = head (match instance with Some i => getDomNodes i | None => [] end)
  /\ getFirstDomFromChildren children
     = head (flat_map (fun child => match child with
                                    | Some c => getDomNodes c
                                    | None => []
                                    end) children).
Proof.
  split.
  - destruct instance as [i|]; [|done]. apply getFirstDom_instance_head.
  - induction children as [|child rest IH]; simpl; [done|].
    destruct child as [c|]; simpl; [|done].
    rewrite getFirstDom_instance_head.
    by destruct (getDomNodes c).
Qed.

(** ** Hook store *)

Lemma filter_none {A : Type} (f : A -> bool) (l : list A) :
  (forall x, x ∈ l -> f x = false) -> List.filter f l = [].
Proof.
  induction l as [|x rest IH]; intros Hf; simpl; [done|].
  rewrite (Hf x) by left. apply IH. intros y Hy. apply Hf. by right.
Qed.

Lemma smap_delete_keys (p q : string) (m : SlotTable) :
  q ∈ map fst (smap_delete p m) <-> q ∈ map fst m /\ q ≠ p.
Proof.
  rewrite <- !smap_get_keys, smap_get_delete.
  case_decide as Hpq; [|by intuition congruence].
  subst. split; [by intros [? ?]|by intros [_ ?]].
Qed.

(** The keys that a sequence of deletions leaves in the table; no
    assumption on the paths deleted. *)
Lemma dropPaths_keys (ps : list string) (w : World) (q : string) :
  (q ∈ map fst (state (hooks (fold_left dropPath ps w)))
   <-> q ∈ map fst (state (hooks w)) /\ q ∉ ps)
  /\ visited (hooks (fold_left dropPath ps w)) = visited (hooks w).
Proof.
  revert w. induction ps as [|p ps IH]; intros w; simpl.
  - split; [|done]. split; [intros H; split; [done|by intros ?%elem_of_nil]|by intros [? _]].
  - destruct (dropPath_state w p) as (Hst & _ & Hvis & _).
    destruct (IH (dropPath w p)) as [-> ->]. split; [|done].
    rewrite Hst, smap_delete_keys, not_elem_of_cons. tauto.
Qed.

Lemma cleanupUnusedHooks_keys (w : World) (q : string) :
  (q ∈ map fst (state (hooks (cleanupUnusedHooks w)))
   <-> q ∈ map fst (state (hooks w)) /\ q ∈ visited (hooks w))
  /\ visited (hooks (cleanupUnusedHooks w)) = visited (hooks w).
Proof.
  unfold cleanupUnusedHooks.
  destruct (dropPaths_keys
              (List.filter (fun path => negb (bool_decide (path ∈ visited (hooks w))))
                           (map fst (state (hooks w)))) w q) as [-> ->].
  split; [|done].
  assert (Hfilter : q ∈ List.filter
                      (fun path => negb (bool_decide (path ∈ visited (hooks w))))
                      (map fst (state (hooks w)))
                    <-> q ∈ map fst (state (hooks w)) /\ q ∉ visited (hooks w)).
  { rewrite !list_elem_of_In, List.filter_In.
    by rewrite negb_true_iff, bool_decide_eq_false. }
  rewrite Hfilter.
  destruct (decide (q ∈ visited (hooks w))); tauto.
Qed.

(** X15.  Collecting twice in a row is collecting once: after a
    collection every path of the table is a visited one, so a second
    collection deletes nothing and calls no cleanup again. *)
Theorem cleanupUnusedHooks_idempotent (w : World) :
  (forall q, q ∈ map fst (state (hooks (cleanupUnusedHooks w))) ->
             q ∈ visited (hooks (cleanupUnusedHooks w)))
  /\ cleanupUnusedHooks (cleanupUnusedHooks w) = cleanupUnusedHooks w.
Proof.
  assert (Hkeys : forall q, q ∈ map fst (state (hooks (cleanupUnusedHooks w))) ->
                            q ∈ visited (hooks (cleanupUnusedHooks w))).
  { intros q Hq. destruct (cleanupUnusedHooks_keys w q) as [Hk ->]. by apply Hk. }
  split; [done|].
  unfold cleanupUnusedHooks at 1.
  rewrite filter_none; [done|].
  intros q Hq. apply negb_false_iff, bool_decide_eq_true. by apply Hkeys.
Qed.

(** X16.  An effect that was queued for a component which the pass did not
    reach is never run: once the collection has deleted the slots of that
    path, the deferred task skips the entry. *)
Theorem collected_effects_are_skipped (E : Fns) (entries : list (string * nat))
    (w : World) :
  (forall entry, entry ∈ entries -> fst entry ∉ visited (hooks w)) ->
  flushEffects E entries (cleanupUnusedHooks w) = cleanupUnusedHooks w.
Proof.
  intros Hstale. unfold flushEffects. apply fold_left_fixed.
  intros [path cur] Hentry. apply runEffect_stale.
  destruct (smap_get path (state (hooks (cleanupUnusedHooks w)))) as [slots|] eqn:Hget;
    [|done].
  destruct (cleanupUnusedHooks_keys w path) as [Hk _].
  assert (Hkey : path ∈ map fst (state (hooks (cleanupUnusedHooks w))))
    by (apply smap_get_keys; eauto).
  apply Hk in Hkey as [_ Hvisited].
  by destruct (Hstale _ Hentry).
Qed.

(** X17.  The cleanup that an effect returns is the one called before the
    next run of that effect: running the same entry twice calls the stored
    cleanup, the effect, the cleanup it returned, and the effect again. *)
Theorem effect_cleanup_precedes_rerun (E : Fns) (w : World) (path : string) (cur : nat)
    (slots : list Slot) (hook : EffectHook) :
  smap_get path (state (hooks w)) = Some slots ->
  slots !! cur = Some (HEffect hook) ->
  invoked (flushEffects E [(path, cur); (path, cur)] w)
  = invoked w ++ option_list (cleanup hook) ++ [effect hook]
              ++ option_list (effect_returns E (effect hook)) ++ [effect hook].
Proof.
  intros Hslots Hcur. unfold flushEffects. cbn [fold_left].
  destruct (runEffect_live E w path cur slots hook Hslots Hcur) as (Hinv1 & Hslots1 & _).
  destruct (runEffect_live E (runEffect E w (path, cur)) path cur _
              (MkEffectHook (deps hook) (effect_returns E (effect hook)) (effect hook))
              Hslots1) as (Hinv2 & _).
  { apply list_lookup_insert_eq. by apply lookup_lt_Some in Hcur. }
  rewrite Hinv2, Hinv1. simpl. by rewrite <- !app_assoc.
Qed.

Lemma Object_is_undefined (v : JsVal) : Object_is VUndefined v = true <-> v = VUndefined.
Proof. destruct v; simpl; split; (done || discriminate). Qed.

(** X18.  State survives re-rendering: when the slot under the cursor
    holds a value other than undefined, [useState] returns that slot
    whatever initial value is passed, leaves the table as it is and moves
    the cursor of the component to the next slot. *)
Theorem useState_keeps_stored_value (E : Fns) (initialValue : JsVal) (w : World)
    (path : string) (slots : list Slot) (s : Slot) :
  last (componentStack (hooks w)) = Some path ->
  smap_get path (state (hooks w)) = Some slots ->
  let cur := default 0 (cursor (hooks w) !! path) in
  slots !! cur = Some s ->
  is_undefined s = false ->
  useState E initialValue w
  = Ok ((s, (path, cur)),
        with_cursor (<[path := cur + 1]> (cursor (hooks w))) w).
Proof.
  intros Htop Hslots cur Hcur Hdefined.
  unfold useState, bindM, currentPath, currentCursor, currentHooks, gets, modify, ret.
  rewrite Htop. simpl. rewrite Hslots. simpl. fold cur.
  assert (slot_at slots cur = s) as -> by (unfold slot_at; by rewrite Hcur).
  rewrite Hdefined. rewrite Hslots. simpl.
  by assert (slot_at slots cur = s) as -> by (unfold slot_at; by rewrite Hcur).
Qed.

(** X19.  A state that its setter has set to undefined does not stay
    undefined: the setter stores undefined in the slot, and the next call
    of [useState] for that slot takes the slot for a fresh one, so the
    initial value is stored and returned again. *)
Theorem undefined_state_is_reinitialised (E : Fns) (initialValue : JsVal)
    (w w2 : World) (path : string) (cur : nat) (slots : list Slot) (v : JsVal) :
  smap_get path (state (hooks w)) = Some slots ->
  slots !! cur = Some (HValue v) ->
  v <> VUndefined ->
  state (hooks w2) = state (hooks (setState E path cur VUndefined w)) ->
  last (componentStack (hooks w2)) = Some path ->
  default 0 (cursor (hooks w2) !! path) = cur ->
  let initialState := match initialValue with
                      | VFun f => fn_apply E f VUndefined
                      | _ => initialValue
                      end in
  smap_get path (state (hooks w2)) = Some (<[cur := HValue VUndefined]> slots)
  /\ exists w3,
       useState E initialValue w2 = Ok ((HValue initialState, (path, cur)), w3)
       /\ smap_get path (state (hooks w3)) = Some (<[cur := HValue initialState]> slots).
Proof.
  intros Hslots Hcur Hv Hstate Htop Hcursor initialState.
  assert (Hdiff : Object_is v VUndefined = false).
  { by destruct v. }
  assert (Hlt : cur < length slots) by by apply lookup_lt_Some in Hcur.
  assert (Hslots2 : smap_get path (state (hooks w2))
                    = Some (<[cur := HValue VUndefined]> slots)).
  { rewrite Hstate. unfold setState. rewrite Hslots. simpl. rewrite Hcur, Hdiff.
    destruct (write_slot_state path cur (HValue VUndefined) w slots Hslots)
      as (Hst & _).
    assert (state (hooks (enqueueRender (write_slot path cur (HValue VUndefined) w)))
            = state (hooks (write_slot path cur (HValue VUndefined) w))) as ->
      by (unfold enqueueRender; by destruct (renderScheduled _)).
    rewrite Hst, smap_get_set, decide_True by done.
    by rewrite (write_at_present slots cur _ _ Hcur). }
  split; [done|].
  unfold useState, bindM, currentPath, currentCursor, currentHooks, gets, modify, ret.
  rewrite Htop. simpl. rewrite Hslots2. simpl. rewrite Hcursor.
  assert (slot_at (<[cur := HValue VUndefined]> slots) cur = HValue VUndefined) as ->
    by (unfold slot_at; by rewrite list_lookup_insert_eq).
  simpl. fold initialState. eexists. split.
  - f_equal. f_equal. f_equal.
    unfold write_slot. rewrite Hslots2. simpl.
    rewrite smap_get_set, decide_True by done. simpl.
    unfold slot_at. by rewrite write_at_lookup.
  - simpl. unfold write_slot. rewrite Hslots2. simpl.
    rewrite smap_get_set, decide_True by done.
    rewrite (write_at_present _ cur _ (HValue VUndefined))
      by by apply list_lookup_insert_eq.
    by rewrite list_insert_insert_eq.
Qed.

(** X20.  The setter of a component whose slots are gone stores nothing,
    but it still requests a render unless the new value is undefined: the
    stored value reads as undefined, an updater is applied to undefined,
    and the table is left as it is. *)
Theorem setState_without_slots (E : Fns) (path : string) (cur : nat)
    (nextValue : JsVal) (w : World) :
  smap_get path (state (hooks w)) = None ->
  let newValue := match nextValue with
                  | VFun f => fn_apply E f VUndefined
                  | _ => nextValue
                  end in
  setState E path cur nextValue w
  = (if Object_is VUndefined newValue then w else enqueueRender w)
  /\ state (hooks (setState E path cur nextValue w)) = state (hooks w).
Proof.
  intros Hgone newValue.
  assert (Hrun : setState E path cur nextValue w
                 = if Object_is VUndefined newValue then w else enqueueRender w).
  { unfold setState. rewrite Hgone. cbn [mbind option_bind]. fold newValue.
    destruct (Object_is VUndefined newValue); [done|].
    unfold write_slot. by rewrite Hgone. }
  split; [done|]. rewrite Hrun.
  destruct (Object_is VUndefined newValue); [done|].
  unfold enqueueRender. by destruct (renderScheduled w).
Qed.

(** X21.  Updaters compose: the setter reads the stored value at the time
    of the call, so after a first updater [f] has changed the state a
    second updater [g] is applied to the result of [f], and the slot ends
    up holding a value identical to [g (f v)]. *)
Theorem setState_updaters_compose (E : Fns) (path : string) (cur : nat) (f g : nat)
    (w : World) (slots : list Slot) (v : JsVal) :
  smap_get path (state (hooks w)) = Some slots ->
  slots !! cur = Some (HValue v) ->
  Object_is v (fn_apply E f v) = false ->
  exists x,
    smap_get path (state (hooks (setState E path cur (VFun g)
                                          (setState E path cur (VFun f) w))))
    = Some (<[cur := HValue x]> slots)
    /\ Object_is x (fn_apply E g (fn_apply E f v)) = true
    /\ (Object_is (fn_apply E f v) (fn_apply E g (fn_apply E f v)) = false ->
        x = fn_apply E g (fn_apply E f v)).
Proof.
  intros Hslots Hcur Hchanged.
  assert (Hlt : cur < length slots) by by apply lookup_lt_Some in Hcur.
  set (w1 := setState E path cur (VFun f) w).
  assert (Hslots1 : smap_get path (state (hooks w1))
                    = Some (<[cur := HValue (fn_apply E f v)]> slots)).
  { subst w1. unfold setState. rewrite Hslots. simpl. rewrite Hcur, Hchanged.
    destruct (write_slot_state path cur (HValue (fn_apply E f v)) w slots Hslots)
      as (Hst & _).
    assert (state (hooks (enqueueRender (write_slot path cur (HValue (fn_apply E f v)) w)))
            = state (hooks (write_slot path cur (HValue (fn_apply E f v)) w))) as ->
      by (unfold enqueueRender; by destruct (renderScheduled _)).
    rewrite Hst, smap_get_set, decide_True by done.
    by rewrite (write_at_present slots cur _ _ Hcur). }
  assert (Hcur1 : <[cur := HValue (fn_apply E f v)]> slots !! cur
                  = Some (HValue (fn_apply E f v)))
    by by apply list_lookup_insert_eq.
  unfold setState at 1. rewrite Hslots1. simpl. rewrite Hcur1.
  destruct (Object_is (fn_apply E f v) (fn_apply E g (fn_apply E f v))) eqn:Hsame.
  - exists (fn_apply E f v). rewrite Hslots1. by split.
  - exists (fn_apply E g (fn_apply E f v)).
    destruct (write_slot_state path cur (HValue (fn_apply E g (fn_apply E f v))) w1 _
                Hslots1) as (Hst & _).
    assert (state (hooks (enqueueRender
                            (write_slot path cur
                                        (HValue (fn_apply E g (fn_apply E f v))) w1)))
            = state (hooks (write_slot path cur
                                       (HValue (fn_apply E g (fn_apply E f v))) w1))) as ->
      by (unfold enqueueRender; by destruct (renderScheduled _)).
    rewrite Hst, smap_get_set, decide_True by done.
    rewrite (write_at_present _ cur _ _ Hcur1), list_insert_insert_eq.
    split; [done|]. split; [apply Object_is_refl|done].
Qed.

(** ** Reconciler *)

(** The kind of instance that [mount] creates for a node type. *)
Lemma mount_result (E : Env)
    (rec : nat -> option Instance -> option VNode -> string -> M (option Instance))
    (pd : nat) (node : VNode) (path : string) (w w' : World) (i : Instance) :
  mount E rec pd node path w = Ok (i, w') ->
  i_node i = node /\ i_path i = path /\ i_key i = v_key node
  /\ i_kind i = kindOf (v_type node)
  /\ (is_Some (i_dom i) <-> i_kind i = HOST \/ i_kind i = TEXT).
Proof.
  destruct node as [type key props]. unfold mount. simpl. intros H.
  destruct type as [tag| | |f].
  - run_bind H. run_bind H. run_bind H. run_bind H. apply ret_Ok in H as [-> ->].
    simpl. repeat split; eauto.
  - run_bind H. run_bind H. apply ret_Ok in H as [-> ->].
    simpl. repeat split; eauto.
  - run_bind H. apply ret_Ok in H as [-> ->].
    simpl. repeat split; try done; solve [by intros [? ?]|by intros [?|?]].
  - unfold runComponent in H.
    run_bind H. run_bind H. run_bind H. run_bind H. apply ret_Ok in H as [-> ->].
    simpl. repeat split; try done; solve [by intros [? ?]|by intros [?|?]].
Qed.

Lemma update_result (E : Env)
    (rec : nat -> option Instance -> option VNode -> string -> M (option Instance))
    (pd : nat) (old : Instance) (node : VNode) (path : string) (w w' : World)
    (i : Instance) :
  update E rec pd old node path w = Ok (i, w') ->
  i_node i = node /\ i_path i = path
  /\ i_dom i = i_dom old /\ i_kind i = i_kind old /\ i_key i = i_key old.
Proof.
  destruct node as [type key props], old as [kind dom oldNode children oldKey oldPath].
  unfold update. simpl. intros H.
  destruct type as [tag| | |f]; simpl in H.
  - destruct dom as [d|]; [destruct kind|].
    + run_bind H. run_bind H. by apply ret_Ok in H as [-> ->].
    + by apply ret_Ok in H as [-> ->].
    + by apply ret_Ok in H as [-> ->].
    + by apply ret_Ok in H as [-> ->].
    + by apply ret_Ok in H as [-> ->].
  - destruct dom as [d|].
    + run_bind H. by apply ret_Ok in H as [-> ->].
    + by apply ret_Ok in H as [-> ->].
  - run_bind H. by apply ret_Ok in H as [-> ->].
  - unfold runComponent in H.
    run_bind H. run_bind H. run_bind H. run_bind H. by apply ret_Ok in H as [-> ->].
Qed.

Lemma reconcile_body_result (E : Env)
    (rec : nat -> option Instance -> option VNode -> string -> M (option Instance))
    (pd : nat) (inst : option Instance) (node : option VNode) (path : string)
    (w w' : World) (r : option Instance) :
  reconcile_body E rec pd inst node path w = Ok (r, w') ->
  match node with
  | None => r = None
  | Some n => exists i, r = Some i /\ i_node i = n /\ i_path i = path
  end.
Proof.
  unfold reconcile_body. intros H. destruct node as [n|].
  - destruct inst as [old|].
    + destruct (negb _ || negb _).
      * run_bind H. run_bind H. apply ret_Ok in H as [-> ->].
        apply mount_result in Hstep0 as (? & ? & _). eauto.
      * run_bind H. apply ret_Ok in H as [-> ->].
        apply update_result in Hstep as (? & ? & _). eauto.
    + run_bind H. apply ret_Ok in H as [-> ->].
      apply mount_result in Hstep as (? & ? & _). eauto.
  - run_bind H. by apply ret_Ok in H as [-> ->].
Qed.

(** *** The widgets under an instance *)

Lemma getDomNodes_topWidget (instance : Instance) (d : nat) :
  d ∈ getDomNodes instance <-> topWidget instance d.
Proof.
  split.
  - revert d.
    induction instance as [kind dom node children key path IH] using Instance_nested_ind.
    intros d. simpl. destruct dom as [d'|].
    + intros [->|Hd%elem_of_nil]%elem_of_cons; [|done]. by apply topWidget_own.
    + intros Hd. apply list_elem_of_In, in_flat_map in Hd as (child & Hchild & Hd).
      apply list_elem_of_In in Hchild, Hd.
      destruct child as [c|]; [|by apply elem_of_nil in Hd].
      rewrite Forall_forall in IH.
      apply (topWidget_child _ c); [done|done|]. by apply (IH (Some c)).
  - induction 1 as [instance d Hd|instance child d Hnone Hchild Htop IH].
    + destruct instance as [kind dom node children key path]. simpl in *.
      rewrite Hd. left.
    + destruct instance as [kind dom node children key path]. simpl in *. subst dom.
      apply list_elem_of_In, in_flat_map. exists (Some child).
      split; by apply list_elem_of_In.
Qed.

(** What removing widgets logs: one [removeChild] for each widget that was
    a child of the parent. *)
Lemma remove_nodes_log (pd : nat) (nodes : list nat) (dom : Dom) :
  let dom' := fold_left (fun dom node =>
                           if bool_decide (parentNode dom !! node = Some pd)
                           then removeChild pd node dom else dom) nodes dom in
  tagName dom' = tagName dom
  /\ exists ops,
       oplog dom' = oplog dom ++ ops
       /\ forall op, op ∈ ops <->
                     exists d, op = OpRemoveChild pd d /\ d ∈ nodes
                               /\ parentNode dom !! d = Some pd.
Proof.
  revert dom. induction nodes as [|node rest IH]; intros dom; simpl.
  - split; [done|]. exists []. rewrite app_nil_r. split; [done|].
    intros op. split; [by intros ?%elem_of_nil|].
    by intros (d & _ & ?%elem_of_nil & _).
  - destruct (IH (if bool_decide (parentNode dom !! node = Some pd)
                  then removeChild pd node dom else dom)) as (Htag & ops & Hlog & Hops).
    case_bool_decide as Hparent; simpl in *.
    + split; [done|]. exists (OpRemoveChild pd node :: ops).
      split; [by rewrite Hlog, <- app_assoc|].
      intros op. rewrite elem_of_cons, Hops. split.
      * intros [->|(d & -> & Hd & Hp)].
        -- exists node. split; [done|]. split; [left|done].
        -- exists d. split; [done|]. split; [by right|].
           destruct (decide (d = node)) as [->|Hne]; [done|].
           by rewrite lookup_delete_ne in Hp.
      * intros (d & -> & [->|Hd]%elem_of_cons & Hp); [by left|].
        destruct (decide (d = node)) as [->|Hne]; [by left|].
        right. exists d. split; [done|]. split; [done|].
        by rewrite lookup_delete_ne.
    + split; [done|]. exists ops. split; [done|].
      intros op. rewrite Hops. split.
      * intros (d & -> & Hd & Hp). exists d. split; [done|]. split; [by right|done].
      * intros (d & -> & [->|Hd]%elem_of_cons & Hp); [done|]. eauto.
Qed.

(** *** Props that are applied without failing *)

Lemma setDomProps_returns (E : Fns) (d : nat) (props : Props) (dom : Dom) :
  noNullStyle props = true -> exists dom', setDomProps E d props dom = Ok dom'.
Proof.
  unfold noNullStyle, setDomProps. revert dom.
  induction (p_fields props) as [|[key value] rest IH]; intros dom; simpl; [eauto|].
  intros [Hkv Hrest]%andb_true_iff.
  destruct (setDomProps_step E d dom key value) as [_ Hok]. simpl in Hok.
  destruct Hok as (dom' & -> & _).
  { intros [= -> ->]. discriminate Hkv. }
  simpl. by apply IH.
Qed.

Lemma applyNextProp_returns (E : Fns) (d : nat) (prevProps : Props) (dom : Dom)
    (key : string) (value : JsVal) :
  negb (String.eqb key "style" && match value with VNull => true | _ => false end) = true ->
  exists dom', applyNextProp E d prevProps dom (key, value) = Ok dom'.
Proof.
  intros Hkv. unfold applyNextProp.
  destruct (String.eqb key "children"); [eauto|].
  destruct (strict_eq (prop prevProps key) value); [eauto|].
  destruct (String.eqb key "style") eqn:Hk; simpl.
  - destruct value; simpl in *; try discriminate; eauto; repeat case_match; eauto.
  - repeat case_match; eauto.
Qed.

Lemma updateDomProps_returns (E : Fns) (d : nat) (prevProps nextProps : Props)
    (dom : Dom) :
  noNullStyle nextProps = true ->
  exists dom', updateDomProps E d prevProps nextProps dom = Ok dom'.
Proof.
  unfold noNullStyle, updateDomProps.
  generalize (fold_left (removePrevProp E d prevProps nextProps)
                        (map fst (p_fields prevProps)) dom).
  induction (p_fields nextProps) as [|[key value] rest IH]; intros dom0;
    cbn [foldR forallb fst snd]; [eauto|].
  intros [Hkv Hrest]%andb_true_iff.
  destruct (applyNextProp_returns E d prevProps dom0 key value Hkv) as [dom' ->].
  cbn [bindR]. by apply IH.
Qed.

(** *** Enough fuel gives the result *)

Lemma document_res_run (g : Dom -> Res Dom) (w : World) (dom' : Dom) :
  g (document w) = Ok dom' ->
  (fun w0 => bindR (g (document w0)) (fun dom' => Ok (tt, with_document dom' w0))) w
  = Ok (tt, with_document dom' w).
Proof. intros H. simpl. by rewrite H. Qed.

Lemma bindM_run {A B : Type} (m : M A) (k : A -> M B) (w w1 : World) (a : A) :
  m w = Ok (a, w1) -> bindM m k w = k a w1.
Proof. intros H. unfold bindM. by rewrite H. Qed.

Lemma unmount_run (E : Env) (fuel : nat) (pd : nat) (instance : option Instance)
    (path : string) (w : World) :
  fuel <> 0 ->
  reconcile E fuel pd instance None path w
  = Ok (None, with_document (removeInstance_dom pd instance (document w)) w).
Proof. by destruct fuel. Qed.

Section Returns.

Variable E : Env.
Variable Inv : World -> Prop.
Variable out : string -> nat -> Props -> option VNode.
Hypothesis Hdet : determinedComponents E Inv out.

Section Body.

(** The calls of [reconcile] one level down. *)
Variable fuel : nat.
Hypothesis IH : forall node path pd instance w,
    expands E out fuel node path = true -> Inv w ->
    exists i w', reconcile E fuel pd instance (Some node) path w = Ok (Some i, w')
                 /\ Inv w'.

Lemma reconcileChildren_loop_returns (pd : nat) (pp : string)
    (olds : list (option Instance)) (news : list VNode) (indices : list nat) :
  fuel <> 0 ->
  forall acc w,
    Inv w ->
    (forall i c, i ∈ indices -> news !! i = Some c ->
                 expands E out fuel c
                         (createChildPath E pp (v_key c) i (Some (v_type c)) (Some news))
                 = true) ->
    exists cs w',
      reconcileChildren_loop E (reconcile E fuel) pd pp olds news indices acc w
      = Ok (cs, w')
      /\ Inv w'.
Proof.
  intros Hfuel. induction indices as [|i rest IHloop]; intros acc w Hinv Hexp;
    cbn [reconcileChildren_loop].
  - exists acc, w. by split.
  - destruct (news !! i) as [c|] eqn:Hc.
    + destruct (IH c (createChildPath E pp (v_key c) i (Some (v_type c)) (Some news))
                   pd (mjoin (olds !! i)) w) as (ci & w1 & Hcall & Hinv1);
        [apply Hexp; [left|done]|done|].
      unfold childPathAt. rewrite Hc.
      rewrite (bindM_run _ _ _ _ _ Hcall).
      apply IHloop; [done|]. intros j c' Hj. apply Hexp. by right.
    + rewrite (bindM_run _ _ _ _ _ (unmount_run E fuel pd _ _ w Hfuel)).
      apply IHloop; [by apply Hdet|]. intros j c' Hj. apply Hexp. by right.
Qed.

Lemma children_expand (node : VNode) (path : string) (i : nat) (c : VNode) :
  forallb (fun i => match children_or_empty (v_props node) !! i with
                    | Some child =>
                        expands E out fuel child
                                (createChildPath E path (v_key child) i
                                                 (Some (v_type child))
                                                 (Some (children_or_empty (v_props node))))
                    | None => true
                    end)
          (seq 0 (length (children_or_empty (v_props node)))) = true ->
  children_or_empty (v_props node) !! i = Some c ->
  expands E out fuel c
          (createChildPath E path (v_key c) i (Some (v_type c))
                           (Some (children_or_empty (v_props node)))) = true.
Proof.
  intros Hall Hc. rewrite forallb_forall in Hall.
  specialize (Hall i). rewrite Hc in Hall. apply Hall.
  apply in_seq. apply lookup_lt_Some in Hc. lia.
Qed.

Lemma runComponent_returns (pd : nat) (instance : Instance) (f : nat) (props : Props)
    (path : string) (oldChild : option Instance) (w : World) :
  match out path f props with
  | None => fuel <> 0
  | Some child =>
      expands E out fuel child
              (createChildPath E path None 0 (Some (v_type child)) (Some [child])) = true
  end ->
  Inv w ->
  exists cs w',
    runComponent E (reconcile E fuel) pd instance f props path oldChild w
    = Ok (set_children instance cs, w')
    /\ Inv w'.
Proof.
  intros Hexp Hinv. unfold runComponent.
  destruct Hdet as [Hdocument Hcall].
  destruct (Hcall f props path w Hinv) as (w1 & Hrun & Hinv1).
  rewrite (bindM_run _ _ _ (enterComponent path w) tt eq_refl).
  rewrite (bindM_run _ _ _ _ _ Hrun).
  rewrite (bindM_run _ _ _ (leaveComponent w1) tt eq_refl).
  destruct (out path f props) as [child|]; simpl.
  - destruct (IH child _ pd oldChild (leaveComponent w1) Hexp Hinv1)
      as (ci & w2 & Hchild & Hinv2).
    rewrite (bindM_run _ _ _ _ _ Hchild). simpl. eauto.
  - rewrite (bindM_run _ _ _ _ _ (unmount_run E fuel pd _ _ _ Hexp)).
    simpl. eexists _, _. split; [reflexivity|]. by apply Hdocument.
Qed.

Lemma expands_fuel (node : VNode) (path : string) :
  expands E out (S fuel) node path = true ->
  v_type node <> TEXT_ELEMENT ->
  fuel <> 0.
Proof.
  simpl. destruct (v_type node) as [tag| | |f]; try done; intros H _.
  - apply andb_true_iff in H as [[H%Nat.ltb_lt _]%andb_true_iff _]. lia.
  - apply andb_true_iff in H as [H%Nat.ltb_lt _]. lia.
  - destruct (out path f (v_props node)) as [child|].
    + by destruct fuel.
    + apply Nat.ltb_lt in H. lia.
Qed.

Lemma mount_returns (pd : nat) (node : VNode) (path : string) (w : World) :
  expands E out (S fuel) node path = true ->
  Inv w ->
  exists i w', mount E (reconcile E fuel) pd node path w = Ok (i, w') /\ Inv w'.
Proof.
  intros Hexp Hinv. destruct Hdet as [Hdocument _].
  destruct (VType_eqb (v_type node) TEXT_ELEMENT) eqn:Htext.
  { apply VType_eqb_eq in Htext.
    unfold mount. rewrite Htext. unfold bindM, modify, ret. simpl.
    eexists _, _. split; [reflexivity|]. by do 2 apply Hdocument. }
  assert (Hnot : v_type node <> TEXT_ELEMENT)
    by (intros Heq; apply VType_eqb_eq in Heq; congruence).
  pose proof (expands_fuel node path Hexp Hnot) as Hfuel.
  unfold mount, reconcileChildren. simpl in Hexp.
  destruct (v_type node) as [tag| | |f]; [| done | |].
  - apply andb_true_iff in Hexp as [[_ Hstyle]%andb_true_iff Hchildren].
    rewrite (bindM_run _ _ _ _ _ eq_refl). cbn [fst snd createElement_dom].
    match goal with
    | |- context [bindM _ _ ?w1] =>
        destruct (setDomProps_returns E (next_id (document w)) (v_props node)
                                      (document w1) Hstyle) as [dom2 Hprops];
        rewrite (bindM_run _ _ w1 _ tt
                   (document_res_run (setDomProps E _ _) w1 dom2 Hprops))
    end.
    match goal with
    | |- context [bindM (reconcileChildren_loop ?E' ?rec ?d ?pp ?olds ?news ?ix ?acc) _ ?w0] =>
        destruct (reconcileChildren_loop_returns d pp olds news ix Hfuel acc w0)
          as (cs & w3 & Hloop & Hinv3)
    end.
    { by do 2 apply Hdocument. }
    { intros i c _ Hc. simpl. by apply children_expand. }
    rewrite (bindM_run _ _ _ _ _ Hloop).
    unfold bindM, modify, ret. simpl.
    eexists _, _. split; [reflexivity|]. by apply Hdocument.
  - apply andb_true_iff in Hexp as [_ Hchildren].
    match goal with
    | |- context [bindM (reconcileChildren_loop ?E' ?rec ?d ?pp ?olds ?news ?ix ?acc) _ ?w0] =>
        destruct (reconcileChildren_loop_returns d pp olds news ix Hfuel acc w0)
          as (cs & w3 & Hloop & Hinv3)
    end.
    { done. }
    { intros i c _ Hc. simpl. by apply children_expand. }
    rewrite (bindM_run _ _ _ _ _ Hloop).
    unfold ret. eauto.
  - destruct (runComponent_returns pd (MkInstance COMPONENT None node [] (v_key node) path)
                f (v_props node) path None w) as (cs & w' & Hrun & Hinv'); [|done|eauto].
    by destruct (out path f (v_props node)).
Qed.

Lemma update_returns (pd : nat) (instance : Instance) (node : VNode) (path : string)
    (w : World) :
  expands E out (S fuel) node path = true ->
  Inv w ->
  exists i w', update E (reconcile E fuel) pd instance node path w = Ok (i, w')
               /\ Inv w'.
Proof.
  intros Hexp Hinv. destruct Hdet as [Hdocument _].
  destruct instance as [kind dom oldNode children oldKey oldPath].
  destruct (VType_eqb (v_type node) TEXT_ELEMENT) eqn:Htext.
  { apply VType_eqb_eq in Htext.
    unfold update. rewrite Htext. simpl. destruct dom as [d|].
    - unfold bindM, modify, ret. simpl.
      eexists _, _. split; [reflexivity|]. by apply Hdocument.
    - unfold ret. eauto. }
  assert (Hnot : v_type node <> TEXT_ELEMENT)
    by (intros Heq; apply VType_eqb_eq in Heq; congruence).
  pose proof (expands_fuel node path Hexp Hnot) as Hfuel.
  unfold update, reconcileChildren. simpl in Hexp. simpl.
  destruct (v_type node) as [tag| | |f]; [| done | |]; simpl.
  - apply andb_true_iff in Hexp as [[_ Hstyle]%andb_true_iff Hchildren].
    destruct dom as [d|]; [destruct kind|]; try (unfold ret; by eauto).
    destruct (updateDomProps_returns E d (v_props oldNode) (v_props node)
                                     (document w) Hstyle) as [dom2 Hprops].
    rewrite (bindM_run _ _ w _ tt
               (document_res_run (updateDomProps E _ _ _) w dom2 Hprops)).
    match goal with
    | |- context [bindM (reconcileChildren_loop ?E' ?rec ?d' ?pp ?olds ?news ?ix ?acc) _ ?w0] =>
        destruct (reconcileChildren_loop_returns d' pp olds news ix Hfuel acc w0)
          as (cs & w3 & Hloop & Hinv3)
    end.
    { by apply Hdocument. }
    { intros i c _ Hc. by apply children_expand. }
    rewrite (bindM_run _ _ _ _ _ Hloop). unfold ret. eauto.
  - apply andb_true_iff in Hexp as [_ Hchildren].
    match goal with
    | |- context [bindM (reconcileChildren_loop ?E' ?rec ?d' ?pp ?olds ?news ?ix ?acc) _ ?w0] =>
        destruct (reconcileChildren_loop_returns d' pp olds news ix Hfuel acc w0)
          as (cs & w3 & Hloop & Hinv3)
    end.
    { done. }
    { intros i c _ Hc. by apply children_expand. }
    rewrite (bindM_run _ _ _ _ _ Hloop). unfold ret. eauto.
  - destruct (runComponent_returns pd (MkInstance kind dom node children oldKey path)
                f (v_props node) path (mjoin (children !! 0)) w)
      as (cs & w' & Hrun & Hinv'); [|done|eauto].
    by destruct (out path f (v_props node)).
Qed.

Lemma reconcile_body_returns (pd : nat) (instance : option Instance) (node : VNode)
    (path : string) (w : World) :
  expands E out (S fuel) node path = true ->
  Inv w ->
  exists i w',
    reconcile_body E (reconcile E fuel) pd instance (Some node) path w = Ok (Some i, w')
    /\ Inv w'.
Proof.
  intros Hexp Hinv. unfold reconcile_body.
  destruct instance as [old|].
  - destruct (negb _ || negb _).
    + rewrite (bindM_run _ _ _ _ tt eq_refl).
      destruct (mount_returns pd node path
                  (with_document (removeInstance_dom pd (Some old) (document w)) w) Hexp)
        as (i & w' & Hrun & Hinv'); [by apply Hdet|].
      rewrite (bindM_run _ _ _ _ _ Hrun). unfold ret. eauto.
    + destruct (update_returns pd old node path w Hexp Hinv) as (i & w' & Hrun & Hinv').
      rewrite (bindM_run _ _ _ _ _ Hrun). unfold ret. eauto.
  - destruct (mount_returns pd node path w Hexp Hinv) as (i & w' & Hrun & Hinv').
    rewrite (bindM_run _ _ _ _ _ Hrun). unfold ret. eauto.
Qed.

End Body.

(** A node that unfolds within the fuel is reconciled: the call returns
    an instance, whatever the old instance. *)
Lemma reconcile_returns (fuel : nat) :
  forall node path pd instance w,
    expands E out fuel node path = true -> Inv w ->
    exists i w', reconcile E fuel pd instance (Some node) path w = Ok (Some i, w')
                 /\ Inv w'.
Proof.
  induction fuel as [|fuel IH]; intros node path pd instance w Hexp Hinv; [done|].
  by apply reconcile_body_returns.
Qed.

End Returns.

(** X22.  What [reconcile] returns.  For a null node it returns null,
    whatever the old instance.  For a node whose tree unfolds within the
    fuel (with components whose calls are determined) it returns an
    instance.  A returned result is null exactly for a null node;
    otherwise it is an instance that carries the new node and the given
    path.  When the old instance has the type and key of the node, the
    result keeps the widget, kind and key of the old instance (the widget
    is reused, not recreated); otherwise it has the key of the node and the
    kind of its type, with a widget exactly for host and text nodes. *)
Theorem reconcile_result (E : Env) (fuel : nat) (pd : nat) (inst : option Instance)
    (path : string) (w : World) :
  (exists w', reconcile E (S fuel) pd inst None path w = Ok (None, w'))
  /\ (forall Inv out node,
        determinedComponents E Inv out ->
        expands E out fuel node path = true ->
        Inv w ->
        exists i w', reconcile E fuel pd inst (Some node) path w = Ok (Some i, w'))
  /\ (forall node r w',
        reconcile E fuel pd inst node path w = Ok (r, w') ->
        match node with
        | None => r = None
        | Some n =>
            exists i,
              r = Some i /\ i_node i = n /\ i_path i = path
              /\ match inst with
                 | Some old =>
                     if VType_eqb (v_type (i_node old)) (v_type n)
                        && key_eqb (v_key (i_node old)) (v_key n)
                     then i_dom i = i_dom old /\ i_kind i = i_kind old
                          /\ i_key i = i_key old
                     else i_key i = v_key n /\ i_kind i = kindOf (v_type n)
                          /\ (is_Some (i_dom i) <-> i_kind i = HOST \/ i_kind i = TEXT)
                 | None =>
                     i_key i = v_key n /\ i_kind i = kindOf (v_type n)
                     /\ (is_Some (i_dom i) <-> i_kind i = HOST \/ i_kind i = TEXT)
                 end
        end).
Proof.
  split; [|split].
  - eexists. by apply unmount_run.
  - intros Inv out node Hdet Hexp Hinv.
    destruct (reconcile_returns E Inv out Hdet fuel node path pd inst w Hexp Hinv)
      as (i & w' & Hrun & _).
    by exists i, w'.
  - intros node r w'.
    destruct fuel as [|fuel']; [done|]. simpl. unfold reconcile_body. intros H.
    destruct node as [n|].
    + destruct inst as [old|].
      * destruct (VType_eqb _ _), (key_eqb _ _); simpl in H |- *.
        -- run_bind H. apply ret_Ok in H as [-> ->].
           apply update_result in Hstep as (? & ? & ? & ? & ?). eauto 10.
        -- run_bind H. run_bind H. apply ret_Ok in H as [-> ->].
           apply mount_result in Hstep0 as (? & ? & ? & ? & ?). eauto 10.
        -- run_bind H. run_bind H. apply ret_Ok in H as [-> ->].
           apply mount_result in Hstep0 as (? & ? & ? & ? & ?). eauto 10.
        -- run_bind H. run_bind H. apply ret_Ok in H as [-> ->].
           apply mount_result in Hstep0 as (? & ? & ? & ? & ?). eauto 10.
      * run_bind H. apply ret_Ok in H as [-> ->].
        apply mount_result in Hstep as (? & ? & ? & ? & ?). eauto 10.
    + run_bind H. by apply ret_Ok in H as [-> ->].
Qed.

Lemma reconcileChildren_length (E : Env)
    (rec : nat -> option Instance -> option VNode -> string -> M (option Instance))
    (pd : nat) (parentInstance : Instance) (newChildren : list VNode) (w w' : World)
    (newInstances : list (option Instance)) :
  reconcileChildren E rec pd parentInstance newChildren w = Ok (newInstances, w') ->
  length newInstances
  = Nat.max (length (i_children parentInstance)) (length newChildren).
Proof.
  unfold reconcileChildren.
  intros (tail & ws & -> & Hlen & _)%reconcileChildren_loop_steps.
  by rewrite length_seq in Hlen.
Qed.

(** X23.  [reconcileChildren] never drops an index.  When each new child
    unfolds within the fuel (with components whose calls are determined),
    it returns a list.  A returned list has the larger of the two
    lengths; at every index of a new child it holds an instance for that
    child, with the path that [createChildPath] gives; at every index past
    the new children it holds null, so the holes of removed children stay
    in the list.  Hence an update never shortens the children of a fragment
    or host instance, and leaves those of a text instance as they are; a
    component instance has its single child or none. *)
Theorem reconcileChildren_keeps_holes (E : Env) (fuel : nat) (parentDom : nat)
    (parentInstance : Instance) (newChildren : list VNode) (w : World) :
  (forall Inv out,
      determinedComponents E Inv out ->
      Inv w ->
      fuel <> 0 ->
      (forall i newChild,
          newChildren !! i = Some newChild ->
          expands E out fuel newChild
                  (createChildPath E (i_path parentInstance) (v_key newChild) i
                                   (Some (v_type newChild)) (Some newChildren))
          = true) ->
      exists newInstances w',
        reconcileChildren E (reconcile E fuel) parentDom parentInstance newChildren w
        = Ok (newInstances, w'))
  /\ (forall newInstances w',
        reconcileChildren E (reconcile E fuel) parentDom parentInstance newChildren w
        = Ok (newInstances, w') ->
        length newInstances
        = Nat.max (length (i_children parentInstance)) (length newChildren)
        /\ (forall i newChild,
              newChildren !! i = Some newChild ->
              exists instance,
                newInstances !! i = Some (Some instance)
                /\ i_node instance = newChild
                /\ i_path instance
                   = createChildPath E (i_path parentInstance) (v_key newChild) i
                                     (Some (v_type newChild)) (Some newChildren))
        /\ (forall i,
              length newChildren <= i < length (i_children parentInstance) ->
              newInstances !! i = Some None))
  /\ (forall node path updated w',
        v_type (i_node parentInstance) = v_type node ->
        v_key (i_node parentInstance) = v_key node ->
        reconcile E fuel parentDom (Some parentInstance) (Some node) path w
        = Ok (Some updated, w') ->
        match v_type node with
        | Fragment =>
            length (i_children updated)
            = Nat.max (length (i_children parentInstance))
                      (length (children_or_empty (v_props node)))
        | Host _ => length (i_children parentInstance) <= length (i_children updated)
        | TEXT_ELEMENT => i_children updated = i_children parentInstance
        | Fn _ => length (i_children updated) <= 1
        end).
Proof.
  split; [|split].
  - intros Inv out Hdet Hinv Hfuel Hexp. unfold reconcileChildren.
    destruct (reconcileChildren_loop_returns
                E Inv out Hdet fuel (reconcile_returns E Inv out Hdet fuel)
                parentDom (i_path parentInstance) (i_children parentInstance)
                newChildren
                (seq 0 (Nat.max (length (i_children parentInstance))
                                (length newChildren)))
                Hfuel [] w Hinv) as (cs & w' & Hrun & _).
    { intros i c _. apply Hexp. }
    by exists cs, w'.
  - intros newInstances w' Hrun.
    split; [by apply reconcileChildren_length in Hrun|].
    unfold reconcileChildren in Hrun.
    apply reconcileChildren_loop_steps
      in Hrun as (tail & ws & -> & Hlen & _ & _ & _ & Hsteps).
    rewrite length_seq in Hlen. simpl. split.
    + intros i newChild Hnew.
      destruct (Hsteps i i) as (wk & wk' & inst & _ & _ & Hinst & Hcall).
      { apply lookup_seq. split; [done|]. apply lookup_lt_Some in Hnew. lia. }
      rewrite Hnew in Hcall. destruct fuel as [|fuel']; [done|].
      change (reconcile E (S fuel')) with (reconcile_body E (reconcile E fuel')) in Hcall.
      apply reconcile_body_result in Hcall as (instance & -> & Hnode & Hpath).
      exists instance. split; [done|]. split; [done|].
      rewrite Hpath. unfold childPathAt. by rewrite Hnew.
    + intros i [Hge Hlt].
      destruct (Hsteps i i) as (wk & wk' & inst & _ & _ & Hinst & Hcall).
      { apply lookup_seq. split; [done|]. lia. }
      rewrite (lookup_ge_None_2 newChildren i) in Hcall by done.
      destruct fuel as [|fuel']; [done|].
      change (reconcile E (S fuel')) with (reconcile_body E (reconcile E fuel')) in Hcall.
      apply reconcile_body_result in Hcall. by subst inst.
  - intros node path updated w' Htype Hkey H.
    destruct fuel as [|fuel']; [done|].
    change (reconcile E (S fuel')) with (reconcile_body E (reconcile E fuel')) in H.
    unfold reconcile_body in H.
    rewrite Htype, Hkey, VType_eqb_refl, key_eqb_refl in H. cbn [negb orb] in H.
    run_bind H. apply ret_Ok in H as [[= ->] ->].
    destruct parentInstance as [kind dom oldNode oldChildren oldKey oldPath].
    unfold update in Hstep. cbn [set_node_path i_node i_dom i_kind i_children] in *.
    destruct (v_type node) as [tag| | |f].
    + cbn [VType_eqb] in Hstep.
      destruct dom as [d|]; [destruct kind|];
        try (by apply ret_Ok in Hstep as [-> _]).
      run_bind Hstep. run_bind Hstep. apply ret_Ok in Hstep as [-> _].
      apply reconcileChildren_length in Hstep1. simpl in *. lia.
    + cbn [VType_eqb] in Hstep.
      destruct dom as [d|]; [|by apply ret_Ok in Hstep as [-> _]].
      run_bind Hstep. by apply ret_Ok in Hstep as [-> _].
    + run_bind Hstep. apply ret_Ok in Hstep as [-> _].
      apply reconcileChildren_length in Hstep0. simpl in *. lia.
    + unfold runComponent in Hstep.
      run_bind Hstep. run_bind Hstep. run_bind Hstep. run_bind Hstep.
      apply ret_Ok in Hstep as [-> _]. simpl.
      match goal with |- length (child_list ?c) <= 1 => by destruct c; simpl; lia end.
Qed.

Lemma growsVisited_bind {A B : Type} (m : M A) (k : A -> M B) :
  growsVisited m -> (forall a, growsVisited (k a)) -> growsVisited (bindM m k).
Proof.
  intros Hm Hk w b w' H. run_bind H.
  apply Hk in H. apply Hm in Hstep. set_solver.
Qed.

Lemma growsVisited_ret {A : Type} (a : A) : growsVisited (ret a).
Proof. by intros w b w' [_ ->]%ret_Ok. Qed.

Lemma growsVisited_modify (f : World -> World) :
  (forall w, visited (hooks w) ⊆ visited (hooks (f w))) -> growsVisited (modify f).
Proof. intros Hf w u w' ->%modify_Ok. apply Hf. Qed.

Lemma growsVisited_gets {A : Type} (f : World -> A) : growsVisited (gets f).
Proof. by intros w a w' [= _ <-]. Qed.

Lemma growsVisited_liftR {A : Type} (r : Res A) : growsVisited (liftR r).
Proof. intros w a w'. unfold liftR. destruct r; [|done|done]. by intros [= _ <-]. Qed.

Lemma growsVisited_currentPath : growsVisited currentPath.
Proof.
  intros w a w'. unfold currentPath.
  destruct (last _); [|done]. by intros [= _ <-].
Qed.

Lemma growsVisited_currentHooks (path : string) : growsVisited (currentHooks path).
Proof.
  intros w a w'. unfold currentHooks.
  destruct (smap_get _ _); by intros [= _ <-].
Qed.

Lemma write_slot_visited (path : string) (i : nat) (x : Slot) (w : World) :
  visited (hooks (write_slot path i x w)) = visited (hooks w).
Proof. unfold write_slot. by destruct (smap_get _ _). Qed.

(** The steps of the reconciler that change the document only. *)
Lemma document_pair_step {A : Type} (f : Dom -> A * Dom) (w w' : World) (a : A) :
  (let '(t, dom) := f (document w) in Ok (t, with_document dom w)) = Ok (a, w') ->
  hooks w' = hooks w.
Proof. destruct (f (document w)) as [t dom]. by intros [= _ <-]. Qed.

Lemma document_res_step (g : Dom -> Res Dom) (w w' : World) (u : unit) :
  bindR (g (document w)) (fun dom' => Ok (tt, with_document dom' w)) = Ok (u, w') ->
  hooks w' = hooks w.
Proof. destruct (g (document w)) as [dom'| |]; [|done|done]. by intros [= _ <-]. Qed.

Ltac grows_visited :=
  repeat (first [ apply growsVisited_bind; [|intros ?]
                | apply growsVisited_currentPath
                | apply growsVisited_currentHooks
                | apply growsVisited_gets
                | apply growsVisited_ret
                | apply growsVisited_liftR
                | apply growsVisited_modify; intros ?;
                  first [by rewrite write_slot_visited | done | set_solver]
                | case_match ]).

Lemma useState_growsVisited (E : Fns) (initialValue : JsVal) :
  growsVisited (useState E initialValue).
Proof. unfold useState. grows_visited. Qed.

Lemma useEffect_growsVisited (eff : nat) (depList : JsVal) :
  growsVisited (useEffect eff depList).
Proof. unfold useEffect. grows_visited. Qed.

Section Visited.

Variable E : Env.
Hypothesis Hcomponents : forall f props, growsVisited (fn_component E f props).

Section Body.

Variable rec : nat -> option Instance -> option VNode -> string -> M (option Instance).
Hypothesis Hrec : forall pd inst node path, growsVisited (rec pd inst node path).

Lemma reconcileChildren_loop_growsVisited (pd : nat) (pp : string)
    (olds : list (option Instance)) (news : list VNode) (indices : list nat) :
  forall acc, growsVisited (reconcileChildren_loop E rec pd pp olds news indices acc).
Proof.
  induction indices as [|i rest IH]; intros acc; simpl.
  - apply growsVisited_ret.
  - apply growsVisited_bind; [apply Hrec|intros inst; apply IH].
Qed.

Lemma runComponent_visits (pd : nat) (instance : Instance) (f : nat) (props : Props)
    (path : string) (oldChild : option Instance) (w w' : World) (i : Instance) :
  runComponent E rec pd instance f props path oldChild w = Ok (i, w') ->
  {[path]} ∪ visited (hooks w) ⊆ visited (hooks w').
Proof.
  unfold runComponent. intros H.
  run_bind H. run_bind H. run_bind H. run_bind H. apply ret_Ok in H as [-> ->].
  apply modify_Ok in Hstep as ->. apply modify_Ok in Hstep1 as ->.
  apply Hcomponents in Hstep0. apply Hrec in Hstep2.
  simpl in *. intros q Hq. apply Hstep2, Hstep0.
  apply elem_of_union in Hq as [Hq|Hq]; [by apply elem_of_union_l|by apply elem_of_union_r].
Qed.

Lemma mount_growsVisited (pd : nat) (node : VNode) (path : string) :
  growsVisited (mount E rec pd node path).
Proof.
  destruct node as [type key props]. unfold mount, reconcileChildren. simpl.
  destruct type as [tag| | |f].
  - intros w i w' H. run_bind H. run_bind H. run_bind H. run_bind H.
    apply ret_Ok in H as [-> ->].
    apply modify_Ok in Hstep2 as ->.
    apply reconcileChildren_loop_growsVisited in Hstep1.
    apply (document_pair_step (createElement_dom tag)) in Hstep.
    apply (document_res_step (setDomProps E a props)) in Hstep0.
    simpl. by rewrite <- Hstep, <- Hstep0.
  - intros w i w' H. run_bind H. run_bind H. apply ret_Ok in H as [-> ->].
    apply modify_Ok in Hstep0 as ->.
    apply (document_pair_step (createTextNode _)) in Hstep.
    simpl. by rewrite Hstep.
  - intros w i w' H. run_bind H. apply ret_Ok in H as [-> ->].
    by apply reconcileChildren_loop_growsVisited in Hstep.
  - intros w i w' H. apply runComponent_visits in H.
    by apply union_subseteq in H as [_ H].
Qed.

Lemma update_growsVisited (pd : nat) (instance : Instance) (node : VNode)
    (path : string) :
  growsVisited (update E rec pd instance node path).
Proof.
  destruct node as [type key props],
           instance as [kind dom oldNode children oldKey oldPath].
  unfold update, reconcileChildren. simpl.
  destruct type as [tag| | |f]; simpl.
  - destruct dom as [d|]; [destruct kind|]; try apply growsVisited_ret.
    intros w i w' H. run_bind H. run_bind H. apply ret_Ok in H as [-> ->].
    apply reconcileChildren_loop_growsVisited in Hstep0.
    apply (document_res_step (updateDomProps E d _ props)) in Hstep.
    by rewrite <- Hstep.
  - destruct dom as [d|]; [|apply growsVisited_ret].
    intros w i w' H. run_bind H. apply ret_Ok in H as [-> ->].
    by apply modify_Ok in Hstep as ->.
  - intros w i w' H. run_bind H. apply ret_Ok in H as [-> ->].
    by apply reconcileChildren_loop_growsVisited in Hstep.
  - intros w i w' H. apply runComponent_visits in H.
    by apply union_subseteq in H as [_ H].
Qed.

Lemma reconcile_body_growsVisited (pd : nat) (inst : option Instance)
    (node : option VNode) (path : string) :
  growsVisited (reconcile_body E rec pd inst node path).
Proof.
  unfold reconcile_body. intros w r w' H. destruct node as [n|].
  - destruct inst as [old|].
    + destruct (negb _ || negb _).
      * run_bind H. run_bind H. apply ret_Ok in H as [-> ->].
        apply modify_Ok in Hstep as ->. by apply mount_growsVisited in Hstep0.
      * run_bind H. apply ret_Ok in H as [-> ->]. by apply update_growsVisited in Hstep.
    + run_bind H. apply ret_Ok in H as [-> ->]. by apply mount_growsVisited in Hstep.
  - run_bind H. apply ret_Ok in H as [-> ->]. by apply modify_Ok in Hstep as ->.
Qed.

Lemma reconcile_body_visits_component (pd : nat) (inst : option Instance) (f : nat)
    (key : option string) (props : Props) (path : string) (w w' : World)
    (r : option Instance) :
  reconcile_body E rec pd inst (Some (MkVNode (Fn f) key props)) path w = Ok (r, w') ->
  path ∈ visited (hooks w').
Proof.
  unfold reconcile_body. intros H.
  assert (Hrun : forall instance oldChild w0 i,
             runComponent E rec pd instance f props path oldChild w0 = Ok (i, w') ->
             path ∈ visited (hooks w')).
  { intros instance oldChild w0 i Hrun. apply runComponent_visits in Hrun.
    by apply union_subseteq in Hrun as [Hrun%singleton_subseteq_l _]. }
  destruct inst as [old|].
  - destruct (negb _ || negb _).
    + run_bind H. run_bind H. apply ret_Ok in H as [-> ->]. exact (Hrun _ _ _ _ Hstep0).
    + run_bind H. apply ret_Ok in H as [-> ->].
      destruct old as [kind dom oldNode children oldKey oldPath].
      exact (Hrun _ _ _ _ Hstep).
  - run_bind H. apply ret_Ok in H as [-> ->]. exact (Hrun _ _ _ _ Hstep).
Qed.

End Body.

Lemma reconcile_growsVisited (fuel : nat) :
  forall pd inst node path, growsVisited (reconcile E fuel pd inst node path).
Proof.
  induction fuel as [|fuel IH]; intros pd inst node path; [done|].
  simpl. by apply reconcile_body_growsVisited.
Qed.

End Visited.

Lemma dropPaths_get_other (ps : list string) (w : World) (q : string) :
  q ∉ ps ->
  smap_get q (state (hooks (fold_left dropPath ps w))) = smap_get q (state (hooks w))
  /\ cursor (hooks (fold_left dropPath ps w)) !! q = cursor (hooks w) !! q.
Proof.
  revert w. induction ps as [|p ps IH]; intros w; simpl; [done|].
  intros [Hqp Hq]%not_elem_of_cons.
  destruct (IH (dropPath w p) Hq) as [-> ->].
  destruct (dropPath_state w p) as (-> & -> & _).
  rewrite smap_get_delete, decide_False by done.
  by rewrite lookup_delete_ne.
Qed.

(** X24.  The hooks of a component that a pass has run are not collected.
    Reconciling a component node marks its path as visited, nothing later
    in the pass unmarks it (as long as the component functions themselves
    do not), and the collection keeps the slots and the cursor of a
    visited path. *)
Theorem rendered_component_keeps_its_hooks (E : Env) (fuel : nat) (parentDom : nat)
    (instance : option Instance) (f : nat) (key : option string) (props : Props)
    (path : string) (w w' : World) (r : option Instance) :
  (forall g p, growsVisited (fn_component E g p)) ->
  reconcile E fuel parentDom instance (Some (MkVNode (Fn f) key props)) path w
  = Ok (r, w') ->
  visited (hooks w) ⊆ visited (hooks w')
  /\ path ∈ visited (hooks w')
  /\ smap_get path (state (hooks (cleanupUnusedHooks w')))
     = smap_get path (state (hooks w'))
  /\ cursor (hooks (cleanupUnusedHooks w')) !! path = cursor (hooks w') !! path.
Proof.
  intros Hcomponents H.
  assert (Hgrows : visited (hooks w) ⊆ visited (hooks w'))
    by by apply (reconcile_growsVisited E Hcomponents) in H.
  destruct fuel as [|fuel]; [done|].
  change (reconcile E (S fuel)) with (reconcile_body E (reconcile E fuel)) in H.
  apply reconcile_body_visits_component in H;
    [|done|apply (reconcile_growsVisited E Hcomponents)].
  split; [done|]. split; [done|].
  apply dropPaths_get_other.
  rewrite list_elem_of_In, List.filter_In, negb_true_iff, bool_decide_eq_false. tauto.
Qed.

Lemma mount_attaches_last (E : Env)
    (rec : nat -> option Instance -> option VNode -> string -> M (option Instance))
    (pd : nat) (node : VNode) (path : string) (w w' : World) (i : Instance) (d : nat) :
  mount E rec pd node path w = Ok (i, w') ->
  i_dom i = Some d ->
  d = next_id (document w)
  /\ parentNode (document w') !! d = Some pd
  /\ last (oplog (document w')) = Some (OpAppendChild pd d).
Proof.
  destruct node as [type key props]. unfold mount. simpl. intros H Hdom.
  destruct type as [tag| | |f].
  - run_bind H. run_bind H. run_bind H. run_bind H. apply ret_Ok in H as [-> ->].
    apply modify_Ok in Hstep2 as ->. simpl in Hdom. injection Hdom as ->.
    unfold createElement_dom in Hstep. injection Hstep as <- _.
    simpl. split; [done|]. split; [apply lookup_insert_eq|apply last_snoc].
  - run_bind H. run_bind H. apply ret_Ok in H as [-> ->].
    apply modify_Ok in Hstep0 as ->. simpl in Hdom. injection Hdom as ->.
    unfold createTextNode in Hstep. injection Hstep as <- _.
    simpl. split; [done|]. split; [apply lookup_insert_eq|apply last_snoc].
  - run_bind H. by apply ret_Ok in H as [-> ->].
  - unfold runComponent in H.
    run_bind H. run_bind H. run_bind H. run_bind H. by apply ret_Ok in H as [-> ->].
Qed.

(** X25.  A mounted or replacing widget is built first and attached last.
    When [reconcile] does not update (there is no old instance, or its type
    or key differs), the widget of the returned host or text instance is a
    fresh one, it ends up as a child of the parent widget, and its
    attachment by [appendChild] is the last operation performed: after the
    props and the children, and, for a replacement, at the end of the
    parent rather than at the place of the widget it replaces. *)
Theorem new_widget_is_attached_last (E : Env) (fuel : nat) (parentDom : nat)
    (instance : option Instance) (node : VNode) (path : string) (w w' : World)
    (i : Instance) (d : nat) :
  match instance with
  | None => True
  | Some old =>
      VType_eqb (v_type (i_node old)) (v_type node)
      && key_eqb (v_key (i_node old)) (v_key node) = false
  end ->
  reconcile E fuel parentDom instance (Some node) path w = Ok (Some i, w') ->
  i_dom i = Some d ->
  next_id (document w) <= d
  /\ parentNode (document w') !! d = Some parentDom
  /\ last (oplog (document w')) = Some (OpAppendChild parentDom d).
Proof.
  intros Hnew H Hdom. destruct fuel as [|fuel]; [done|].
  simpl in H. unfold reconcile_body in H.
  destruct instance as [old|].
  - rewrite <- negb_andb, Hnew in H. simpl in H.
    run_bind H. run_bind H. apply ret_Ok in H as [[= ->] ->].
    apply modify_Ok in Hstep as ->.
    destruct (mount_attaches_last _ _ _ _ _ _ _ _ _ Hstep0 Hdom) as (-> & Hparent & Hlast).
    split; [|done]. simpl.
    destruct (remove_nodes_parent parentDom (getDomNodes old) (document w))
      as (_ & _ & _ & Hnext).
    unfold removeInstance_dom. by rewrite Hnext.
  - run_bind H. apply ret_Ok in H as [[= ->] ->].
    destruct (mount_attaches_last _ _ _ _ _ _ _ _ _ Hstep Hdom) as (-> & Hparent & Hlast).
    done.
Qed.

(** ** Idempotence of a second pass *)

Lemma reconcile_update_run (E : Env) (fuel : nat) (pd : nat) (instance : Instance)
    (node : VNode) (path : string) (w : World) :
  i_node instance = node ->
  reconcile E (S fuel) pd (Some instance) (Some node) path w
  = bindM (update E (reconcile E fuel) pd instance node path)
          (fun i => ret (Some i)) w.
Proof.
  intros <-. simpl. unfold reconcile_body.
  by rewrite VType_eqb_refl, key_eqb_refl.
Qed.

Section Replay.

Variable E : Env.
Variable Inv : World -> Prop.
Variable out : string -> nat -> Props -> option VNode.
Hypothesis Hdet : determinedComponents E Inv out.
Hypothesis Hdoc : forall f props, keepsDocument (fn_component E f props).

Lemma determined_call (f : nat) (props : Props) (path : string) (w w1 : World)
    (r : option VNode) :
  Inv w ->
  fn_component E f props (enterComponent path w) = Ok (r, w1) ->
  r = out path f props /\ Inv (leaveComponent w1) /\ document w1 = document w.
Proof.
  intros Hinv Hcall. destruct Hdet as [_ Hcalls].
  destruct (Hcalls f props path w Hinv) as (w' & Hrun & Hinv').
  rewrite Hcall in Hrun. injection Hrun as -> ->.
  split; [done|]. split; [done|]. by apply Hdoc in Hcall.
Qed.

Section Children.

Variable fuel : nat.
Hypothesis IH : forall pd node path w instance w1,
    Inv w ->
    reconcile E fuel pd None (Some node) path w = Ok (Some instance, w1) ->
    Inv w1
    /\ (hostPropsSelfEqual instance = true -> replays E Inv fuel instance node path).

Lemma first_loop_replays (pd : nat) (pp : string) (news : list VNode) :
  forall j k acc w cs w',
    k + j = length news ->
    Inv w ->
    reconcileChildren_loop E (reconcile E fuel) pd pp [] news (seq k j) acc w
    = Ok (cs, w') ->
    Inv w'
    /\ exists tail,
         cs = acc ++ tail
         /\ length tail = j
         /\ forall i c,
              news !! (k + i) = Some c ->
              exists ci,
                tail !! i = Some (Some ci)
                /\ (hostPropsSelfEqual ci = true ->
                    replays E Inv fuel ci c
                            (createChildPath E pp (v_key c) (k + i) (Some (v_type c))
                                             (Some news))).
Proof.
  induction j as [|j IHj]; intros k acc w cs w' Hlen Hinv; cbn [seq reconcileChildren_loop].
  - intros [-> ->]%ret_Ok. split; [done|]. exists []. rewrite app_nil_r.
    split; [done|]. split; [done|].
    intros i c Hc. apply lookup_lt_Some in Hc. lia.
  - intros H. run_bind H.
    destruct (lookup_lt_is_Some_2 news k) as [c Hc]; [lia|].
    unfold childPathAt in Hstep. rewrite Hc in Hstep. simpl in Hstep.
    match type of Hstep with
    | _ = Ok (?r, _) => assert (Hsome : exists ci, r = Some ci)
    end.
    { destruct fuel as [|fuel']; [done|].
      change (reconcile E (S fuel')) with (reconcile_body E (reconcile E fuel')) in Hstep.
      apply reconcile_body_result in Hstep as (ci & -> & _). eauto. }
    destruct Hsome as [ci ->].
    destruct (IH _ _ _ _ _ _ Hinv Hstep) as [Hinv1 Hreplays].
    apply IHj in H as (Hinv' & tail & -> & Htail & Hrest); [|lia|done].
    split; [done|]. exists (Some ci :: tail). rewrite <- app_assoc.
    split; [done|]. split; [simpl; lia|].
    intros [|i] c' Hc'.
    + rewrite Nat.add_0_r in Hc' |- *. rewrite Hc in Hc'. injection Hc' as <-.
      exists ci. by split.
    + replace (k + S i) with (S k + i) in Hc' |- * by lia. by apply Hrest.
Qed.

Lemma second_loop_replays (pd : nat) (pp : string) (cs : list (option Instance))
    (news : list VNode) :
  length cs = length news ->
  (forall i c,
      news !! i = Some c ->
      exists ci,
        cs !! i = Some (Some ci)
        /\ replays E Inv fuel ci c
                   (createChildPath E pp (v_key c) i (Some (v_type c)) (Some news))) ->
  forall j k acc w,
    k + j = length news ->
    Inv w ->
    exists w',
      reconcileChildren_loop E (reconcile E fuel) pd pp cs news (seq k j) acc w
      = Ok (acc ++ drop k cs, w')
      /\ document w'
         = log_ops (flat_map (fun child => match child with
                                           | Some c => textWrites c
                                           | None => []
                                           end) (drop k cs)) (document w)
      /\ Inv w'.
Proof.
  intros Hsame Hchildren.
  induction j as [|j IHj]; intros k acc w Hlen Hinv; cbn [seq reconcileChildren_loop].
  - exists w. rewrite drop_ge by lia. rewrite app_nil_r. simpl.
    by rewrite log_ops_nil.
  - destruct (lookup_lt_is_Some_2 news k) as [c Hc]; [lia|].
    destruct (Hchildren k c Hc) as (ci & Hci & Hreplays).
    destruct (Hreplays pd w Hinv) as (w1 & Hcall & Hdoc1 & Hinv1).
    unfold childPathAt. rewrite Hc, Hci. cbn [mjoin option_join].
    rewrite (bindM_run _ _ _ _ _ Hcall).
    destruct (IHj (S k) (acc ++ [Some ci]) w1) as (w' & Hloop & Hdoc' & Hinv'); [lia|done|].
    exists w'. rewrite Hloop.
    rewrite (drop_S _ _ _ Hci), <- app_assoc. split; [done|]. split; [|done].
    rewrite Hdoc', Hdoc1. simpl. by rewrite log_ops_app.
Qed.

(** The children that a first pass has built are replayed by a second. *)
Lemma children_replay (pd : nat) (pp : string) (news : list VNode)
    (cs : list (option Instance)) (w w1 : World) :
  Inv w ->
  reconcileChildren_loop E (reconcile E fuel) pd pp [] news (seq 0 (length news)) [] w
  = Ok (cs, w1) ->
  Inv w1
  /\ length cs = length news
  /\ (forallb (fun child => match child with
                            | Some c => hostPropsSelfEqual c
                            | None => true
                            end) cs = true ->
      forall pd' w',
        Inv w' ->
        exists w2,
          reconcileChildren_loop E (reconcile E fuel) pd' pp cs news
                                 (seq 0 (length news)) [] w'
          = Ok (cs, w2)
          /\ document w2
             = log_ops (flat_map (fun child => match child with
                                               | Some c => textWrites c
                                               | None => []
                                               end) cs) (document w')
          /\ Inv w2).
Proof.
  intros Hinv Hfirst.
  apply first_loop_replays in Hfirst as (Hinv1 & tail & -> & Hlen & Hrest); [|done|done].
  simpl. split; [done|]. split; [done|].
  intros Hself pd' w' Hinv'.
  destruct (second_loop_replays pd' pp tail news Hlen) with (j := length news) (k := 0)
                                                            (acc := @nil (option Instance))
                                                            (w := w')
    as (w2 & Hloop & Hdoc2 & Hinv2); [|done|done|].
  - intros i c Hc. destruct (Hrest i c Hc) as (ci & Hci & Hreplays).
    exists ci. split; [done|]. apply Hreplays.
    rewrite forallb_forall in Hself. apply (Hself (Some ci)).
    apply list_elem_of_In, list_elem_of_lookup. eauto.
  - exists w2. by rewrite drop_0 in Hloop, Hdoc2.
Qed.

Lemma reconcile_update_result (pd : nat) (instance : Instance) (node : VNode)
    (path : string) (w w2 : World) (i : Instance) :
  i_node instance = node ->
  update E (reconcile E fuel) pd instance node path w = Ok (i, w2) ->
  reconcile E (S fuel) pd (Some instance) (Some node) path w = Ok (Some i, w2).
Proof.
  intros Hnode Hupdate. rewrite reconcile_update_run by done.
  by rewrite (bindM_run _ _ _ _ _ Hupdate).
Qed.

Lemma update_component (rec : nat -> option Instance -> option VNode -> string
                               -> M (option Instance))
    (pd : nat) (instance : Instance) (f : nat) (key : option string) (props : Props)
    (path : string) :
  update E rec pd instance (MkVNode (Fn f) key props) path
  = runComponent E rec pd (set_node_path instance (MkVNode (Fn f) key props) path)
                 f props path
                 (mjoin (i_children (set_node_path instance (MkVNode (Fn f) key props) path)
                         !! 0)).
Proof. done. Qed.

(** The second call of a component: what it returns and where it leaves
    the world. *)
Lemma runComponent_again (pd : nat) (instance : Instance) (f : nat) (props : Props)
    (path : string) (oldChild : option Instance) (w' : World) :
  Inv w' ->
  exists wc,
    runComponent E (reconcile E fuel) pd instance f props path oldChild w'
    = bindM (reconcile E fuel pd oldChild (out path f props)
                       (createChildPath E path None 0 (v_type <$> out path f props)
                                        (Some (option_list (out path f props)))))
            (fun childInstance => ret (set_children instance (child_list childInstance)))
            (leaveComponent wc)
    /\ document wc = document w'
    /\ Inv (leaveComponent wc).
Proof.
  intros Hinv'. destruct Hdet as [_ Hcalls].
  destruct (Hcalls f props path w' Hinv') as (wc & Hcall & Hinvc).
  exists wc. split; [|split; [|done]].
  - unfold runComponent.
    rewrite (bindM_run _ _ _ (enterComponent path w') tt eq_refl).
    rewrite (bindM_run _ _ _ _ _ Hcall).
    by rewrite (bindM_run _ _ _ (leaveComponent wc) tt eq_refl).
  - by apply Hdoc in Hcall.
Qed.

Lemma first_pass_replays_step :
  forall pd node path w instance w1,
    Inv w ->
    reconcile E (S fuel) pd None (Some node) path w = Ok (Some instance, w1) ->
    Inv w1
    /\ (hostPropsSelfEqual instance = true ->
        replays E Inv (S fuel) instance node path).
Proof.
  intros pd node path w instance w1 Hinv H.
  pose proof Hdet as [Hdocument _].
  simpl in H. unfold reconcile_body in H.
  run_bind H. apply ret_Ok in H as [[= ->] ->].
  destruct node as [type key props]. unfold mount in Hstep. simpl in Hstep.
  destruct type as [tag| | |f].
  - (* host *)
    run_bind Hstep. run_bind Hstep. run_bind Hstep. run_bind Hstep.
    apply ret_Ok in Hstep as [-> ->]. apply modify_Ok in Hstep3 as ->.
    unfold createElement_dom in Hstep0. injection Hstep0 as <- <-.
    destruct (setDomProps E (next_id (document w)) props _) as [dom2| |] eqn:Hprops;
      [|done|done].
    simpl in Hstep1. injection Hstep1 as _ <-.
    unfold reconcileChildren in Hstep2. simpl in Hstep2.
    apply children_replay in Hstep2 as (Hinv1 & Hlen & Hsecond);
      [|by do 2 apply Hdocument].
    split; [by apply Hdocument|].
    simpl. intros [Hself Hchildren]%andb_true_iff pd' w' Hinv'.
    destruct (Hsecond Hchildren (next_id (document w)) (with_document (document w') w'))
      as (wr & Hloop & Hdoc2 & Hinv2); [by apply Hdocument|].
    exists wr. split; [|split; [|done]].
    + apply reconcile_update_result; [done|].
      unfold update, reconcileChildren. simpl.
      rewrite (bindM_run _ _ w' _ tt
                 (document_res_run (updateDomProps E _ _ _) w' (document w')
                                   (updateDomProps_same E _ props (document w') Hself))).
      rewrite Hlen, Nat.max_id.
      by rewrite (bindM_run _ _ _ _ _ Hloop).
    + by rewrite Hdoc2.
  - (* text *)
    run_bind Hstep. run_bind Hstep. apply ret_Ok in Hstep as [-> ->].
    apply modify_Ok in Hstep1 as ->.
    unfold createTextNode in Hstep0. injection Hstep0 as <- <-.
    split; [by do 2 apply Hdocument|].
    intros _ pd' w' Hinv'.
    eexists. split; [|split].
    + apply reconcile_update_result; [done|]. reflexivity.
    + done.
    + by apply Hdocument.
  - (* fragment *)
    run_bind Hstep. apply ret_Ok in Hstep as [-> ->].
    unfold reconcileChildren in Hstep0. simpl in Hstep0.
    apply children_replay in Hstep0 as (Hinv1 & Hlen & Hsecond); [|done].
    split; [done|].
    simpl. intros Hchildren pd' w' Hinv'.
    destruct (Hsecond Hchildren pd' w' Hinv') as (wr & Hloop & Hdoc2 & Hinv2).
    exists wr. split; [|by split].
    apply reconcile_update_result; [done|].
    unfold update, reconcileChildren. simpl.
    rewrite Hlen, Nat.max_id.
    by rewrite (bindM_run _ _ _ _ _ Hloop).
  - (* component *)
    unfold runComponent in Hstep.
    run_bind Hstep. run_bind Hstep. run_bind Hstep. run_bind Hstep.
    apply ret_Ok in Hstep as [-> ->].
    apply modify_Ok in Hstep0 as ->. apply modify_Ok in Hstep2 as ->.
    apply determined_call in Hstep1 as (-> & Hinv1 & Hdoc1); [|done].
    destruct (out path f props) as [child|] eqn:Hout; simpl in Hstep3.
    + match type of Hstep3 with
      | _ = Ok (?r, _) => assert (Hsome : exists ci, r = Some ci)
      end.
      { destruct fuel as [|fuel']; [done|].
        change (reconcile E (S fuel')) with (reconcile_body E (reconcile E fuel'))
          in Hstep3.
        apply reconcile_body_result in Hstep3 as (ci & -> & _). eauto. }
      destruct Hsome as [ci ->].
      destruct (IH _ _ _ _ _ _ Hinv1 Hstep3) as [Hinv3 Hreplays].
      split; [done|].
      simpl. rewrite andb_true_r. intros Hself pd' w' Hinv'.
      destruct (runComponent_again pd'
                  (set_node_path (MkInstance COMPONENT None (MkVNode (Fn f) key props)
                                             [Some ci] key path)
                                 (MkVNode (Fn f) key props) path)
                  f props path (Some ci) w' Hinv')
        as (wc & Hcall & Hdocc & Hinvc).
      destruct (Hreplays Hself pd' (leaveComponent wc) Hinvc) as (wr & Hrun & Hdoc2 & Hinv2).
      exists wr. split; [|split; [|done]].
      * apply reconcile_update_result; [done|].
        rewrite update_component. etransitivity; [exact Hcall|]. rewrite Hout.
        erewrite bindM_run; [|exact Hrun]. reflexivity.
      * rewrite Hdoc2. cbn [textWrites v_type flat_map]. rewrite app_nil_r.
        simpl. by rewrite Hdocc.
    + assert (Hfuel : fuel <> 0) by (intros ->; done).
      rewrite (unmount_run E fuel pd None _ _ Hfuel) in Hstep3.
      injection Hstep3 as <- <-.
      split; [by apply Hdocument|].
      simpl. intros _ pd' w' Hinv'.
      destruct (runComponent_again pd'
                  (set_node_path (MkInstance COMPONENT None (MkVNode (Fn f) key props)
                                             [] key path)
                                 (MkVNode (Fn f) key props) path)
                  f props path None w' Hinv')
        as (wc & Hcall & Hdocc & Hinvc).
      eexists. split; [|split].
      * apply reconcile_update_result; [done|].
        rewrite update_component. etransitivity; [exact Hcall|]. rewrite Hout.
        rewrite (bindM_run _ _ _ _ _ (unmount_run E fuel pd' None _ _ Hfuel)).
        reflexivity.
      * simpl. rewrite Hdocc. by rewrite log_ops_nil.
      * by apply Hdocument.
Qed.

End Children.

Lemma first_pass_replays (fuel : nat) :
  forall pd node path w instance w1,
    Inv w ->
    reconcile E fuel pd None (Some node) path w = Ok (Some instance, w1) ->
    Inv w1
    /\ (hostPropsSelfEqual instance = true -> replays E Inv fuel instance node path).
Proof.
  induction fuel as [|fuel IH]; [done|]. by apply first_pass_replays_step.
Qed.

End Replay.

(** ** The components of the examples are determined *)

Lemma Counter_determined (count : string -> Z) :
  determinedComponents Counter.env (Counter.Inv count) (Counter.out count).
Proof.
  split; [intros dom w Hinv; exact Hinv|].
  intros f props path w Hinv.
  destruct f as [|f]; [|by exists (enterComponent path w)].
  pose proof (Hinv path) as Hpath.
  cbn [fn_component Counter.env Counter.out]. unfold Counter.Counter, useState.
  unfold bindM at 1 2. unfold currentPath at 1.
  cbn [hooks enterComponent with_hooks componentStack].
  rewrite last_snoc.
  unfold bindM at 1. unfold currentCursor, gets at 1.
  cbn [hooks enterComponent with_hooks cursor].
  rewrite lookup_insert_eq. cbn [default].
  unfold bindM at 1. unfold currentHooks at 1.
  cbn [hooks enterComponent with_hooks state].
  destruct (smap_get path (state (hooks w))) as [slots|] eqn:Hget.
  - unfold slot_at at 1. change (id 0) with 0. rewrite Hpath.
    unfold bindM, ret, gets, modify. cbn [default is_undefined id]. cbv beta.
    change (state (hooks (enterComponent path w))) with (state (hooks w)).
    rewrite Hget. cbn [default id]. unfold slot_at. rewrite Hpath.
    cbn [default id fst Counter.shown].
    eexists. split; [reflexivity|]. exact Hinv.
  - change (id 0) with 0.
    unfold bindM, ret, gets, modify, write_slot.
    cbn [slot_at lookup list_lookup default is_undefined id]. cbv beta.
    change (state (hooks (with_state ?s (enterComponent path w)))) with s.
    rewrite !smap_get_set, !decide_True by done.
    change (state (hooks (with_state ?s ?w0))) with s.
    rewrite !smap_get_set, !decide_True by done.
    cbn [default id slot_at write_at length Nat.ltb Nat.leb Nat.sub replicate app
         lookup list_lookup fst Counter.shown].
    rewrite Hpath.
    eexists. split; [reflexivity|].
    intros q. cbn [hooks leaveComponent with_cursor with_state with_hooks state].
    rewrite !smap_get_set. case_decide as Hq; [subst q; by rewrite Hpath|].
    apply Hinv.
Qed.

Lemma Counter_keepsDocument (f : nat) (props : Props) :
  keepsDocument (fn_component Counter.env f props).
Proof.
  destruct f as [|f]; [|apply keepsDocument_ret].
  apply keepsDocument_bind; [apply useState_keepsDocument|].
  intros r. apply keepsDocument_ret.
Qed.

Lemma Counter_world_Inv : Counter.Inv Counter.count Counter.world.
Proof.
  intros path. unfold Counter.count.
  destruct (String.eqb path "") eqn:Hpath.
  - apply String.eqb_eq in Hpath as ->. reflexivity.
  - unfold smap_get. cbn [Counter.world hooks state assoc_get].
    rewrite String.eqb_sym, Hpath. reflexivity.
Qed.

(** ** Idempotence of reconciliation *)

(** The text writes of an instance tree are those of its text widgets. *)
Lemma textWrites_textUnder (instance : Instance) (op : DomOp) :
  op ∈ textWrites instance
  <-> exists d text, op = OpSetNodeValue d text /\ textUnder instance d text.
Proof.
  split.
  - revert op.
    induction instance as [kind dom node children key path IH] using Instance_nested_ind.
    intros op Hop.
    assert (Hchildren :
              op ∈ flat_map (fun child => match child with
                                           | Some c => textWrites c
                                           | None => []
                                           end) children ->
              v_type node <> TEXT_ELEMENT ->
              exists d text,
                op = OpSetNodeValue d text
                /\ textUnder (MkInstance kind dom node children key path) d text).
    { intros Hin Htype.
      apply list_elem_of_In, in_flat_map in Hin as (child & Hchild & Hin).
      apply list_elem_of_In in Hchild, Hin.
      destruct child as [c|]; [|by apply elem_of_nil in Hin].
      rewrite Forall_forall in IH.
      destruct (IH (Some c) Hchild op Hin) as (d & text & -> & Hunder).
      exists d, text. split; [done|]. by apply (textUnder_child _ c). }
    simpl in Hop. destruct (v_type node) eqn:Htype; try (by apply Hchildren).
    destruct dom as [d|]; [|by apply elem_of_nil in Hop].
    apply elem_of_cons in Hop as [->|Hop%elem_of_nil]; [|done].
    eexists _, _. split; [done|].
    by apply (textUnder_here (MkInstance kind (Some d) node children key path)).
  - intros (d & text & -> & Hunder).
    induction Hunder as [instance d Htype Hdom|instance child d text Htype Hchild _ IH].
    + destruct instance as [kind dom node children key path]. simpl in *.
      rewrite Htype, Hdom. left.
    + destruct instance as [kind dom node children key path]. simpl in *.
      assert (Hin : OpSetNodeValue d text
                    ∈ flat_map (fun child => match child with
                                               | Some c => textWrites c
                                               | None => []
                                               end) children).
      { apply list_elem_of_In, in_flat_map. exists (Some child).
        split; by apply list_elem_of_In. }
      by destruct (v_type node).
Qed.


(** The second pass does write a prop whose value is NaN: NaN differs from
    itself, so [updateDomProps] takes the prop for a changed one. *)
Lemma second_pass_rewrites_NaN_prop :
  let node := Ex.div [("title", VNum NaN)] [] in
  exists instance w1 w2,
    reconcile Ex.env 2 0 None (Some node) "" (Ex.world None) = Ok (Some instance, w1)
    /\ hostPropsSelfEqual instance = false
    /\ reconcile Ex.env 2 0 (Some instance) (Some node) "" w1 = Ok (Some instance, w2)
    /\ oplog (document w2)
       = oplog (document w1) ++ [OpSetAttribute 1 "title" (VNum NaN)].
Proof.
  do 3 eexists. split; [by vm_compute|]. split; [by vm_compute|].
  split; by vm_compute.
Qed.

(** ** The four cases of [reconcile] *)

(** The steps of mounting a host node: the element is created, its props
    are set, its children are reconciled into it, and it is attached. *)
Lemma mount_host_steps (E : Env)
    (rec : nat -> option Instance -> option VNode -> string -> M (option Instance))
    (pd : nat) (node : VNode) (path : string) (w w' : World) (i : Instance)
    (tag : string) :
  v_type node = Host tag ->
  mount E rec pd node path w = Ok (i, w') ->
  let d := next_id (document w) in
  exists dom1 children w2,
    setDomProps E d (v_props node) (snd (createElement_dom tag (document w))) = Ok dom1
    /\ reconcileChildren E rec d (MkInstance HOST (Some d) node [] (v_key node) path)
                         (children_or_empty (v_props node)) (with_document dom1 w)
       = Ok (children, w2)
    /\ i = MkInstance HOST (Some d) node children (v_key node) path
    /\ w' = with_document (appendChild pd d (document w2)) w2.
Proof.
  intros Htag H. unfold mount in H. rewrite Htag in H.
  run_bind H. run_bind H. run_bind H. run_bind H. apply ret_Ok in H as [-> ->].
  apply modify_Ok in Hstep2 as ->.
  unfold createElement_dom in Hstep. injection Hstep as <- <-.
  cbn [document with_document] in Hstep0.
  destruct (setDomProps E _ _ _) as [dom1| |] eqn:Hprops; try done.
  injection Hstep0 as _ <-.
  exists dom1, a1, w2. by repeat split.
Qed.

(** The steps of updating a host instance: the changed props are written
    to its widget, and its children are reconciled into it. *)
Lemma update_host_steps (E : Env)
    (rec : nat -> option Instance -> option VNode -> string -> M (option Instance))
    (pd : nat) (instance : Instance) (node : VNode) (path : string) (w w' : World)
    (i : Instance) (tag : string) (d : nat) :
  v_type node = Host tag ->
  i_dom instance = Some d ->
  i_kind instance = HOST ->
  update E rec pd instance node path w = Ok (i, w') ->
  exists dom1 children,
    updateDomProps E d (v_props (i_node instance)) (v_props node) (document w) = Ok dom1
    /\ reconcileChildren E rec d (set_node_path instance node path)
                         (children_or_empty (v_props node)) (with_document dom1 w)
       = Ok (children, w')
    /\ i = MkInstance HOST (Some d) node children (i_key instance) path.
Proof.
  intros Htag Hdom Hkind H. unfold update in H. rewrite Htag in H.
  destruct instance as [kind dom oldNode oldChildren oldKey oldPath].
  simpl in Hdom, Hkind. subst dom kind.
  cbn [VType_eqb set_node_path i_dom i_kind i_node] in H.
  run_bind H. run_bind H. apply ret_Ok in H as [-> ->].
  destruct (updateDomProps E _ _ _ _) as [dom1| |] eqn:Hprops; try done.
  injection Hstep as _ <-.
  exists dom1, a0. by repeat split.
Qed.

(** The steps of a component instance, mounted or updated: its function
    is called under the hook-store protocol, and the node it returns is
    reconciled against the old child. *)
Lemma runComponent_steps (E : Env)
    (rec : nat -> option Instance -> option VNode -> string -> M (option Instance))
    (pd : nat) (instance : Instance) (f : nat) (props : Props) (path : string)
    (oldChild : option Instance) (w w' : World) (i : Instance) :
  runComponent E rec pd instance f props path oldChild w = Ok (i, w') ->
  exists childNode w1 childInstance,
    fn_component E f props (enterComponent path w) = Ok (childNode, w1)
    /\ rec pd oldChild childNode
           (createChildPath E path None 0 (v_type <$> childNode)
                            (Some (option_list childNode)))
           (leaveComponent w1)
       = Ok (childInstance, w')
    /\ i = set_children instance (child_list childInstance).
Proof.
  unfold runComponent. intros H.
  run_bind H. run_bind H. run_bind H. run_bind H. apply ret_Ok in H as [-> ->].
  apply modify_Ok in Hstep as ->. apply modify_Ok in Hstep1 as ->.
  by exists a0, w1, a2.
Qed.

(** C1.  The four cases of [reconcile], by their effects.

    Unmount (null node): the call returns null; every platform widget
    under the instance is detached from the parent widget, by one
    [removeChild] for each of them that was a child of it, and nothing else
    changes; without an instance nothing changes at all.

    Mount (no instance): the result is a new instance for the node, at the
    given path; for a host or text node it has a fresh widget, which ends
    up attached to the parent widget by the last operation; a text node is
    mounted by creating its widget and attaching it; a host node by
    creating the element, setting its props, reconciling its children into
    it and attaching it; a fragment by reconciling its children into the
    parent widget; a component by calling its function and reconciling the
    node it returns.

    Replace (type or key differs): the old instance is unmounted, then the
    node is mounted.

    Update (same type and key): the result is the old instance with its
    widget, kind and key, now carrying the new node and path; a text
    instance has its text written; a host instance has its changed props
    written and its children reconciled into its widget; a fragment has
    its children reconciled; a component has its function called and the
    node it returns reconciled against its old child.

    A node whose tree unfolds within the fuel is reconciled in each of the
    three cases with a node: the call returns an instance. *)
Theorem reconcile_dispatch (E : Env) (fuel : nat) (parentDom : nat) (path : string)
    (w : World) :
  (forall instance,
      exists w',
        reconcile E (S fuel) parentDom instance None path w = Ok (None, w')
        /\ w' = with_document (document w') w
        /\ next_id (document w') = next_id (document w)
        /\ tagName (document w') = tagName (document w)
        /\ (instance = None -> w' = w)
        /\ (forall i d, instance = Some i -> topWidget i d ->
                        parentNode (document w') !! d <> Some parentDom)
        /\ (forall i d, instance = Some i -> ~ topWidget i d ->
                        parentNode (document w') !! d = parentNode (document w) !! d)
        /\ exists ops,
             oplog (document w') = oplog (document w) ++ ops
             /\ forall op,
                  op ∈ ops <->
                  exists i d,
                    instance = Some i /\ op = OpRemoveChild parentDom d
                    /\ topWidget i d
                    /\ parentNode (document w) !! d = Some parentDom)
  /\ (forall node r w',
        reconcile E (S fuel) parentDom None (Some node) path w = Ok (r, w') ->
        exists i,
          r = Some i /\ i_node i = node /\ i_path i = path /\ i_key i = v_key node
          /\ i_kind i = kindOf (v_type node)
          /\ match v_type node with
             | TEXT_ELEMENT =>
                 let d := next_id (document w) in
                 let text := or_else (prop (v_props node) "nodeValue") (VStr "") in
                 i_dom i = Some d /\ i_children i = []
                 /\ w' = with_document
                           (appendChild parentDom d
                              (snd (createTextNode text (document w)))) w
             | Host tag =>
                 let d := next_id (document w) in
                 i_dom i = Some d
                 /\ parentNode (document w') !! d = Some parentDom
                 /\ last (oplog (document w')) = Some (OpAppendChild parentDom d)
                 /\ exists dom1 w2,
                      setDomProps E d (v_props node)
                                  (snd (createElement_dom tag (document w))) = Ok dom1
                      /\ reconcileChildren
                           E (reconcile E fuel) d
                           (MkInstance HOST (Some d) node [] (v_key node) path)
                           (children_or_empty (v_props node)) (with_document dom1 w)
                         = Ok (i_children i, w2)
                      /\ w' = with_document (appendChild parentDom d (document w2)) w2
             | Fragment =>
                 i_dom i = None
                 /\ reconcileChildren
                      E (reconcile E fuel) parentDom
                      (MkInstance FRAGMENT None node [] (v_key node) path)
                      (children_or_empty (v_props node)) w
                    = Ok (i_children i, w')
             | Fn f =>
                 i_dom i = None
                 /\ exists childNode w1 childInstance,
                      fn_component E f (v_props node) (enterComponent path w)
                      = Ok (childNode, w1)
                      /\ reconcile E fuel parentDom None childNode
                                   (createChildPath E path None 0 (v_type <$> childNode)
                                                    (Some (option_list childNode)))
                                   (leaveComponent w1)
                         = Ok (childInstance, w')
                      /\ i_children i = child_list childInstance
             end)
  /\ (forall node,
        v_type node = TEXT_ELEMENT ->
        exists i w',
          reconcile E (S fuel) parentDom None (Some node) path w = Ok (Some i, w')
          /\ oplog (document w')
             = oplog (document w)
               ++ [OpCreateTextNode (next_id (document w))
                                    (or_else (prop (v_props node) "nodeValue") (VStr ""));
                   OpAppendChild parentDom (next_id (document w))]
          /\ parentNode (document w') !! next_id (document w) = Some parentDom)
  /\ (forall instance node,
        v_type (i_node instance) <> v_type node
        \/ v_key (i_node instance) <> v_key node ->
        reconcile E (S fuel) parentDom (Some instance) (Some node) path w
        = bindM (reconcile E (S fuel) parentDom (Some instance) None path)
                (fun _ => reconcile E (S fuel) parentDom None (Some node) path) w)
  /\ (forall instance node r w',
        v_type (i_node instance) = v_type node ->
        v_key (i_node instance) = v_key node ->
        reconcile E (S fuel) parentDom (Some instance) (Some node) path w = Ok (r, w') ->
        exists children,
          r = Some (MkInstance (i_kind instance) (i_dom instance) node children
                               (i_key instance) path)
          /\ match v_type node with
             | TEXT_ELEMENT =>
                 forall d,
                   i_dom instance = Some d ->
                   children = i_children instance
                   /\ w' = with_document
                             (log_op (OpSetNodeValue
                                        d (or_else (prop (v_props node) "nodeValue")
                                                   (VStr "")))
                                     (document w)) w
             | Host _ =>
                 forall d,
                   i_dom instance = Some d ->
                   i_kind instance = HOST ->
                   exists dom1,
                     updateDomProps E d (v_props (i_node instance)) (v_props node)
                                    (document w) = Ok dom1
                     /\ reconcileChildren
                          E (reconcile E fuel) d (set_node_path instance node path)
                          (children_or_empty (v_props node)) (with_document dom1 w)
                        = Ok (children, w')
             | Fragment =>
                 reconcileChildren
                   E (reconcile E fuel) parentDom (set_node_path instance node path)
                   (children_or_empty (v_props node)) w
                 = Ok (children, w')
             | Fn f =>
                 exists childNode w1 childInstance,
                   fn_component E f (v_props node) (enterComponent path w)
                   = Ok (childNode, w1)
                   /\ reconcile E fuel parentDom (mjoin (i_children instance !! 0))
                                childNode
                                (createChildPath E path None 0 (v_type <$> childNode)
                                                 (Some (option_list childNode)))
                                (leaveComponent w1)
                      = Ok (childInstance, w')
                   /\ children = child_list childInstance
             end)
  /\ (forall instance node d,
        v_type (i_node instance) = v_type node ->
        v_key (i_node instance) = v_key node ->
        v_type node = TEXT_ELEMENT ->
        i_dom instance = Some d ->
        exists w',
          reconcile E (S fuel) parentDom (Some instance) (Some node) path w
          = Ok (Some (set_node_path instance node path), w')
          /\ oplog (document w')
             = oplog (document w)
               ++ [OpSetNodeValue d (or_else (prop (v_props node) "nodeValue")
                                             (VStr ""))])
  /\ (forall Inv out instance node,
        determinedComponents E Inv out ->
        expands E out (S fuel) node path = true ->
        Inv w ->
        exists i w',
          reconcile E (S fuel) parentDom instance (Some node) path w = Ok (Some i, w')).
Proof.
  repeat split_and.
  - intros instance.
    exists (with_document (removeInstance_dom parentDom instance (document w)) w).
    split; [by apply unmount_run|]. split; [done|].
    cbn [document with_document]. destruct instance as [i|]; cbn [removeInstance_dom].
    + destruct (remove_nodes_parent parentDom (getDomNodes i) (document w))
        as (_ & Hgone & Hkept & Hnext).
      destruct (remove_nodes_log parentDom (getDomNodes i) (document w))
        as (Htag & ops & Hlog & Hops).
      split; [exact Hnext|]. split; [exact Htag|]. split; [done|].
      split; [intros i' d [= <-] Htop; by apply Hgone, getDomNodes_topWidget|].
      split; [intros i' d [= <-] Hnot; apply Hkept; by rewrite getDomNodes_topWidget|].
      exists ops. split; [exact Hlog|].
      intros op. rewrite Hops. split.
      * intros (d & -> & Hd & Hparent). exists i, d.
        by rewrite <- getDomNodes_topWidget.
      * intros (i' & d & [= <-] & -> & Htop & Hparent). exists d.
        by rewrite getDomNodes_topWidget.
    + split; [done|]. split; [done|]. split; [by destruct w|].
      split; [done|]. split; [done|].
      exists []. split; [by rewrite app_nil_r|].
      intros op. split; [by intros ?%elem_of_nil|by intros (? & ? & ? & _)].
  - intros node r w' H.
    change (reconcile E (S fuel)) with (reconcile_body E (reconcile E fuel)) in H.
    unfold reconcile_body in H. run_bind H. apply ret_Ok in H as [-> ->].
    pose proof (mount_result _ _ _ _ _ _ _ _ Hstep) as (Hnode & Hpath & Hkey & Hkind & _).
    exists a. do 5 (split; [done|]).
    destruct (v_type node) as [tag| | |f] eqn:Htype.
    + destruct (mount_host_steps _ _ _ _ _ _ _ _ tag Htype Hstep)
        as (dom1 & children & w2 & Hprops & Hchildren & Hinstance & Hworld).
      assert (Hdom : i_dom a = Some (next_id (document w))) by by subst a.
      destruct (mount_attaches_last _ _ _ _ _ _ _ _ _ Hstep Hdom) as (_ & Hparent & Hlast).
      cbv zeta. split; [done|]. split; [done|]. split; [done|].
      exists dom1, w2. split; [done|]. split; [by subst a|done].
    + unfold mount in Hstep. rewrite Htype in Hstep.
      run_bind Hstep. run_bind Hstep. apply ret_Ok in Hstep as [-> ->].
      apply modify_Ok in Hstep1 as ->.
      unfold createTextNode in Hstep0. injection Hstep0 as <- <-.
      by repeat split.
    + unfold mount in Hstep. rewrite Htype in Hstep.
      run_bind Hstep. by apply ret_Ok in Hstep as [-> ->].
    + unfold mount in Hstep. rewrite Htype in Hstep.
      apply runComponent_steps in Hstep
        as (childNode & w1 & childInstance & Hcall & Hchild & ->).
      split; [done|]. by exists childNode, w1, childInstance.
  - intros node Htype.
    change (reconcile E (S fuel)) with (reconcile_body E (reconcile E fuel)).
    unfold reconcile_body, mount. rewrite Htype.
    eexists _, _. split; [reflexivity|].
    cbn [document with_document appendChild createTextNode snd oplog parentNode].
    split; [by rewrite <- app_assoc|]. apply lookup_insert_eq.
  - intros instance node Hdiffers.
    change (reconcile E (S fuel)) with (reconcile_body E (reconcile E fuel)).
    unfold reconcile_body.
    assert (negb (VType_eqb (v_type (i_node instance)) (v_type node))
            || negb (key_eqb (v_key (i_node instance)) (v_key node)) = true) as ->.
    { apply orb_true_iff. destruct Hdiffers as [Hd|Hd]; [left|right];
        apply negb_true_iff, not_true_is_false; intros Heq; apply Hd.
      - by apply VType_eqb_eq.
      - by apply key_eqb_eq. }
    reflexivity.
  - intros instance node r w' Htype Hkey H.
    change (reconcile E (S fuel)) with (reconcile_body E (reconcile E fuel)) in H.
    unfold reconcile_body in H.
    rewrite Htype, Hkey, VType_eqb_refl, key_eqb_refl in H. cbn [negb orb] in H.
    run_bind H. apply ret_Ok in H as [-> ->].
    pose proof (update_result _ _ _ _ _ _ _ _ _ Hstep)
      as (Hnode & Hpath & Hdom & Hkind & Hkeep).
    exists (i_children a). split.
    { destruct a; simpl in *; by subst. }
    destruct (v_type node) as [tag| | |f] eqn:Hnodetype.
    + intros d Hd Hhost.
      destruct (update_host_steps _ _ _ _ _ _ _ _ _ tag d Hnodetype Hd Hhost Hstep)
        as (dom1 & children & Hprops & Hchildren & ->).
      by exists dom1.
    + intros d Hd.
      unfold update in Hstep. rewrite Hnodetype in Hstep.
      destruct instance as [kind dom oldNode oldChildren oldKey oldPath].
      simpl in Hd. subst dom.
      cbn [VType_eqb set_node_path i_dom i_kind i_node] in Hstep.
      run_bind Hstep. apply ret_Ok in Hstep as [-> ->].
      by apply modify_Ok in Hstep0 as ->.
    + unfold update in Hstep. rewrite Hnodetype in Hstep.
      run_bind Hstep. apply ret_Ok in Hstep as [-> ->].
      by destruct instance.
    + unfold update in Hstep. rewrite Hnodetype in Hstep.
      apply runComponent_steps in Hstep
        as (childNode & w1 & childInstance & Hcall & Hchild & ->).
      exists childNode, w1, childInstance.
      split; [done|]. split; [by destruct instance|by destruct instance].
  - intros instance node d Htype Hkey Htext Hdom.
    change (reconcile E (S fuel)) with (reconcile_body E (reconcile E fuel)).
    unfold reconcile_body.
    rewrite Htype, Hkey, VType_eqb_refl, key_eqb_refl. cbn [negb orb].
    unfold update. rewrite Htext.
    destruct instance as [kind dom oldNode oldChildren oldKey oldPath].
    simpl in Hdom. subst dom.
    cbn [VType_eqb set_node_path i_dom i_kind i_node].
    eexists. split; reflexivity.
  - intros Inv out instance node Hdet Hexp Hinv.
    destruct (reconcile_returns E Inv out Hdet (S fuel) node path parentDom instance w
                                Hexp Hinv) as (i & w' & Hrun & _).
    by exists i, w'.
Qed.


Lemma reconcile_dispatch_witness :
  let text := MkInstance TEXT (Some 1) (Ex.text "a") [] None ".i0" in
  let instance :=
    MkInstance FRAGMENT None (MkVNode Fragment None (MkProps None [])) [Some text]
               None "" in
  let w := with_document (MkDom 2 {[1 := 0]} ∅ []) (Ex.world None) in
  (exists w',
      reconcile Ex.env 1 0 (Some instance) None "" w = Ok (None, w')
      /\ parentNode (document w') !! 1 <> Some 0)
  /\ exists i w',
       reconcile Counter.env 4 0 None (Some (Ex.component 0)) "" Counter.world
       = Ok (Some i, w').
Proof.
  intros text instance w. split.
  - destruct (reconcile_dispatch Ex.env 0 0 "" w) as (Hunmount & _).
    destruct (Hunmount (Some instance)) as (w' & Hrun & _ & _ & _ & _ & Hgone & _).
    exists w'. split; [exact Hrun|]. apply (Hgone instance 1 eq_refl).
    apply (topWidget_child instance text); [reflexivity|left|].
    by apply topWidget_own.
  - destruct (reconcile_dispatch Counter.env 3 0 "" Counter.world)
      as (_ & _ & _ & _ & _ & _ & Hreturns).
    apply (Hreturns (Counter.Inv Counter.count) (Counter.out Counter.count) None
                    (Ex.component 0) (Counter_determined Counter.count)).
    + vm_compute. reflexivity.
    + exact Counter_world_Inv.
Defined.

(** ** The deferred effect flush *)

(** C6.  When the pass of [render] has returned, the queue that the pass
    has filled is handed, as it is, to one new deferred task, and the live
    queue is emptied: the next pass starts from an empty queue, and its
    task holds what that pass queues and nothing of this one.  The task
    runs its own entries in order, whatever the live queue holds by then,
    and leaves the live queue alone.  For an entry whose slot is a live
    effect slot, the stored cleanup (if any) is called, then the effect,
    and what the effect returns (or null) becomes the new cleanup; an entry
    whose slot is gone is skipped.  The pass returns, and [render] with it,
    when the root node unfolds within the fuel. *)
Theorem effect_flush_uses_snapshot (E : Env) :
  (forall fuel w instance w1,
      reconcile E fuel (root_container w) (root_instance w) (root_node w) ""
                (resetHooks w) = Ok (instance, w1) ->
      exists w',
        render E fuel w = Ok (tt, w')
        /\ effects_queue w' = []
        /\ microtasks w'
           = microtasks w1 ++ match effects_queue w1 with
                              | [] => []
                              | _ :: _ => [TaskEffects (effects_queue w1)]
                              end
        /\ root_instance w' = instance
        /\ document w' = document w1)
  /\ (forall fuel effectsToRun w,
        runTask E fuel (TaskEffects effectsToRun) w
        = Ok (tt, flushEffects E effectsToRun w)
        /\ effects_queue (flushEffects E effectsToRun w) = effects_queue w
        /\ microtasks (flushEffects E effectsToRun w) = microtasks w)
  /\ (forall entry rest w,
        flushEffects E [] w = w
        /\ flushEffects E (entry :: rest) w = flushEffects E rest (runEffect E w entry))
  /\ (forall w path cur slots hook,
        smap_get path (state (hooks w)) = Some slots ->
        slots !! cur = Some (HEffect hook) ->
        let w' := runEffect E w (path, cur) in
        invoked w' = invoked w ++ option_list (cleanup hook) ++ [effect hook]
        /\ smap_get path (state (hooks w'))
           = Some (<[cur := HEffect (MkEffectHook (deps hook)
                                                  (effect_returns E (effect hook))
                                                  (effect hook))]> slots))
  /\ (forall w path cur,
        smap_get path (state (hooks w)) ≫= (fun slots => slots !! cur) = None ->
        runEffect E w (path, cur) = w)
  /\ (forall Inv out fuel w,
        determinedComponents E Inv out ->
        Inv (resetHooks w) ->
        match root_node w with
        | Some node => expands E out fuel node "" = true
        | None => fuel <> 0
        end ->
        exists w', render E fuel w = Ok (tt, w')).
Proof.
  assert (Hrender :
            forall fuel w instance w1,
              reconcile E fuel (root_container w) (root_instance w) (root_node w) ""
                        (resetHooks w) = Ok (instance, w1) ->
              exists w',
                render E fuel w = Ok (tt, w')
                /\ effects_queue w' = []
                /\ microtasks w'
                   = microtasks w1 ++ match effects_queue w1 with
                                      | [] => []
                                      | _ :: _ => [TaskEffects (effects_queue w1)]
                                      end
                /\ root_instance w' = instance
                /\ document w' = document w1).
  { intros fuel w instance w1 Hpass.
    change (root_container w) with (root_container (resetHooks w)) in Hpass.
    change (root_instance w) with (root_instance (resetHooks w)) in Hpass.
    change (root_node w) with (root_node (resetHooks w)) in Hpass.
    unfold render, bindM, modify. rewrite Hpass. eexists. split; [reflexivity|].
    set (collected := cleanupUnusedHooks (with_root_instance instance w1)).
    assert (Hframe : effects_queue collected = effects_queue w1
                     /\ microtasks collected = microtasks w1
                     /\ document collected = document w1
                     /\ root_instance collected = instance).
    { subst collected. unfold cleanupUnusedHooks.
      apply (dropPaths_frame _ (with_root_instance instance w1)). }
    destruct Hframe as (Hq & Ht & Hd & Hr).
    destruct (scheduleEffects_snapshot collected) as (-> & -> & _).
    split; [done|]. split; [by rewrite Hq, Ht|].
    unfold scheduleEffects. rewrite <- Hr, <- Hd.
    by destruct (Nat.ltb 0 (length (effects_queue collected))). }
  split; [exact Hrender|]. split; [|split; [|split; [|split]]].
  - intros fuel effectsToRun w. split; [done|]. apply flushEffects_queue.
  - done.
  - intros w path cur slots hook Hslots Hcur.
    destruct (runEffect_live E w path cur slots hook Hslots Hcur) as (Hi & Hs & _).
    by split.
  - apply runEffect_stale.
  - intros Inv out fuel w Hdet Hinv Hnode.
    assert (exists instance w1,
               reconcile E fuel (root_container w) (root_instance w) (root_node w) ""
                         (resetHooks w) = Ok (instance, w1))
      as (instance & w1 & Hpass).
    { destruct (root_node w) as [node|].
      - destruct (reconcile_returns E Inv out Hdet fuel node "" (root_container w)
                                    (root_instance w) (resetHooks w) Hnode Hinv)
          as (i & w1 & Hrun & _).
        by exists (Some i), w1.
      - eexists _, _. by apply unmount_run. }
    destruct (Hrender fuel w instance w1 Hpass) as (w' & Hrun & _).
    by exists w'.
Qed.

Lemma effect_flush_uses_snapshot_witness :
  (exists w', render Ex.env 8 (Ex.world (Some (Ex.component 0))) = Ok (tt, w')
              /\ effects_queue w' = []
              /\ microtasks w' = [TaskEffects [("", 1)]])
  /\ (let w := Ex.hookWorld [HEffect (MkEffectHook VNull (Some 9) 10)] in
      smap_get "c" (state (hooks w)) = Some [HEffect (MkEffectHook VNull (Some 9) 10)]
      /\ invoked (runEffect Ex.env w ("c", 0)) = [9; 10]
      /\ smap_get "c" (state (hooks (runEffect Ex.env w ("c", 0))))
         = Some [HEffect (MkEffectHook VNull (Some 11) 10)]
      /\ runEffect Ex.env w ("gone", 0) = w)
  /\ exists w', render Counter.env 4 Counter.app = Ok (tt, w').
Proof.
  destruct (effect_flush_uses_snapshot Ex.env) as (Hrender & _ & _ & Hlive & Hstale & _).
  split; [|split].
  - destruct (reconcile Ex.env 8 0 None (Some (Ex.component 0)) ""
                        (resetHooks (Ex.world (Some (Ex.component 0)))))
      as [[instance w1]| |] eqn:Hpass; [|vm_compute in Hpass; discriminate Hpass..].
    destruct (Hrender 8 (Ex.world (Some (Ex.component 0))) instance w1 Hpass)
      as (w' & Hrun & Hqueue & Htasks & _).
    exists w'. split; [exact Hrun|]. split; [exact Hqueue|].
    rewrite Htasks. vm_compute in Hpass. injection Hpass as _ <-. reflexivity.
  - intros w. split; [reflexivity|].
    destruct (Hlive w "c" 0 [HEffect (MkEffectHook VNull (Some 9) 10)]
                    (MkEffectHook VNull (Some 9) 10) eq_refl eq_refl) as [Hinv Hslot].
    split; [exact Hinv|]. split; [exact Hslot|].
    apply Hstale. reflexivity.
  - destruct (effect_flush_uses_snapshot Counter.env) as (_ & _ & _ & _ & _ & Hreturns).
    apply (Hreturns (Counter.Inv Counter.count) (Counter.out Counter.count) 4
                    Counter.app (Counter_determined Counter.count)).
    + exact Counter_world_Inv.
    + vm_compute. reflexivity.
Defined.

(** ** The further properties at work on examples *)

Lemma Ex_components_grow_visited :
  forall g p, growsVisited (fn_component Ex.env g p).
Proof.
  intros g p. simpl. destruct g as [|[|g]].
  - unfold Ex.Greeting.
    apply growsVisited_bind; [apply useState_growsVisited|intros ?].
    apply growsVisited_bind; [apply useEffect_growsVisited|intros ?].
    apply growsVisited_ret.
  - apply growsVisited_ret.
  - apply growsVisited_ret.
Qed.

Lemma shallow_equal_is_deep_equal_witness :
  shallowEquals (VObj 1 [("x", VNum (Int 1))]) (VObj 2 [("x", VNum (Int 1))]) = Ok true
  /\ deepEquals (VObj 1 [("x", VNum (Int 1))]) (VObj 2 [("x", VNum (Int 1))]) = Ok true.
Proof.
  split; [reflexivity|].
  apply shallow_equal_is_deep_equal; [|reflexivity].
  intros i fs [= _ <-]. refine (bool_decide_unpack _ _); vm_compute; exact I.
Defined.

Lemma deepEquals_same_shape_witness :
  sameShape (VArr 1 [VObj 2 [("k", VStr "a"); ("m", VNum NaN)]; VNum NaN])
            (VArr 3 [VObj 4 [("m", VNum NaN); ("k", VStr "a")]; VNum NaN])
  /\ deepEquals (VArr 1 [VObj 2 [("k", VStr "a"); ("m", VNum NaN)]; VNum NaN])
                (VArr 3 [VObj 4 [("m", VNum NaN); ("k", VStr "a")]; VNum NaN]) = Ok true.
Proof.
  assert (Hshape : sameShape
                     (VArr 1 [VObj 2 [("k", VStr "a"); ("m", VNum NaN)]; VNum NaN])
                     (VArr 3 [VObj 4 [("m", VNum NaN); ("k", VStr "a")]; VNum NaN])).
  { apply sameShape_array. repeat apply List.Forall2_cons; [| |apply List.Forall2_nil].
    - apply sameShape_object.
      + refine (bool_decide_unpack _ _); vm_compute; exact I.
      + refine (bool_decide_unpack _ _); vm_compute; exact I.
      + reflexivity.
      + intros key x [Hin|[Hin|Hin%elem_of_nil]%elem_of_cons]%elem_of_cons;
          [| |destruct Hin]; injection Hin as -> ->.
        * exists (VStr "a"). split; [right; left|apply sameShape_leaf; reflexivity].
        * exists (VNum NaN). split; [left|apply sameShape_leaf; reflexivity].
    - apply sameShape_leaf. reflexivity. }
  split; [exact Hshape|].
  apply deepEquals_same_shape. exact Hshape.
Defined.

Lemma equals_not_symmetric_witness :
  shallowEquals (VObj 1 [("a", VUndefined)]) (VObj 2 [("b", VNum (Int 1))]) = Ok true
  /\ shallowEquals (VObj 2 [("b", VNum (Int 1))]) (VObj 1 [("a", VUndefined)]) = Ok false
  /\ deepEquals (VObj 1 [("a", VUndefined)]) (VObj 2 [("b", VNum (Int 1))]) = Ok true
  /\ deepEquals (VObj 2 [("b", VNum (Int 1))]) (VObj 1 [("a", VUndefined)]) = Ok false.
Proof.
  apply (equals_not_symmetric 1 2 "a" "b" (VNum (Int 1)));
    [discriminate|discriminate|discriminate|reflexivity|reflexivity].
Defined.

Lemma unkeyed_siblings_get_distinct_paths_witness :
  createChildPath Ex.fns "root" None 0 (Some (Fn 0))
                  (Some [Ex.component 0; Ex.text "x"; Ex.component 0])
  <> createChildPath Ex.fns "root" None 2 (Some (Fn 0))
                     (Some [Ex.component 0; Ex.text "x"; Ex.component 0]).
Proof.
  apply (unkeyed_siblings_get_distinct_paths Ex.fns "root"
           [Ex.component 0; Ex.text "x"; Ex.component 0] 0 2
           (Ex.component 0) (Ex.component 0));
    [lia|reflexivity..].
Defined.

Lemma same_name_components_share_path_witness :
  createChildPath Ex.fns "root" None 0 (Some (Fn 2))
                  (Some [Ex.component 2; Ex.component 3])
  = createChildPath Ex.fns "root" None 1 (Some (Fn 3))
                    (Some [Ex.component 2; Ex.component 3]).
Proof.
  apply (same_name_components_share_path Ex.fns "root" 2 3
           (Ex.component 2) (Ex.component 3));
    [discriminate|reflexivity..].
Defined.

Lemma inserted_sibling_and_paths_witness :
  createChildPath Ex.fns "r" None 1 (Some (Fn 0)) (Some [Ex.text "t"; Ex.component 0])
  = createChildPath Ex.fns "r" None 0 (Some (Fn 0)) (Some [Ex.component 0])
  /\ createChildPath Ex.fns "r" None 1 (Some (Host "p")) (Some [Ex.text "t"; Ex.component 0])
     <> createChildPath Ex.fns "r" None 0 (Some (Host "p")) (Some [Ex.component 0]).
Proof.
  destruct (inserted_sibling_and_paths Ex.fns "r" [] [Ex.component 0] (Ex.text "t") 0)
    as [Hcomponent Hother]; [simpl; lia|].
  split.
  - apply (Hcomponent 0). reflexivity.
  - apply (Hother (Host "p")). intros f. discriminate.
Defined.

Lemma createElement_drops_empty_values_witness :
  createElement (Host "p") None [RLeaf (LStr "a"); RLeaf LNull; RLeaf (LBool true)]
  = createElement (Host "p") None [RLeaf (LStr "a"); RLeaf (LBool true)]
  /\ p_children (v_props (createElement (Host "p")
                                        (Some (MkOriginProps KeyMissing (Some []) []))
                                        [RLeaf LNull; RLeaf (LBool true)]))
     = Some []
  /\ exists child rest,
       p_children (v_props (createElement (Host "p")
                                          (Some (MkOriginProps KeyMissing (Some []) []))
                                          [RLeaf LNull; RLeaf (LStr "a")]))
       = Some (child :: rest).
Proof.
  split; [|split].
  - apply (proj1 (createElement_drops_empty_values (Host "p") None
                    [RLeaf (LStr "a")] [RLeaf (LBool true)] LNull)).
    reflexivity.
  - apply (proj1 (proj2 (createElement_drops_empty_values (Host "p")
                           (Some (MkOriginProps KeyMissing (Some []) []))
                           [RLeaf LNull] [RLeaf (LBool true)] LNull))).
    repeat constructor.
  - destruct (proj2 (proj2 (createElement_drops_empty_values (Host "p")
                              (Some (MkOriginProps KeyMissing (Some []) []))
                              [RLeaf LNull] [RLeaf (LStr "a")] LNull)))
      as (child & rest & _ & Hchildren).
    + intros Hempty. apply Forall_cons in Hempty as [_ Hempty].
      apply Forall_cons in Hempty as [Hempty _]. discriminate Hempty.
    + exists child, rest. exact Hchildren.
Defined.

Lemma setDomProps_throws_on_null_style_witness :
  setDomProps Ex.fns 1 (MkProps None [("id", VStr "x"); ("style", VNull)])
              (MkDom 2 ∅ ∅ [])
  = Throw "TypeError"
  /\ exists dom', setDomProps Ex.fns 1 (MkProps None [("id", VStr "x")]) (MkDom 2 ∅ ∅ [])
                  = Ok dom'.
Proof.
  split.
  - apply (proj1 (setDomProps_throws_on_null_style Ex.fns 1
                    (MkProps None [("id", VStr "x"); ("style", VNull)]) (MkDom 2 ∅ ∅ []))).
    simpl. right. left.
  - apply (proj2 (setDomProps_throws_on_null_style Ex.fns 1
                    (MkProps None [("id", VStr "x")]) (MkDom 2 ∅ ∅ []))).
    simpl. intros [H|H%elem_of_nil]%elem_of_cons; [discriminate H|exact H].
Defined.

Lemma props_touch_one_widget_witness :
  exists dom',
    updateDomProps Ex.fns 1 (MkProps None [("id", VStr "x")])
                   (MkProps None [("id", VStr "y"); ("className", VStr "c")])
                   (MkDom 2 ∅ ∅ [])
    = Ok dom'
    /\ writtenOn 1 (MkDom 2 ∅ ∅ []) dom'.
Proof.
  destruct (updateDomProps Ex.fns 1 (MkProps None [("id", VStr "x")])
              (MkProps None [("id", VStr "y"); ("className", VStr "c")])
              (MkDom 2 ∅ ∅ [])) as [dom'| |] eqn:Hrun;
    [|vm_compute in Hrun; discriminate Hrun..].
  exists dom'. split; [reflexivity|].
  exact (proj2 (props_touch_one_widget Ex.fns 1 _ _ _ _) Hrun).
Defined.


Lemma collected_effects_are_skipped_witness :
  flushEffects Ex.fns [("a", 0)] (cleanupUnusedHooks Ex.gcWorld)
  = cleanupUnusedHooks Ex.gcWorld.
Proof.
  apply collected_effects_are_skipped.
  intros entry [->|H%elem_of_nil]%elem_of_cons; [|destruct H].
  refine (bool_decide_unpack _ _); vm_compute; exact I.
Defined.

Lemma effect_cleanup_precedes_rerun_witness :
  invoked (flushEffects Ex.fns [("c", 0); ("c", 0)]
                        (Ex.hookWorld [HEffect (MkEffectHook VNull (Some 9) 10)]))
  = [9; 10; 11; 10].
Proof.
  exact (effect_cleanup_precedes_rerun Ex.fns
           (Ex.hookWorld [HEffect (MkEffectHook VNull (Some 9) 10)]) "c" 0
           [HEffect (MkEffectHook VNull (Some 9) 10)] (MkEffectHook VNull (Some 9) 10)
           eq_refl eq_refl).
Defined.

Lemma useState_keeps_stored_value_witness :
  exists w',
    useState Ex.fns (VNum (Int 0)) (Ex.hookWorld [HValue (VNum (Int 5))])
    = Ok ((HValue (VNum (Int 5)), ("c", 0)), w')
    /\ state (hooks w') = state (hooks (Ex.hookWorld [HValue (VNum (Int 5))])).
Proof.
  eexists. split.
  - exact (useState_keeps_stored_value Ex.fns (VNum (Int 0))
             (Ex.hookWorld [HValue (VNum (Int 5))]) "c" [HValue (VNum (Int 5))]
             (HValue (VNum (Int 5))) eq_refl eq_refl eq_refl eq_refl).
  - reflexivity.
Defined.

Lemma undefined_state_is_reinitialised_witness :
  let w := Ex.hookWorld [HValue (VNum (Int 5))] in
  exists w3,
    useState Ex.fns (VNum (Int 7)) (setState Ex.fns "c" 0 VUndefined w)
    = Ok ((HValue (VNum (Int 7)), ("c", 0)), w3)
    /\ smap_get "c" (state (hooks w3)) = Some [HValue (VNum (Int 7))].
Proof.
  intros w.
  destruct (undefined_state_is_reinitialised Ex.fns (VNum (Int 7)) w
              (setState Ex.fns "c" 0 VUndefined w) "c" 0
              [HValue (VNum (Int 5))] (VNum (Int 5)))
    as (_ & w3 & Hrun & Hslot);
    [reflexivity|reflexivity|discriminate|reflexivity|reflexivity|reflexivity|].
  exists w3. split; [exact Hrun|exact Hslot].
Defined.

Lemma setState_without_slots_witness :
  let w := Ex.hookWorld [] in
  setState Ex.fns "gone" 0 (VNum (Int 1)) w = enqueueRender w
  /\ setState Ex.fns "gone" 0 VUndefined w = w.
Proof.
  intros w. split.
  - exact (proj1 (setState_without_slots Ex.fns "gone" 0 (VNum (Int 1)) w eq_refl)).
  - exact (proj1 (setState_without_slots Ex.fns "gone" 0 VUndefined w eq_refl)).
Defined.

Lemma setState_updaters_compose_witness :
  let w := Ex.hookWorld [HValue (VNum (Int 1))] in
  smap_get "c" (state (hooks (setState Ex.fns "c" 0 (VFun 20)
                                       (setState Ex.fns "c" 0 (VFun 20) w))))
  = Some [HValue (VNum (Int 3))].
Proof.
  intros w.
  destruct (setState_updaters_compose Ex.fns "c" 0 20 20 w
              [HValue (VNum (Int 1))] (VNum (Int 1)) eq_refl eq_refl eq_refl)
    as (x & Hslot & _ & Hx).
  rewrite Hslot, (Hx eq_refl). reflexivity.
Defined.

Lemma reconcile_result_witness :
  exists i w',
    reconcile Counter.env 4 0 None (Some (Ex.component 0)) "p" Counter.world
    = Ok (Some i, w')
    /\ i_node i = Ex.component 0 /\ i_path i = "p" /\ i_kind i = COMPONENT.
Proof.
  destruct (reconcile_result Counter.env 4 0 None "p" Counter.world)
    as (_ & Hreturns & Hresult).
  destruct (Hreturns (Counter.Inv Counter.count) (Counter.out Counter.count)
                     (Ex.component 0) (Counter_determined Counter.count))
    as (i & w' & Hrun); [vm_compute; reflexivity|exact Counter_world_Inv|].
  destruct (Hresult _ _ _ Hrun) as (i' & Hsome & Hnode & Hpath & _ & Hkind & _).
  injection Hsome as <-.
  exists i, w'. split; [exact Hrun|]. split; [exact Hnode|]. split; [exact Hpath|exact Hkind].
Defined.

Lemma reconcileChildren_keeps_holes_witness :
  let parent := MkInstance FRAGMENT None (MkVNode Fragment None (MkProps None []))
                           [None; None; None] None "p" in
  exists newInstances w',
    reconcileChildren Counter.env (reconcile Counter.env 4) 0 parent [Ex.component 0]
                      Counter.world
    = Ok (newInstances, w')
    /\ length newInstances = 3
    /\ newInstances !! 2 = Some None.
Proof.
  intros parent.
  destruct (reconcileChildren_keeps_holes Counter.env 4 0 parent [Ex.component 0]
                                          Counter.world) as (Hreturns & Hholes & _).
  destruct (Hreturns (Counter.Inv Counter.count) (Counter.out Counter.count)
                     (Counter_determined Counter.count) Counter_world_Inv)
    as (newInstances & w' & Hrun).
  { discriminate. }
  { intros i newChild Hchild. destruct i as [|i]; [|discriminate Hchild].
    injection Hchild as <-. vm_compute. reflexivity. }
  destruct (Hholes _ _ Hrun) as (Hlen & _ & Hnull).
  exists newInstances, w'. split; [exact Hrun|]. split; [exact Hlen|].
  apply Hnull. simpl. lia.
Defined.

Lemma rendered_component_keeps_its_hooks_witness :
  exists r w',
    reconcile Ex.env 8 0 None (Some (Ex.component 0)) "root" (Ex.world None) = Ok (r, w')
    /\ "root" ∈ visited (hooks w')
    /\ smap_get "root" (state (hooks (cleanupUnusedHooks w')))
       = smap_get "root" (state (hooks w')).
Proof.
  destruct (reconcile Ex.env 8 0 None (Some (Ex.component 0)) "root" (Ex.world None))
    as [[r w']| |] eqn:Hrun; [|vm_compute in Hrun; discriminate Hrun..].
  destruct (rendered_component_keeps_its_hooks Ex.env 8 0 None 0 None (MkProps None [])
              "root" _ _ _ Ex_components_grow_visited Hrun)
    as (_ & Hvisited & Hslots & _).
  exists r, w'. split; [reflexivity|]. split; [exact Hvisited|exact Hslots].
Defined.

Lemma new_widget_is_attached_last_witness :
  exists i w',
    reconcile Ex.env 8 0 None (Some (Ex.div [] [Ex.text "a"])) "" (Ex.world None)
    = Ok (Some i, w')
    /\ i_dom i = Some 1
    /\ parentNode (document w') !! 1 = Some 0
    /\ last (oplog (document w')) = Some (OpAppendChild 0 1).
Proof.
  destruct (reconcile Ex.env 8 0 None (Some (Ex.div [] [Ex.text "a"])) "" (Ex.world None))
    as [[[i|] w']| |] eqn:Hrun; try (vm_compute in Hrun; discriminate Hrun).
  pose proof Hrun as Hcomputed. vm_compute in Hcomputed.
  injection Hcomputed as Hinstance _.
  assert (Hdom : i_dom i = Some 1) by (rewrite <- Hinstance; reflexivity).
  destruct (new_widget_is_attached_last Ex.env 8 0 None _ "" _ _ i 1 I Hrun Hdom)
    as (_ & Hparent & Hlast).
  exists i, w'. split; [reflexivity|]. split; [exact Hdom|]. split; [exact Hparent|exact Hlast].
Defined.
